(** * bulkie.js: the Bulkie orchestration class and the lit-action build script

    A shallow embedding of [src/bulkie.ts] (class [Bulkie]), [src/types.ts]
    (the [FN] table) and of the text post-processing of [esbuild.config.ts],
    followed by the properties stated about them.

    Conventions of the embedding.
    - A thrown value is an error object with a [name] and a [message] (the
      outcome [Throw]), or [null] or [undefined] (the outcome
      [ThrowNullish]), which a promise of an SDK can be rejected with and
      whose [message] cannot be read. An error thrown by a function and a
      promise rejected with it are not told apart.
    - The vendor SDKs (lit-node-client, contracts-sdk, ethers) are not part of
      the repository: every asynchronous SDK call is answered by an oracle of
      the environment [Env], and every call is recorded in a log, once when it
      is issued and once when it settles.
    - [console.log] output ([_debug], [_guide]) is not modelled; the SDK calls
      that the source makes while building a debug message are. *)

From Stdlib Require Import ZArith NArith QArith Lia List Ascii.
From stdpp Require Import base strings list gmap.
Import ListNotations.
Local Open Scope string_scope.
Local Open Scope list_scope.
Local Open Scope Z_scope.

(** ** JavaScript errors *)

Record JsError := mkJsError { name : string; message : string }.

(** [new Error(msg)] *)
Definition Error (msg : string) : JsError := mkJsError "Error" msg.

(** [`${e}`] for an error object: [Error.prototype.toString]. *)
Definition toString (e : JsError) : string :=
  if decide (name e = "") then message e
  else if decide (message e = "") then name e
  else name e +:+ ": " +:+ message e.

(** [new TypeError(msg)] *)
Definition TypeError (msg : string) : JsError := mkJsError "TypeError" msg.

(** [null] and [undefined]. *)
Inductive Nullish := JsNull | JsUndefined.

(** What a [catch (e)] receives. *)
Inductive Thrown :=
| ThrownError (e : JsError)
| ThrownNullish (v : Nullish).

(** [`${e}`] for a thrown value. *)
Definition Thrown_toString (e : Thrown) : string :=
  match e with
  | ThrownError e => toString e
  | ThrownNullish JsNull => "null"
  | ThrownNullish JsUndefined => "undefined"
  end.

Inductive Res (A : Type) : Type :=
| Ok (a : A)
| Throw (e : JsError)
| ThrowNullish (v : Nullish).
Arguments Ok {A} a.
Arguments Throw {A} e.
Arguments ThrowNullish {A} v.

(** JS truthiness of an optional string ([undefined] and [''] are falsy). *)
Definition truthy (o : option string) : bool :=
  match o with
  | Some s => negb (String.eqb s "")
  | None => false
  end.

(** ** [types.ts] *)

(** [FN]: the supported function names ([BulkieSupportedFunctions]). *)
Module FN.
Inductive BulkieSupportedFunctions :=
| connectToLitNodeClient
| connectToLitContracts
| mintPKP
| mintCreditsNFT
| createCreditsDelegationToken
| createAccessToken
| grantAuthMethodToUsePKP
| grantIPFSCIDtoUsePKP
| getPkps
| executeJs.

(** the string each key of [FN] stands for *)
Definition name (f : BulkieSupportedFunctions) : string :=
  match f with
  | connectToLitNodeClient => "connectToLitNodeClient"
  | connectToLitContracts => "connectToLitContracts"
  | mintPKP => "mintPKP"
  | mintCreditsNFT => "mintCreditsNFT"
  | createCreditsDelegationToken => "createCreditsDelegationToken"
  | createAccessToken => "createAccessToken"
  | grantAuthMethodToUsePKP => "grantAuthMethodToUsePKP"
  | grantIPFSCIDtoUsePKP => "grantIPFSCIDtoUsePKP"
  | getPkps => "getPkps"
  | executeJs => "executeJs"
  end.
End FN.
Abbreviation BulkieSupportedFunctions := FN.BulkieSupportedFunctions.

#[global] Instance FN_eq_dec : EqDecision BulkieSupportedFunctions.
Proof. solve_decision. Defined.

(** [STEP] and [UNAVAILABLE_STEP]: the hints printed after a step. *)
Definition STEP (f : BulkieSupportedFunctions) : string :=
  match f with
  | FN.connectToLitContracts => FN.name f +:+ " (to connect to Lit Contracts)"
  | FN.mintPKP => FN.name f +:+ " - (to mint a PKP)"
  | FN.mintCreditsNFT =>
      FN.name f +:+ " - (to mint a Credits Token to pay for usage of the Lit Network)"
  | FN.grantAuthMethodToUsePKP =>
      FN.name f +:+ " - (to grant an auth method to use the PKP)"
  | FN.grantIPFSCIDtoUsePKP =>
      FN.name f +:+ " - (to grant an IPFS CID to use the PKP)"
  | FN.createAccessToken =>
      FN.name f +:+ " - (You can use this token to access to Lit Network. Note that you will also need credits to use the Network)"
  | FN.createCreditsDelegationToken =>
      FN.name f +:+ " - (to create a Credits Delegation Token so that your users can use the credits token you minted subject to the addresses you specify)"
  | FN.getPkps => FN.name f +:+ " - (to get all PKPs)"
  | FN.executeJs =>
      FN.name f +:+ " - (to execute a JS code in the Lit Nodes withint a trusted execution environment (TEE) )"
  | FN.connectToLitNodeClient => "undefined" (* no entry in the table *)
  end.

Definition UNAVAILABLE_STEP_mint_pkp_tip_1 : string :=
  "You can fund the PKP if you want so that you can use it later to send transactions.".

(** [OutputHandler] *)
Record OutputHandler := { outputId : option string }.

(** ** Vendor data

    The shapes of the objects the SDKs hand back, as far as the source reads
    them. *)

(** An ethers provider, made from an RPC url ([new JsonRpcProvider(url)]),
    and an ethers [Signer]: its account and the provider it is connected
    to. *)
Record Provider := { url : option string }.
Record Signer := { account : string; provider : option Provider }.

(** [signer.connect(new JsonRpcProvider(rpc))] *)
Definition Signer_connect (sg : Signer) (rpc : option string) : Signer :=
  {| account := account sg; provider := Some {| url := rpc |} |}.

(** The configuration objects given to [new LitNodeClient] and
    [new LitContracts]. *)
Record LitNodeClient :=
  { lnc_litNetwork : option string; lnc_debug : bool; lnc_rpcUrl : option string }.

Record LitContracts :=
  { lc_debug : bool; lc_network : option string;
    lc_signer : option Signer; lc_rpc : option string }.

Record AuthSig :=
  { sig : string; derivedVia : string; signedMessage : string; address : string }.

(** [SessionSigsMap]: node url to session signature. *)
Definition SessionSigsMap := list (string * AuthSig).

Record TX := { hash : string; explorer : string }.
Record PKPTokenId := { hex : string; decimal : string }.

Record MintedPKP :=
  { mp_tokenId : PKPTokenId; mp_publicKey : string; mp_ethAddress : string; mp_tx : TX }.

Record PkpInfo :=
  { pi_tokenId : PKPTokenId; pi_publicKey : string; pi_ethAddress : string }.

(** What [pkpNftContractUtils.write.mint()] resolves to. *)
Record MintRes :=
  { res_tx_hash : string; res_pkp_publicKey : string;
    res_pkp_tokenId : string; res_pkp_ethAddress : string }.

(** [LIT_ABILITY] and the resource classes of [@lit-protocol/auth-helpers]. *)
Inductive LitAbility :=
| AccessControlConditionSigning
| AccessControlConditionDecryption
| LitActionExecution
| RateLimitIncreaseAuth
| PKPSigning.

Inductive LitResource :=
| LitAccessControlConditionResource (request : string)
| LitActionResource (request : string)
| LitRLIResource (request : string)
| LitPKPResource (request : string).

Record ResourceAbilityRequest := { resource : LitResource; ability : LitAbility }.

(** The values kept in the output cache ([FunctionReturnTypes]). *)
Inductive Value :=
| VLitNodeClient (c : LitNodeClient)
| VLitContracts (c : LitContracts)
| VMintedPKP (p : MintedPKP)
| VString (s : string)
| VAuthSig (a : AuthSig)
| VSessionSigs (s : SessionSigsMap)
| VTx (t : TX).

(** ** The asynchronous vendor-SDK calls, with the arguments the source
    passes. *)
Inductive VendorCall :=
| LitNodeClient_connect (c : LitNodeClient)
| LitContracts_connect (c : LitContracts)
| Signer_getAddress (sg : Signer)
| Signer_getBalance (sg : Signer)
| Signer_sendTransaction (sg : Signer) (to : string) (value : string)
| Tx_wait (txHash : string)
| Provider_getBalance (p : Provider) (addr : string)
| PkpNft_mint (c : LitContracts)
| PkpNft_getTokensByAddress (c : LitContracts) (addr : string)
| PkpPermissions_getPubkey (c : LitContracts) (tokenId : string)
| LitContracts_mintCapacityCreditsNFT
    (c : LitContracts) (requestsPerKilosecond daysUntilUTCMidnightExpiration : Z)
| LitContracts_addPermittedAuthMethod
    (c : LitContracts) (pkpTokenId authMethodId : string) (authMethodType : Z)
    (authMethodScopes : list Z)
| LitContracts_addPermittedAction
    (c : LitContracts) (pkpTokenId ipfsId : string) (authMethodScopes : list Z)
| LitNodeClient_createCapacityDelegationAuthSig
    (c : LitNodeClient) (expiration : option string) (dAppOwnerWallet : Signer)
    (capacityTokenId : string) (delegateeAddresses : option (list string))
| LitNodeClient_getLitActionSessionSigs
    (c : LitNodeClient) (pkpPublicKey : string)
    (resourceAbilityRequests : list ResourceAbilityRequest)
    (litActionCode litActionIpfsId : option string) (jsParams : option string)
    (capabilityAuthSigs : list AuthSig).

(** What each call resolves to. *)
Definition reply (c : VendorCall) : Type :=
  match c with
  | LitNodeClient_connect _ | LitContracts_connect _ => unit
  | Signer_getAddress _ => string
  | Signer_getBalance _ | Provider_getBalance _ _ => Z
  | Signer_sendTransaction _ _ _ => string
  | Tx_wait _ => string
  | PkpNft_mint _ => MintRes
  | PkpNft_getTokensByAddress _ _ => list string
  | PkpPermissions_getPubkey _ _ => string
  | LitContracts_mintCapacityCreditsNFT _ _ _ => string
  | LitContracts_addPermittedAuthMethod _ _ _ _ _ => string
  | LitContracts_addPermittedAction _ _ _ _ => string
  | LitNodeClient_createCapacityDelegationAuthSig _ _ _ _ _ => AuthSig
  | LitNodeClient_getLitActionSessionSigs _ _ _ _ _ _ _ => SessionSigsMap
  end.

Inductive Event :=
| Issued (c : VendorCall)
| Settled (c : VendorCall).

(** ** The environment: everything the class gets from outside. *)
Record Env := {
  (** [Date.now()] at the k-th reading of the clock *)
  now : nat -> Z;
  (** the outcome of an SDK call issued when the log has n entries *)
  vendor : nat -> forall c : VendorCall, Res (reply c);
  (** [typeof window]: [None] under Node.js, [Some None] in a browser without
      [window.ethereum], [Some (Some sg)] with an injected provider whose
      signer is [sg] *)
  window : option (option Signer);
  (** vendor constant tables *)
  RPC_URL_BY_NETWORK : string -> option string;
  blockExplorerUrl : string -> option string;
  (** ethers utilities that can reject their argument *)
  BigNumber_toString : string -> Res string;
  BigNumber_toHexString : string -> Res string;
  parseEther : string -> Res string;
  computeAddress : string -> Res string;
  (** [Buffer.from(s).toString('base64')] *)
  base64 : string -> string;
  (** the engine's message for reading property [p] of [undefined] *)
  cannot_read : string -> string;
  (** the engine's message for reading property [p] of [null] *)
  cannot_read_null : string -> string
}.

(** The message of the [TypeError] for reading property [p] of [v]. *)
Definition cannot_read_of (env : Env) (v : Nullish) (p : string) : string :=
  match v with
  | JsUndefined => cannot_read env p
  | JsNull => cannot_read_null env p
  end.

(** ** The class state *)
Record Bulkie := {
  debug : bool;
  litDebug : bool;
  guides : bool;
  network : option string;
  litNodeClient : option LitNodeClient;
  litContracts : option LitContracts;
  signer : option Signer;
  rpc : option string;
  executionTimes : list Z;
  outputs : gmap string Value
}.

Definition set_litNodeClient (c : LitNodeClient) (b : Bulkie) : Bulkie :=
  {| debug := debug b; litDebug := litDebug b; guides := guides b;
     network := network b; litNodeClient := Some c;
     litContracts := litContracts b; signer := signer b; rpc := rpc b;
     executionTimes := executionTimes b; outputs := outputs b |}.

Definition set_litContracts (c : LitContracts) (b : Bulkie) : Bulkie :=
  {| debug := debug b; litDebug := litDebug b; guides := guides b;
     network := network b; litNodeClient := litNodeClient b;
     litContracts := Some c; signer := signer b; rpc := rpc b;
     executionTimes := executionTimes b; outputs := outputs b |}.

Definition set_signer (sg : option Signer) (b : Bulkie) : Bulkie :=
  {| debug := debug b; litDebug := litDebug b; guides := guides b;
     network := network b; litNodeClient := litNodeClient b;
     litContracts := litContracts b; signer := sg; rpc := rpc b;
     executionTimes := executionTimes b; outputs := outputs b |}.

Definition set_executionTimes (l : list Z) (b : Bulkie) : Bulkie :=
  {| debug := debug b; litDebug := litDebug b; guides := guides b;
     network := network b; litNodeClient := litNodeClient b;
     litContracts := litContracts b; signer := signer b; rpc := rpc b;
     executionTimes := l; outputs := outputs b |}.

Definition set_outputs (m : gmap string Value) (b : Bulkie) : Bulkie :=
  {| debug := debug b; litDebug := litDebug b; guides := guides b;
     network := network b; litNodeClient := litNodeClient b;
     litContracts := litContracts b; signer := signer b; rpc := rpc b;
     executionTimes := executionTimes b; outputs := m |}.

(** ** Getters and the output cache *)

(** [const key = outputId ? `${fnName}:${outputId}` : fnName] *)
Definition output_key (fnName : BulkieSupportedFunctions) (outputId : option string) : string :=
  if truthy outputId
  then FN.name fnName +:+ ":" +:+ default "" outputId
  else FN.name fnName.

Definition getOutput (b : Bulkie) (fnName : BulkieSupportedFunctions) (outputId : option string)
  : option Value :=
  outputs b !! output_key fnName outputId.

Definition getAllOutputs (b : Bulkie) : gmap string Value := outputs b.

Definition _setOutput (fnName : BulkieSupportedFunctions) (output : Value) (outputId : option string)
    (b : Bulkie) : Bulkie :=
  set_outputs (<[output_key fnName outputId := output]> (outputs b)) b.

Record ExecutionTime := { ms : Z; s : Q }.

(** [executionTimes.reduce((a, b) => a + b, 0)], then [totalMs / 1000] *)
Definition getTotalExecutionTime (b : Bulkie) : ExecutionTime :=
  let totalMs := fold_left (fun a b => a + b) (executionTimes b) 0 in
  let totalS := (inject_Z totalMs / inject_Z 1000)%Q in
  {| ms := totalMs; s := totalS |}.

(** ** Effects

    A computation reads the environment and threads the world: the instance
    ([this]), the log of SDK calls and the number of clock readings so far.
    It ends with a value or with a thrown value. *)
Record World := { this : Bulkie; log : list Event; clock : nat }.

Definition M (A : Type) : Type := Env -> World -> Res A * World.

#[global] Instance M_ret : MRet M := fun A a _ w => (Ok a, w).

#[global] Instance M_bind : MBind M := fun A B k m env w =>
  match m env w with
  | (Ok a, w') => k a env w'
  | (Throw e, w') => (Throw e, w')
  | (ThrowNullish v, w') => (ThrowNullish v, w')
  end.

Definition throw {A} (e : JsError) : M A := fun _ w => (Throw e, w).

(** [try { m } catch (e) { h e }] *)
Definition try_catch {A} (m : M A) (h : Thrown -> M A) : M A := fun env w =>
  match m env w with
  | (Ok a, w') => (Ok a, w')
  | (Throw e, w') => h (ThrownError e) env w'
  | (ThrowNullish v, w') => h (ThrownNullish v) env w'
  end.

(** [e.message] for a caught value [e]: reading a property of [null] or of
    [undefined] throws a [TypeError]. *)
Definition message_of (e : Thrown) : M string := fun env w =>
  match e with
  | ThrownError e => (Ok (message e), w)
  | ThrownNullish v => (Throw (TypeError (cannot_read_of env v "message")), w)
  end.

Definition ask : M Env := fun env w => (Ok env, w).

Definition get_this : M Bulkie := fun _ w => (Ok (this w), w).

Definition modify_this (f : Bulkie -> Bulkie) : M unit := fun _ w =>
  (Ok tt, {| this := f (this w); log := log w; clock := clock w |}).

(** A fallible synchronous library call. *)
Definition lift {A} (r : Res A) : M A := fun _ w => (r, w).

(** [Date.now()] *)
Definition Date_now : M Z := fun env w =>
  (Ok (now env (clock w)),
   {| this := this w; log := log w; clock := S (clock w) |}).

Definition emit (ev : Event) (w : World) : World :=
  {| this := this w; log := log w ++ [ev]; clock := clock w |}.

(** [await call]: the call is issued and the caller is suspended until it
    settles. *)
Definition await (c : VendorCall) : M (reply c) := fun env w =>
  (vendor env (length (log w)) c, emit (Settled c) (emit (Issued c) w)).

(** Reading a property of an object that may be [undefined]. *)
Definition deref {A} (o : option A) (prop : string) : M A := fun env w =>
  match o with
  | Some a => (Ok a, w)
  | None => (Throw (mkJsError "TypeError" (cannot_read env prop)), w)
  end.

(** ** Requirement checks and the step runner *)

Definition require_network : M unit :=
  b ← get_this;
  if truthy (network b) then mret tt
  else throw (Error "❌ this.network is required").

Definition require_litNodeClient : M unit :=
  b ← get_this;
  match litNodeClient b with
  | Some _ => mret tt
  | None => throw (Error "❌ LitNodeClient is required")
  end.

Definition require_litContracts : M unit :=
  b ← get_this;
  match litContracts b with
  | Some _ => mret tt
  | None => throw (Error "❌ LitContracts is required")
  end.

Definition require_signer : M unit :=
  b ← get_this;
  match signer b with
  | Some _ => mret tt
  | None => throw (Error "❌ Signer is required")
  end.

(** The [switch] of the source: the case of [grantAuthMethodToUsePKP] has no
    [break] and runs on into the case of [createAccessToken]. *)
Definition _checkRequirements (fnName : BulkieSupportedFunctions) : M unit :=
  match fnName with
  | FN.connectToLitNodeClient => require_network
  | FN.connectToLitContracts => require_network
  | FN.mintPKP => require_litContracts;; require_signer
  | FN.mintCreditsNFT => require_litContracts;; require_signer
  | FN.getPkps => require_litContracts;; require_signer
  | FN.grantAuthMethodToUsePKP =>
      require_litContracts;; require_signer;; require_litNodeClient
  | FN.createAccessToken => require_litNodeClient
  | _ => mret tt
  end.

Definition _run {T} (opName : string) (fnName : BulkieSupportedFunctions)
    (action : M T) (nextSteps : list string) : M T :=
  startTime ← Date_now;
  try_catch
    (_checkRequirements fnName;;
     result ← action;
     endTime ← Date_now;
     let duration := endTime - startTime in
     modify_this (fun b => set_executionTimes (executionTimes b ++ [duration]) b);;
     mret result)
    (fun e =>
       cause ← message_of e;
       throw (Error ("Error in " +:+ opName +:+ ": " +:+ cause))).

(** ** The constructor *)

Record ConstructorParams := {
  cp_network : option string;
  cp_debug : option bool;
  cp_litDebug : option bool;
  cp_guides : option bool;
  cp_signer : option Signer;
  cp_rpc : option string
}.

(** The signer is re-attached to a provider: to a [JsonRpcProvider] on
    [this.rpc] under Node.js, to the injected provider in a browser. *)
Definition attach_signer (env : Env) (rpc : option string) (sg : Signer) : Signer :=
  match window env with
  | None => Signer_connect sg rpc
  | Some (Some injected) => injected
  | Some None => sg
  end.

Definition constructor (env : Env) (params : ConstructorParams) : Res Bulkie :=
  if negb (truthy (cp_network params)) then Throw (Error "Network is required")
  else
    let rpc :=
      if truthy (cp_rpc params) then cp_rpc params
      else RPC_URL_BY_NETWORK env (default "undefined" (cp_network params)) in
    Ok {| debug := default false (cp_debug params);
          litDebug := default false (cp_litDebug params);
          guides := default false (cp_guides params);
          network := cp_network params;
          litNodeClient := None;
          litContracts := None;
          signer := attach_signer env rpc <$> cp_signer params;
          rpc := rpc;
          executionTimes := [];
          outputs := ∅ |}.

(** ** Actions *)

Definition connectToLitNodeClient (params : option OutputHandler) : M unit :=
  _run "LitNodeClient connection" FN.connectToLitNodeClient
    (b ← get_this;
     let client :=
       {| lnc_litNetwork := network b; lnc_debug := litDebug b; lnc_rpcUrl := rpc b |} in
     modify_this (set_litNodeClient client);;
     await (LitNodeClient_connect client);;
     modify_this
       (_setOutput FN.connectToLitNodeClient (VLitNodeClient client)
          (params ≫= outputId));;
     mret tt)
    [STEP FN.connectToLitContracts].

Definition connectToLitContracts (params : option OutputHandler) : M unit :=
  _run "LitContracts connection" FN.connectToLitContracts
    (b ← get_this;
     env ← ask;
     match signer b with
     | Some sg =>
         let sg' := attach_signer env (rpc b) sg in
         modify_this (set_signer (Some sg'));;
         try_catch
           (await (Signer_getAddress sg');;
            await (Signer_getBalance sg');;
            mret tt)
           (fun e => message_of e;; mret tt)
     | None => mret tt
     end;;
     b ← get_this;
     let contracts :=
       {| lc_debug := litDebug b; lc_network := network b;
          lc_signer := signer b; lc_rpc := rpc b |} in
     modify_this (set_litContracts contracts);;
     await (LitContracts_connect contracts);;
     modify_this
       (_setOutput FN.connectToLitContracts (VLitContracts contracts)
          (params ≫= outputId));;
     mret tt)
    [STEP FN.mintPKP; STEP FN.getPkps; STEP FN.mintCreditsNFT].

Record MintPKPParams := {
  mint_selfFund : option bool;
  mint_amountInEth : option string;
  mint_outputId : option string
}.

Definition mintPKP (params : option MintPKPParams) : M unit :=
  let _nextSteps :=
    if default false (params ≫= mint_selfFund)
    then [STEP FN.grantAuthMethodToUsePKP; STEP FN.grantIPFSCIDtoUsePKP;
          STEP FN.mintCreditsNFT]
    else [UNAVAILABLE_STEP_mint_pkp_tip_1; STEP FN.grantAuthMethodToUsePKP;
          STEP FN.grantIPFSCIDtoUsePKP; STEP FN.mintCreditsNFT] in
  _run "Mint PKP" FN.mintPKP
    (let _selfFund := default false (params ≫= mint_selfFund) in
     let _amountInEth :=
       if truthy (params ≫= mint_amountInEth)
       then default "" (params ≫= mint_amountInEth) else "0.001" in
     b ← get_this;
     env ← ask;
     contracts ← deref (litContracts b) "pkpNftContractUtils";
     res ← await (PkpNft_mint contracts);
     explorerUrl ←
       deref (blockExplorerUrl env (default "undefined" (network b)))
         "blockExplorerUrls";
     let hashOnExplorer := explorerUrl +:+ "tx/" +:+ res_tx_hash res in
     let hexPrefixedPublicKey := "0x" +:+ res_pkp_publicKey res in
     decimalTokenId ← lift (BigNumber_toString env (res_pkp_tokenId res));
     (if _selfFund then
        try_catch
          (tx ← match signer b with
                | Some sg =>
                    value ← lift (parseEther env _amountInEth);
                    txHash ← await (Signer_sendTransaction sg (res_pkp_ethAddress res) value);
                    mret (Some txHash)
                | None => mret None
                end;
           txHash ← match tx with
                    | Some txHash => mret txHash
                    | None => throw (Error "Transaction failed. This should never happen.")
                    end;
           await (Tx_wait txHash);;
           match signer b ≫= provider with
           | Some p => await (Provider_getBalance p (res_pkp_ethAddress res));; mret tt
           | None => mret tt
           end;;
           match signer b with
           | Some sg => await (Signer_getBalance sg);; mret tt
           | None => mret tt
           end)
          (fun e => throw (Error ("Error funding PKP: " +:+ Thrown_toString e)))
      else mret tt);;
     modify_this
       (_setOutput FN.mintPKP
          (VMintedPKP
             {| mp_tokenId := {| hex := res_pkp_tokenId res; decimal := decimalTokenId |};
                mp_publicKey := hexPrefixedPublicKey;
                mp_ethAddress := res_pkp_ethAddress res;
                mp_tx := {| hash := res_tx_hash res; explorer := hashOnExplorer |} |})
          (params ≫= mint_outputId));;
     mret tt)
    _nextSteps.

Record MintCreditsNFTParams := {
  requestsPerKilosecond : Z;
  daysUntilUTCMidnightExpiration : Z;
  credits_outputId : option string
}.

Definition mintCreditsNFT (params : MintCreditsNFTParams) : M unit :=
  if (requestsPerKilosecond params =? 0) || (daysUntilUTCMidnightExpiration params =? 0)
  then throw (Error "requestsPerKilosecond and daysUntilUTCMidnightExpiration are required")
  else
    _run "Mint Credits Token" FN.mintCreditsNFT
      (b ← get_this;
       contracts ← deref (litContracts b) "mintCapacityCreditsNFT";
       capacityTokenIdStr ←
         await (LitContracts_mintCapacityCreditsNFT contracts
                  (requestsPerKilosecond params)
                  (daysUntilUTCMidnightExpiration params));
       modify_this
         (_setOutput FN.mintCreditsNFT (VString capacityTokenIdStr)
            (credits_outputId params));;
       mret tt)
      [STEP FN.createCreditsDelegationToken].

Record CreateCreditsDelegationTokenParams := {
  expiry : option string;
  creditsTokenId : string;
  delegatees : option (list string);
  delegation_outputId : option string
}.

Definition createCreditsDelegationToken
    (params : CreateCreditsDelegationTokenParams) : M unit :=
  _run "Create Credits Delegation Token" FN.createCreditsDelegationToken
    (b ← get_this;
     sg ← match signer b with
          | Some sg => mret sg
          | None => throw (Error "Signer is required")
          end;
     client ← deref (litNodeClient b) "createCapacityDelegationAuthSig";
     capacityDelegationAuthSig ←
       await (LitNodeClient_createCapacityDelegationAuthSig client
                (if truthy (expiry params) then expiry params else None)
                sg
                (creditsTokenId params)
                (match delegatees params with
                 | Some (_ :: _) => delegatees params
                 | _ => None
                 end));
     modify_this
       (_setOutput FN.createCreditsDelegationToken
          (VAuthSig capacityDelegationAuthSig) (delegation_outputId params));;
     mret tt)
    [STEP FN.createAccessToken].

Record ResourceRequest := { rr_type : string; rr_request : string }.

Record CreateAccessTokenParams := {
  pkpPublicKey : option string;
  type : string;
  resources : list ResourceRequest;
  creditsDelegationToken : option AuthSig;
  jsParams : option string;
  code : option string;
  ipfsCid : option string;
  token_outputId : option string
}.

(** The body of [params.resources.map(resource => ...)]. *)
Definition requestAbilityRequest (r : ResourceRequest) : Res ResourceAbilityRequest :=
  if String.eqb (rr_type r) "access-control-condition-signing" then
    Ok {| resource := LitAccessControlConditionResource (rr_request r);
          ability := AccessControlConditionSigning |}
  else if String.eqb (rr_type r) "access-control-condition-decryption" then
    Ok {| resource := LitAccessControlConditionResource (rr_request r);
          ability := AccessControlConditionDecryption |}
  else if String.eqb (rr_type r) "lit-action-execution" then
    Ok {| resource := LitActionResource (rr_request r);
          ability := LitActionExecution |}
  else if String.eqb (rr_type r) "rate-limit-increase-auth" then
    Ok {| resource := LitRLIResource (rr_request r);
          ability := RateLimitIncreaseAuth |}
  else if String.eqb (rr_type r) "pkp-signing" then
    Ok {| resource := LitPKPResource (rr_request r); ability := PKPSigning |}
  else Throw (Error ("Resource type " +:+ rr_type r +:+ " is not supported")).

(** [Array.prototype.map] with a callback that can throw: the first throw
    ends the whole map. *)
Fixpoint map_throwing {A B} (f : A -> Res B) (l : list A) : Res (list B) :=
  match l with
  | [] => Ok []
  | a :: l' =>
      match f a with
      | Throw e => Throw e
      | ThrowNullish v => ThrowNullish v
      | Ok b0 =>
          match map_throwing f l' with
          | Throw e => Throw e
          | ThrowNullish v => ThrowNullish v
          | Ok bs => Ok (b0 :: bs)
          end
      end
  end.

(** [s.slice(n)] *)
Fixpoint slice (n : nat) (str : string) : string :=
  match n, str with
  | O, _ => str
  | S n', String _ str' => slice n' str'
  | S _, EmptyString => EmptyString
  end.

Definition createAccessToken (params : CreateAccessTokenParams) : M unit :=
  if String.eqb (type params) "eoa" || String.eqb (type params) "native_auth" then
    throw (Error "Native auth and EOA are not supported yet")
  else if String.eqb (type params) "custom_auth"
          && negb (truthy (code params)) && negb (truthy (ipfsCid params)) then
    throw (Error "Either code or ipfsCid must be provided")
  else if String.eqb (type params) "custom_auth"
          && truthy (code params) && truthy (ipfsCid params) then
    throw (Error "Only one of code or ipfsCid should be provided, not both")
  else if String.eqb (type params) "custom_auth" && negb (truthy (jsParams params)) then
    throw (Error "jsParams is required")
  else if negb (truthy (pkpPublicKey params)) then
    throw (Error "pkpPublicKey is required")
  else if (length (resources params) =? 0)%nat then
    throw (Error "resources is required")
  else
    let key := default "" (pkpPublicKey params) in
    let _pkpPublicKey := if String.prefix "0x" key then slice 2 key else key in
    requestAbilityRequests ← lift (map_throwing requestAbilityRequest (resources params));
    _run "Create Access Token" FN.createAccessToken
      (if String.eqb (type params) "custom_auth" then
         token ← match creditsDelegationToken params with
                 | Some token => mret token
                 | None => throw (Error "creditsDelegationToken is required")
                 end;
         (if negb (truthy (code params)) && negb (truthy (ipfsCid params))
          then throw (Error "Either code or ipfsCid must be provided")
          else mret tt);;
         b ← get_this;
         env ← ask;
         client ← deref (litNodeClient b) "getLitActionSessionSigs";
         sessionSigs ←
           await (LitNodeClient_getLitActionSessionSigs client _pkpPublicKey
                    requestAbilityRequests
                    (if truthy (code params) && negb (truthy (ipfsCid params))
                     then Some (base64 env (default "" (code params))) else None)
                    (if truthy (code params) && negb (truthy (ipfsCid params))
                     then None else ipfsCid params)
                    (jsParams params)
                    [token]);
         modify_this
           (_setOutput FN.createAccessToken (VSessionSigs sessionSigs)
              (token_outputId params));;
         mret tt
       else throw (Error "Type not supported yet"))
      [STEP FN.executeJs].

(** [scope === 'no_permission' ? 0 : scope === 'sign_anything' ? 1 : 2] *)
Definition scope_code (scope : string) : Z :=
  if String.eqb scope "no_permission" then 0
  else if String.eqb scope "sign_anything" then 1
  else 2.

Record GrantAuthMethodParams := {
  gam_pkpTokenId : string;
  gam_authMethodId : string;
  gam_authMethodType : Z;
  gam_scopes : list string;
  gam_outputId : option string
}.

Definition grantAuthMethodToUsePKP (params : GrantAuthMethodParams) : M unit :=
  let _scopes := map scope_code (gam_scopes params) in
  _run "Grant Auth Method" FN.grantAuthMethodToUsePKP
    (b ← get_this;
     env ← ask;
     contracts ← deref (litContracts b) "addPermittedAuthMethod";
     transactionHash ←
       await (LitContracts_addPermittedAuthMethod contracts
                (gam_pkpTokenId params) (gam_authMethodId params)
                (gam_authMethodType params) _scopes);
     explorerUrl ←
       deref (blockExplorerUrl env (default "undefined" (network b)))
         "blockExplorerUrls";
     let hashOnExplorer := explorerUrl +:+ "tx/" +:+ transactionHash in
     modify_this
       (_setOutput FN.grantAuthMethodToUsePKP
          (VTx {| hash := transactionHash; explorer := hashOnExplorer |})
          (gam_outputId params));;
     mret tt)
    [STEP FN.grantIPFSCIDtoUsePKP].

Record GrantIPFSCIDParams := {
  gic_pkpTokenId : string;
  gic_ipfsCid : string;
  gic_scopes : list string;
  gic_outputId : option string
}.

Definition grantIPFSCIDtoUsePKP (params : GrantIPFSCIDParams) : M unit :=
  let _scopes := map scope_code (gic_scopes params) in
  _run "Grant IPFS CID" FN.grantIPFSCIDtoUsePKP
    (b ← get_this;
     env ← ask;
     contracts ← deref (litContracts b) "addPermittedAction";
     transactionHash ←
       await (LitContracts_addPermittedAction contracts
                (gic_pkpTokenId params) (gic_ipfsCid params) _scopes);
     explorerUrl ←
       deref (blockExplorerUrl env (default "undefined" (network b)))
         "blockExplorerUrls";
     let hashOnExplorer := explorerUrl +:+ "tx/" +:+ transactionHash in
     modify_this
       (_setOutput FN.grantIPFSCIDtoUsePKP
          (VTx {| hash := transactionHash; explorer := hashOnExplorer |})
          (gic_outputId params));;
     mret tt)
    [STEP FN.createAccessToken].

(** [tokens.map(async (tokenId) => ...)]: each callback runs up to its first
    [await], so one [getPubkey] call per token is issued, in order, before
    any of them settles. The outcome of each call is fixed when it is
    issued. *)
Definition issue_getPubkeys (contracts : LitContracts) (tokens : list string)
  : M (list (string * Res string)) := fun env w =>
  let n := length (log w) in
  (Ok (imap (fun i tokenId =>
               (tokenId,
                vendor env (n + i)%nat (PkpPermissions_getPubkey contracts tokenId)
                  : Res string))
         tokens),
   {| this := this w;
      log := log w ++ map (fun tokenId => Issued (PkpPermissions_getPubkey contracts tokenId)) tokens;
      clock := clock w |}).

(** [await Promise.all(...)]: the calls settle in the order they were issued
    and each callback then finishes its body; the first callback that
    rejects rejects the whole, and the calls behind it are still in
    flight. *)
Fixpoint settle_getPubkeys (contracts : LitContracts)
    (pending : list (string * Res string)) : M (list PkpInfo) :=
  match pending with
  | [] => mret []
  | (tokenId, outcome) :: pending' =>
      publicKey ←
        (fun _ w => (outcome, emit (Settled (PkpPermissions_getPubkey contracts tokenId)) w));
      env ← ask;
      ethAddress ← lift (computeAddress env ("0x" +:+ slice 2 publicKey));
      tokenIdHex ← lift (BigNumber_toHexString env tokenId);
      rest ← settle_getPubkeys contracts pending';
      mret ({| pi_tokenId := {| hex := tokenIdHex; decimal := tokenId |};
               pi_publicKey := publicKey;
               pi_ethAddress := ethAddress |} :: rest)
  end.

Definition getPkps : M (list PkpInfo) :=
  _checkRequirements FN.getPkps;;
  _run "Get PKPs" FN.getPkps
    (b ← get_this;
     signerAddress ← match signer b with
                     | Some sg => addr ← await (Signer_getAddress sg); mret (Some addr)
                     | None => mret None
                     end;
     if negb (truthy signerAddress) then throw (Error "Signer address is required")
     else
       contracts ← deref (litContracts b) "pkpNftContractUtils";
       tokens ← await (PkpNft_getTokensByAddress contracts (default "" signerAddress));
       pending ← issue_getPubkeys contracts tokens;
       res ← settle_getPubkeys contracts pending;
       mret res)
    [].

(** ** The public operations, as one type *)

Inductive Operation :=
| ConnectToLitNodeClient (params : option OutputHandler)
| ConnectToLitContracts (params : option OutputHandler)
| MintPKP (params : option MintPKPParams)
| MintCreditsNFT (params : MintCreditsNFTParams)
| CreateCreditsDelegationToken (params : CreateCreditsDelegationTokenParams)
| CreateAccessToken (params : CreateAccessTokenParams)
| GrantAuthMethodToUsePKP (params : GrantAuthMethodParams)
| GrantIPFSCIDtoUsePKP (params : GrantIPFSCIDParams)
| GetPkps.

(** What an operation resolves to: [this], or the list of PKPs. *)
Inductive Returned :=
| ReturnedThis
| ReturnedPkps (pkps : list PkpInfo).

Definition perform (op : Operation) : M Returned :=
  match op with
  | ConnectToLitNodeClient params => connectToLitNodeClient params;; mret ReturnedThis
  | ConnectToLitContracts params => connectToLitContracts params;; mret ReturnedThis
  | MintPKP params => mintPKP params;; mret ReturnedThis
  | MintCreditsNFT params => mintCreditsNFT params;; mret ReturnedThis
  | CreateCreditsDelegationToken params =>
      createCreditsDelegationToken params;; mret ReturnedThis
  | CreateAccessToken params => createAccessToken params;; mret ReturnedThis
  | GrantAuthMethodToUsePKP params => grantAuthMethodToUsePKP params;; mret ReturnedThis
  | GrantIPFSCIDtoUsePKP params => grantIPFSCIDtoUsePKP params;; mret ReturnedThis
  | GetPkps => pkps ← getPkps; mret (ReturnedPkps pkps)
  end.

(** The display name and the step name each operation gives to [_run]. *)
Definition opName (op : Operation) : string :=
  match op with
  | ConnectToLitNodeClient _ => "LitNodeClient connection"
  | ConnectToLitContracts _ => "LitContracts connection"
  | MintPKP _ => "Mint PKP"
  | MintCreditsNFT _ => "Mint Credits Token"
  | CreateCreditsDelegationToken _ => "Create Credits Delegation Token"
  | CreateAccessToken _ => "Create Access Token"
  | GrantAuthMethodToUsePKP _ => "Grant Auth Method"
  | GrantIPFSCIDtoUsePKP _ => "Grant IPFS CID"
  | GetPkps => "Get PKPs"
  end.

Definition fnName (op : Operation) : BulkieSupportedFunctions :=
  match op with
  | ConnectToLitNodeClient _ => FN.connectToLitNodeClient
  | ConnectToLitContracts _ => FN.connectToLitContracts
  | MintPKP _ => FN.mintPKP
  | MintCreditsNFT _ => FN.mintCreditsNFT
  | CreateCreditsDelegationToken _ => FN.createCreditsDelegationToken
  | CreateAccessToken _ => FN.createAccessToken
  | GrantAuthMethodToUsePKP _ => FN.grantAuthMethodToUsePKP
  | GrantIPFSCIDtoUsePKP _ => FN.grantIPFSCIDtoUsePKP
  | GetPkps => FN.getPkps
  end.

(** ** A sample environment and instance, for running the model *)

Definition sample_reply (c : VendorCall) : reply c :=
  match c with
  | LitNodeClient_connect _ | LitContracts_connect _ => tt
  | Signer_getAddress sg => account sg
  | Signer_getBalance _ | Provider_getBalance _ _ => 10
  | Signer_sendTransaction _ _ _ => "0xfeed"
  | Tx_wait txHash => txHash
  | PkpNft_mint _ =>
      {| res_tx_hash := "0xabc"; res_pkp_publicKey := "04aa";
         res_pkp_tokenId := "0x10"; res_pkp_ethAddress := "0xe1" |}
  | PkpNft_getTokensByAddress _ _ => ["16"; "17"]
  | PkpPermissions_getPubkey _ tokenId => "0x04" +:+ tokenId
  | LitContracts_mintCapacityCreditsNFT _ _ _ => "7"
  | LitContracts_addPermittedAuthMethod _ _ _ _ _ => "0xaa01"
  | LitContracts_addPermittedAction _ _ _ _ => "0xaa02"
  | LitNodeClient_createCapacityDelegationAuthSig _ _ sg _ _ =>
      {| sig := "0x51"; derivedVia := "web3.eth.personal.sign";
         signedMessage := "msg"; address := account sg |}
  | LitNodeClient_getLitActionSessionSigs _ _ _ _ _ _ _ => []
  end.

(** Node.js, a clock that advances 5 ms per reading, SDK calls that all
    succeed. *)
Definition sample_env : Env :=
  {| now := fun k => 1000 + 5 * Z.of_nat k;
     vendor := fun _ c => Ok (sample_reply c);
     window := None;
     RPC_URL_BY_NETWORK := fun _ => Some "https://yellowstone-rpc.litprotocol.com";
     blockExplorerUrl := fun _ => Some "https://yellowstone-explorer.litprotocol.com/";
     BigNumber_toString := fun h => Ok h;
     BigNumber_toHexString := fun d => Ok d;
     parseEther := fun a => Ok a;
     computeAddress := fun k => Ok k;
     base64 := fun c => c;
     cannot_read := fun p =>
       "Cannot read properties of undefined (reading '" +:+ p +:+ "')";
     cannot_read_null := fun p =>
       "Cannot read properties of null (reading '" +:+ p +:+ "')" |}.

Definition sample_signer : Signer := {| account := "0xa11ce"; provider := None |}.

Definition sample_bulkie (withSigner : bool) : Bulkie :=
  match constructor sample_env
          {| cp_network := Some "datil"; cp_debug := None; cp_litDebug := None;
             cp_guides := None;
             cp_signer := if withSigner then Some sample_signer else None;
             cp_rpc := None |} with
  | Ok b => b
  | _ =>
      {| debug := false; litDebug := false; guides := false; network := None;
         litNodeClient := None; litContracts := None; signer := None;
         rpc := None; executionTimes := []; outputs := ∅ |}
  end.

Definition start (b : Bulkie) : World := {| this := b; log := []; clock := 0 |}.

(** Run a list of operations one after the other, stopping at the first
    that throws. *)
Fixpoint perform_all (ops : list Operation) : M unit :=
  match ops with
  | [] => mret tt
  | op :: ops' => perform op;; perform_all ops'
  end.

(** * The lit-action build script ([esbuild.config.ts])

    The [onEnd] callback of [wrapIIFEInStringPlugin]: the text of every
    output file goes through four global replacements and is written back
    as a module that exports it as a string. *)

Module Esbuild.

(** A JavaScript string: its UTF-16 code units. *)
Definition jsstring : Type := list N.

(** The code units of an ASCII literal. *)
Fixpoint units (literal : string) : jsstring :=
  match literal with
  | EmptyString => []
  | String c literal' => N_of_ascii c :: units literal'
  end.

(** The double quote, the line feed and the backslash. *)
Definition dquote : N := 34.
Definition newline : N := 10.
Definition backslash : N := 92.

(** *** Regular expressions

    The fragment the build script uses: characters, classes, a class
    repeated one or more times (greedy), and sequences of these. *)
Inductive regex :=
| Eps
| Chr (c : N)
| Class (p : N -> bool)
| Plus (p : N -> bool)
| Seq (r1 r2 : regex).

(** [C*] with backtracking: the longest run first, then shorter ones. *)
Fixpoint greedy (p : N -> bool) (text : jsstring)
    (k : jsstring -> option jsstring) : option jsstring :=
  match text with
  | c :: text' =>
      if p c then
        match greedy p text' k with
        | Some rest => Some rest
        | None => k text
        end
      else k text
  | [] => k text
  end.

(** The backtracking matcher, anchored at the start of [text]: [k] is what
    has to match after [r]; the result is what is left of [text] after the
    first match found. *)
Fixpoint matcher (r : regex) (text : jsstring)
    (k : jsstring -> option jsstring) : option jsstring :=
  match r with
  | Eps => k text
  | Chr c =>
      match text with
      | c' :: text' => if N.eqb c' c then k text' else None
      | [] => None
      end
  | Class p =>
      match text with
      | c' :: text' => if p c' then k text' else None
      | [] => None
      end
  | Plus p =>
      match text with
      | c' :: text' => if p c' then greedy p text' k else None
      | [] => None
      end
  | Seq r1 r2 => matcher r1 text (fun text' => matcher r2 text' k)
  end.

Definition match_at (r : regex) (text : jsstring) : option jsstring :=
  matcher r text Some.

(** [text.replace(/r/g, replacement)] for a replacement without [$]: [skip]
    counts the characters of the current match still to be dropped. After
    an empty match the next character is copied and the search resumes
    behind it. *)
Fixpoint replace_from (r : regex) (replacement : jsstring) (skip : nat)
    (text : jsstring) : jsstring :=
  match text with
  | [] =>
      match skip, match_at r [] with
      | O, Some _ => replacement
      | _, _ => []
      end
  | c :: text' =>
      match skip with
      | S skip' => replace_from r replacement skip' text'
      | O =>
          match match_at r text with
          | Some rest =>
              match (length text - length rest)%nat with
              | O => replacement ++ c :: replace_from r replacement 0 text'
              | S skip' => replacement ++ replace_from r replacement skip' text'
              end
          | None => c :: replace_from r replacement 0 text'
          end
      end
  end.

Definition replace (r : regex) (replacement : jsstring) (text : jsstring) : jsstring :=
  replace_from r replacement 0 text.

(** The regex of a literal. *)
Fixpoint literal (l : jsstring) : regex :=
  match l with
  | [] => Eps
  | c :: l' => Seq (Chr c) (literal l')
  end.

(** The classes of blanks, of word characters and of letters: what the
    regex escapes s and w and the range a-zA-Z stand for. *)
Definition is_space (c : N) : bool :=
  ((9 <=? c) && (c <=? 13) || (c =? 32) || (c =? 160) || (c =? 5760)
   || (8192 <=? c) && (c <=? 8202) || (c =? 8232) || (c =? 8233)
   || (c =? 8239) || (c =? 8287) || (c =? 12288) || (c =? 65279))%N.

Definition is_letter (c : N) : bool :=
  ((97 <=? c) && (c <=? 122) || (65 <=? c) && (c <=? 90))%N.

Definition is_word (c : N) : bool :=
  (is_letter c || (48 <=? c) && (c <=? 57) || (c =? 95))%N.

(** The word ethers between double quotes. *)
Definition quoted_ethers : jsstring := dquote :: units "ethers" ++ [dquote].

(** The text of the first regex: the unminified require of ethers. *)
Definition require_ethers_text : jsstring :=
  units "var import_ethers = __require(" ++ quoted_ethers ++ units ");".

(** The text of the second regex: import_ethers and a dot. *)
Definition import_ethers_dot_text : jsstring := units "import_ethers.".

(** The third regex: var, blanks, word characters, an equals sign, word
    characters, then the quoted ethers between parentheses and a semicolon. *)
Definition minified_require : regex :=
  Seq (literal (units "var"))
    (Seq (Plus is_space)
       (Seq (Plus is_word)
          (Seq (Chr 61)
             (Seq (Plus is_word)
                (literal (units "(" ++ quoted_ethers ++ units ");")))))).

(** The fourth regex: a letter, then a dot and ethers. *)
Definition letter_dot_ethers : regex :=
  Seq (Class is_letter) (literal (units ".ethers")).

(** The four replacements of the plugin, in order. *)
Definition content (text : jsstring) : jsstring :=
  let content := text in
  let content :=
    replace (literal import_ethers_dot_text) []
      (replace (literal require_ethers_text) [] content) in
  let content :=
    replace letter_dot_ethers (units "ethers")
      (replace minified_require [] content) in
  content.

(** *** [JSON.stringify] of a string *)

Definition hex_digit (d : N) : N :=
  (if d <? 10 then 48 + d else 87 + d)%N.

(** The escape of a code unit: backslash, u and four hex digits in lower
    case. *)
Definition unicode_escape (c : N) : jsstring :=
  backslash :: units "u" ++ [hex_digit (c / 4096 mod 16); hex_digit (c / 256 mod 16);
                 hex_digit (c / 16 mod 16); hex_digit (c mod 16)]%N.

Definition is_high_surrogate (c : N) : bool := ((55296 <=? c) && (c <=? 56319))%N.
Definition is_low_surrogate (c : N) : bool := ((56320 <=? c) && (c <=? 57343))%N.

(** The characters between the quotes ([QuoteJSONString]). *)
Fixpoint escaped (text : jsstring) : jsstring :=
  match text with
  | [] => []
  | c :: text' =>
      if (c =? 8)%N then backslash :: units "b" ++ escaped text'
      else if (c =? 9)%N then backslash :: units "t" ++ escaped text'
      else if (c =? 10)%N then backslash :: units "n" ++ escaped text'
      else if (c =? 12)%N then backslash :: units "f" ++ escaped text'
      else if (c =? 13)%N then backslash :: units "r" ++ escaped text'
      else if (c =? 34)%N then backslash :: dquote :: escaped text'
      else if (c =? 92)%N then backslash :: backslash :: escaped text'
      else if (c <? 32)%N then unicode_escape c ++ escaped text'
      else if is_high_surrogate c then
        match text' with
        | c' :: text'' =>
            if is_low_surrogate c' then c :: c' :: escaped text''
            else unicode_escape c ++ escaped text'
        | [] => unicode_escape c
        end
      else if is_low_surrogate c then unicode_escape c ++ escaped text'
      else c :: escaped text'
  end.

(** [JSON.stringify(text, null, 2)]: the indentation does not apply to a
    string. *)
Definition JSON_stringify (text : jsstring) : jsstring :=
  dquote :: escaped text ++ [dquote].

(** *** The file *)

Definition header : jsstring :=
  units "/**" ++ [newline]
  ++ units " * DO NOT EDIT THIS FILE. IT IS GENERATED ON BUILD. RUN `yarn generate-lit-actions` IN THE ROOT DIRECTORY TO UPDATE THIS FILE."
  ++ [newline]
  ++ units " * " ++ [newline]
  ++ units " * @type { string } code - Lit Action code. You want to use the content in the "
  ++ dquote :: units "code" ++ dquote
     :: units " constant and NOT the content of this file."
  ++ [newline]
  ++ units " * " ++ [newline]
  ++ units " */" ++ [newline].

(** What [fs.writeFileSync] is given for an output file with text [text]. *)
Definition wrappedContent (text : jsstring) : jsstring :=
  header ++ units "export const code = " ++ JSON_stringify (content text)
  ++ units ";" ++ [newline].



End Esbuild.

(** * The build configurations ([esbuild.config.ts], lines 9 to 41 and 100 to 111)

    One configuration per entry point: the injected files are read off the
    first documentation comment of the entry point and have to exist. *)

Module Configs.
Import Esbuild.

(** *** Regular expressions with one capture group

    The fragment the two patterns of the configurations use: a literal, an
    optional character, a class repeated (greedy or lazy), a class repeated
    one or more times, sequences, and the capture group. *)
Inductive pattern :=
| PLit (l : jsstring)
| POpt (c : N)
| PStar (p : N -> bool)
| PLazy (p : N -> bool)
| PPlus (p : N -> bool)
| PGroup (r : pattern)
| PSeq (r1 r2 : pattern).

(** The result of a match: what the group captured, if it took part. *)
Definition capture : Type := option jsstring.

(** [text] without its prefix [l]. *)
Fixpoint strip (l text : jsstring) : option jsstring :=
  match l, text with
  | [], _ => Some text
  | c :: l', c' :: text' => if N.eqb c' c then strip l' text' else None
  | _ :: _, [] => None
  end.

(** [C*]: the longest run first, then shorter ones. *)
Fixpoint star (p : N -> bool) (text : jsstring)
    (k : jsstring -> option capture) : option capture :=
  match text with
  | c :: text' =>
      if p c then
        match star p text' k with
        | Some found => Some found
        | None => k text
        end
      else k text
  | [] => k text
  end.

(** [C*?]: the shortest run first, then longer ones. *)
Fixpoint lazy_star (p : N -> bool) (text : jsstring)
    (k : jsstring -> option capture) : option capture :=
  match k text with
  | Some found => Some found
  | None =>
      match text with
      | c :: text' => if p c then lazy_star p text' k else None
      | [] => None
      end
  end.

(** The backtracking matcher, anchored at the start of [text]: [k] is what
    has to match after [r], given what is left and the capture so far. *)
Fixpoint run (r : pattern) (text : jsstring) (cap : capture)
    (k : jsstring -> capture -> option capture) : option capture :=
  match r with
  | PLit l =>
      match strip l text with
      | Some rest => k rest cap
      | None => None
      end
  | POpt c =>
      match text with
      | c' :: text' =>
          if N.eqb c' c then
            match k text' cap with
            | Some found => Some found
            | None => k text cap
            end
          else k text cap
      | [] => k text cap
      end
  | PStar p => star p text (fun rest => k rest cap)
  | PLazy p => lazy_star p text (fun rest => k rest cap)
  | PPlus p =>
      match text with
      | c' :: text' => if p c' then star p text' (fun rest => k rest cap) else None
      | [] => None
      end
  | PGroup r =>
      run r text cap
        (fun rest _ => k rest (Some (take (length text - length rest) text)))
  | PSeq r1 r2 => run r1 text cap (fun rest cap' => run r2 rest cap' k)
  end.

Definition match_here (r : pattern) (text : jsstring) : option capture :=
  run r text None (fun _ cap => Some cap).

(** [text.match(r)] for a pattern without the [g] flag, reduced to its
    group: [None] is [null], and [Some cap] is the entry 1 of the match
    found at the leftmost position that has one. *)
Fixpoint String_match (r : pattern) (text : jsstring) : option capture :=
  match match_here r text with
  | Some cap => Some cap
  | None =>
      match text with
      | [] => None
      | _ :: text' => String_match r text'
      end
  end.

(** [text.includes(needle)] *)
Fixpoint includes (needle text : jsstring) : bool :=
  match strip needle text with
  | Some _ => true
  | None =>
      match text with
      | [] => false
      | _ :: text' => includes needle text'
      end
  end.

(** [text.split(separator)] for a separator of one character. *)
Fixpoint split (separator : N) (text : jsstring) : list jsstring :=
  match text with
  | [] => [[]]
  | c :: text' =>
      if N.eqb c separator then [] :: split separator text'
      else
        match split separator text' with
        | line :: lines => (c :: line) :: lines
        | [] => [[c]]
        end
  end.

(** A string that is neither [null], [undefined] nor empty. *)
Definition truthy_text (text : capture) : bool :=
  match text with
  | Some (_ :: _) => true
  | _ => false
  end.

Definition any (c : N) : bool := true.
Definition not_space (c : N) : bool := negb (is_space c).

(** The first pattern: a slash and two stars, anything (as little as can
    be) in the group, a star and a slash. *)
Definition comment_block_pattern : pattern :=
  PSeq (PLit (units "/**")) (PSeq (PGroup (PLazy any)) (PLit (units "*/"))).

(** The second pattern: inject, an optional colon, blanks, and one or more
    characters that are not blanks in the group. *)
Definition inject_pattern : pattern :=
  PSeq (PLit (units "inject"))
    (PSeq (POpt 58) (PSeq (PStar is_space) (PGroup (PPlus not_space)))).

(** *** The configurations *)

Record Fs := {
  readFileSync : jsstring -> jsstring;
  existsSync : jsstring -> bool
}.

Record Config := {
  entryPoint : jsstring;
  injectedValues : option (list capture)
}.

(** The message of the error for a missing file: a cross mark, then
    [File], the value and [does not exist]. *)
Definition file_missing (injectedValue : jsstring) : jsstring :=
  10060%N :: units " File " ++ injectedValue ++ units " does not exist".

(** The [forEach] over the injected values: the first value that is given
    and does not exist throws. *)
Fixpoint check_files (fs : Fs) (values : list capture) : option jsstring :=
  match values with
  | [] => None
  | injectedValue :: values' =>
      if truthy_text injectedValue && negb (existsSync fs (default [] injectedValue))
      then Some (file_missing (default [] injectedValue))
      else check_files fs values'
  end.

(** The callback of [ENTRY_POINTS.map]: a configuration, or the message of
    the error thrown. *)
Definition config (fs : Fs) (entry : jsstring) : Config + jsstring :=
  let content := readFileSync fs entry in
  let commentBlock := String_match comment_block_pattern content ≫= id in
  if negb (truthy_text commentBlock)
  then inl {| entryPoint := entry; injectedValues := None |}
  else
    let injectLines :=
      List.filter (includes (units "inject")) (split newline (default [] commentBlock)) in
    let injectedValues :=
      map (fun line =>
             match String_match inject_pattern line with
             | Some found => found
             | None => None
             end)
        injectLines in
    match check_files fs injectedValues with
    | Some message => inr message
    | None =>
        inl {| entryPoint := entry;
               injectedValues :=
                 if (0 <? length injectedValues)%nat then Some injectedValues else None |}
    end.



End Configs.

(** * Properties *)

(** ** Reasoning tools *)

Ltac unfold_M :=
  unfold mbind, M_bind, mret, M_ret, throw, try_catch, message_of, lift, ask,
    get_this, modify_this, Date_now, await, deref, emit in *.

Ltac unfold_checks :=
  unfold _run, _checkRequirements, require_network, require_litNodeClient,
    require_litContracts, require_signer in *.

(** Split every [match] of a computation that has been unfolded. *)
Ltac run_all := repeat (case_match; simplify_eq/=).

(** A relation between the world before and the world after that holds
    across every primitive holds across whole computations. *)
Section Frame.
Context (R : relation World) `{!PreOrder R}.

Definition framed {A} (m : M A) : Prop := forall env w, R w (m env w).2.

Lemma framed_ret {A} (a : A) : framed (mret a).
Proof. intros env w. reflexivity. Qed.

Lemma framed_throw {A} (e : JsError) : framed (@throw A e).
Proof. intros env w. reflexivity. Qed.

Lemma framed_lift {A} (r : Res A) : framed (lift r).
Proof. intros env w. reflexivity. Qed.

Lemma framed_ask : framed ask.
Proof. intros env w. reflexivity. Qed.

Lemma framed_get_this : framed get_this.
Proof. intros env w. reflexivity. Qed.

Lemma framed_deref {A} (o : option A) p : framed (deref o p).
Proof. intros env w. destruct o; reflexivity. Qed.

Lemma framed_bind {A B} (m : M A) (k : A -> M B) :
  framed m -> (forall a, framed (k a)) -> framed (m ≫= k).
Proof.
  intros Hm Hk env w. specialize (Hm env w).
  unfold mbind, M_bind. destruct (m env w) as [[a|e|v] w1]; simpl in *; [|done..].
  etransitivity; [exact Hm | apply Hk].
Qed.

Lemma framed_message_of (e : Thrown) : framed (message_of e).
Proof. intros env w. destruct e; reflexivity. Qed.

Lemma framed_try_catch {A} (m : M A) (h : Thrown -> M A) :
  framed m -> (forall e, framed (h e)) -> framed (try_catch m h).
Proof.
  intros Hm Hh env w. specialize (Hm env w).
  unfold try_catch. destruct (m env w) as [[a|e|v] w1]; simpl in *; [done| |];
    (etransitivity; [exact Hm | apply Hh]).
Qed.

Lemma framed_checkRequirements fn : framed (_checkRequirements fn).
Proof.
  intros env w. destruct w as [b lg ck].
  destruct fn; unfold_checks; unfold_M; simpl; run_all; reflexivity.
Qed.
End Frame.

Ltac framed_step :=
  lazymatch goal with
  | |- framed _ (mbind _ _) => apply framed_bind; [typeclasses eauto | | intros ?]
  | |- framed _ (mret _) => apply framed_ret; typeclasses eauto
  | |- framed _ (throw _) => apply framed_throw; typeclasses eauto
  | |- framed _ (message_of _) => apply framed_message_of; typeclasses eauto
  | |- framed _ (lift _) => apply framed_lift; typeclasses eauto
  | |- framed _ ask => apply framed_ask; typeclasses eauto
  | |- framed _ get_this => apply framed_get_this; typeclasses eauto
  | |- framed _ (deref _ _) => apply framed_deref; typeclasses eauto
  | |- framed _ (_checkRequirements _) =>
      apply framed_checkRequirements; typeclasses eauto
  | |- framed _ (try_catch _ _) =>
      apply framed_try_catch; [typeclasses eauto | | intros ?]
  | |- framed _ (match ?x with _ => _ end) => destruct x
  | |- framed _ (let _ := _ in _) => cbv zeta
  end.

(** ** The output cache *)

(** The part of a key before its first colon. *)
Fixpoint before_colon (key : string) : string :=
  match key with
  | EmptyString => EmptyString
  | String c key' =>
      if Ascii.eqb c ":"%char then EmptyString else String c (before_colon key')
  end.

Lemma before_colon_output_key fn oid :
  before_colon (output_key fn oid) = FN.name fn.
Proof. unfold output_key. destruct (truthy oid), fn; reflexivity. Qed.

Lemma FN_name_inj fn fn' : FN.name fn = FN.name fn' -> fn = fn'.
Proof. destruct fn, fn'; simpl; intros H; (reflexivity || discriminate H). Qed.

(** Keys of different steps never meet, whatever the output ids. *)
Lemma output_key_separates fn fn' oid oid' :
  fn <> fn' -> output_key fn oid <> output_key fn' oid'.
Proof.
  intros Hne Heq. apply Hne, FN_name_inj.
  rewrite <- (before_colon_output_key fn oid), <- (before_colon_output_key fn' oid').
  by rewrite Heq.
Qed.

Lemma output_key_falsy fn oid : truthy oid = false -> output_key fn oid = FN.name fn.
Proof. unfold output_key. by intros ->. Qed.

Lemma output_key_truthy fn oid :
  truthy oid = true -> output_key fn oid <> output_key fn None.
Proof.
  unfold output_key. intros ->. simpl. destruct fn; simpl; discriminate.
Qed.

Lemma getOutput_setOutput_same fn v oid b :
  getOutput (_setOutput fn v oid b) fn oid = Some v.
Proof. unfold getOutput, _setOutput. simpl. apply lookup_insert_eq. Qed.

Lemma getOutput_setOutput_other fn fn' v oid oid' b :
  output_key fn oid <> output_key fn' oid' ->
  getOutput (_setOutput fn v oid b) fn' oid' = getOutput b fn' oid'.
Proof. intros Hne. unfold getOutput, _setOutput. simpl. by apply lookup_insert_ne. Qed.

(** An operation leaves the entries of the other steps alone. *)
Definition keeps_other_outputs (fn : BulkieSupportedFunctions) : relation World :=
  fun w w' => forall fn' oid', fn' <> fn ->
    getOutput (this w') fn' oid' = getOutput (this w) fn' oid'.

#[global] Instance keeps_other_outputs_preorder fn : PreOrder (keeps_other_outputs fn).
Proof.
  split.
  - intros w fn' oid' _. reflexivity.
  - intros w1 w2 w3 H12 H23 fn' oid' Hne. rewrite H23, H12; done.
Qed.

(** Relations that do not look at the log hold across SDK calls. *)
Class LogInsensitive (R : relation World) : Prop :=
  log_insensitive : forall w evs,
    R w {| this := this w; log := log w ++ evs; clock := clock w |}.

Section FrameCalls.
Context (R : relation World) `{!PreOrder R} `{!LogInsensitive R}.

Lemma related_emit w ev : R w (emit ev w).
Proof. apply log_insensitive. Qed.

Lemma framed_await c : framed R (await c).
Proof.
  intros env w. simpl. etransitivity; [apply (related_emit w (Issued c))|].
  apply related_emit.
Qed.

Lemma framed_issue_getPubkeys contracts tokens :
  framed R (issue_getPubkeys contracts tokens).
Proof. intros env w. apply log_insensitive. Qed.

Lemma framed_settle_getPubkeys contracts pending :
  framed R (settle_getPubkeys contracts pending).
Proof.
  induction pending as [|[tokenId outcome] pending IH]; simpl.
  - by apply framed_ret.
  - apply framed_bind; [done| |intros publicKey].
    { intros env w. apply related_emit. }
    apply framed_bind; [done|by apply framed_ask|intros env].
    apply framed_bind; [done|by apply framed_lift|intros ethAddress].
    apply framed_bind; [done|by apply framed_lift|intros tokenIdHex].
    apply framed_bind; [done|exact IH|intros rest].
    by apply framed_ret.
Qed.
End FrameCalls.

Ltac framed_call_step :=
  lazymatch goal with
  | |- framed _ (await _) => apply framed_await; typeclasses eauto
  | |- framed _ (issue_getPubkeys _ _) => apply framed_issue_getPubkeys; typeclasses eauto
  | |- framed _ (settle_getPubkeys _ _) => apply framed_settle_getPubkeys; typeclasses eauto
  | |- _ => framed_step
  end.

#[global] Instance keeps_other_outputs_log fn : LogInsensitive (keeps_other_outputs fn).
Proof. intros w evs fn' oid' _. reflexivity. Qed.

Lemma perform_keeps_other_outputs op :
  framed (keeps_other_outputs (fnName op)) (perform op).
Proof.
  destruct op; simpl;
    unfold connectToLitNodeClient, connectToLitContracts, mintPKP, mintCreditsNFT,
      createCreditsDelegationToken, createAccessToken, grantAuthMethodToUsePKP,
      grantIPFSCIDtoUsePKP, getPkps, _run;
    repeat framed_call_step;
    intros env w fn' oid' Hne; simpl;
    try reflexivity;
    apply getOutput_setOutput_other, output_key_separates; congruence.
Qed.

(** C2: the cache keeps the last output of each step. After a store of [v]
    for [fn] with no output id (or an empty one), [getOutput fn] returns [v];
    a later store of [v2] replaces it, and nothing of the first store is left
    in the map; a store for [fn] leaves the entries of every other function
    name as they were, and so does every operation for the names other than
    its own. *)
Theorem output_cache_keeps_last_per_step :
  forall (b : Bulkie) (fn : BulkieSupportedFunctions) (v v2 : Value),
    getOutput (_setOutput fn v None b) fn None = Some v
    /\ getOutput (_setOutput fn v (Some "") b) fn None = Some v
    /\ getOutput (_setOutput fn v2 None (_setOutput fn v None b)) fn None = Some v2
    /\ _setOutput fn v2 None (_setOutput fn v None b) = _setOutput fn v2 None b
    /\ (forall fn' oid oid', fn' <> fn ->
          getOutput (_setOutput fn v oid b) fn' oid' = getOutput b fn' oid')
    /\ (forall op env w fn' oid', fn' <> fnName op ->
          getOutput (this (perform op env w).2) fn' oid' = getOutput (this w) fn' oid').
Proof.
  intros b fn v v2. repeat split.
  - apply getOutput_setOutput_same.
  - apply (getOutput_setOutput_same fn v (Some "")).
  - apply getOutput_setOutput_same.
  - unfold _setOutput, set_outputs. simpl. by rewrite insert_insert_eq.
  - intros fn' oid oid' Hne.
    apply getOutput_setOutput_other, output_key_separates. congruence.
  - intros op env w fn' oid' Hne. by apply perform_keeps_other_outputs.
Qed.

(** A world in which [connectToLitNodeClient] and [connectToLitContracts]
    have run, with or without a signer. *)
Definition connected_world (withSigner : bool) : World :=
  (perform_all [ConnectToLitNodeClient None; ConnectToLitContracts None]
     sample_env (start (sample_bulkie withSigner))).2.

(** A world in which only [connectToLitContracts] has run. *)
Definition contracts_world (withSigner : bool) : World :=
  (perform (ConnectToLitContracts None) sample_env
     (start (sample_bulkie withSigner))).2.

Lemma output_cache_keeps_last_per_step_witness :
  getOutput
    (this (perform (MintPKP None) sample_env (connected_world true)).2)
    FN.connectToLitContracts None
  = getOutput (this (connected_world true)) FN.connectToLitContracts None.
Proof.
  destruct (output_cache_keeps_last_per_step (this (connected_world true))
              FN.mintPKP (VString "a") (VString "b"))
    as (_ & _ & _ & _ & _ & Hops).
  apply (Hops (MintPKP None)). discriminate.
Defined.

(** The output id an operation was given. *)
Definition outputId_of (op : Operation) : option string :=
  match op with
  | ConnectToLitNodeClient params => params ≫= outputId
  | ConnectToLitContracts params => params ≫= outputId
  | MintPKP params => params ≫= mint_outputId
  | MintCreditsNFT params => credits_outputId params
  | CreateCreditsDelegationToken params => delegation_outputId params
  | CreateAccessToken params => token_outputId params
  | GrantAuthMethodToUsePKP params => gam_outputId params
  | GrantIPFSCIDtoUsePKP params => gic_outputId params
  | GetPkps => None
  end.

(** C3 as stated: whatever the parameters of a run, its output is found
    under the bare step name afterwards. *)
Definition stored_under_step_name (op : Operation) (env : Env) (w : World) : Prop :=
  forall r w', perform op env w = (Ok r, w') ->
    exists v, outputs (this w') = <[output_key (fnName op) (outputId_of op) := v]> (outputs (this w))
              /\ getOutput (this w') (fnName op) None = Some v.

(** A successful run of a storing operation writes the cache once, under the
    key made of its step name and its output id. *)
Lemma perform_writes_once op env w r w' :
  op <> GetPkps ->
  perform op env w = (Ok r, w') ->
  exists v, outputs (this w')
            = <[output_key (fnName op) (outputId_of op) := v]> (outputs (this w)).
Proof.
  intros Hop. destruct w as [b lg ck].
  destruct op; try done; simpl;
    unfold connectToLitNodeClient, connectToLitContracts, mintPKP, mintCreditsNFT,
      createCreditsDelegationToken, createAccessToken, grantAuthMethodToUsePKP,
      grantIPFSCIDtoUsePKP;
    unfold_checks; unfold_M; simpl; intros H;
    run_all; eexists; reflexivity.
Qed.

Lemma run_eq {A} (m : M A) env w r : (m env w).1 = r -> m env w = (r, (m env w).2).
Proof. intros <-. by destruct (m env w). Qed.

(** [mintCreditsNFT({ requestsPerKilosecond: 200,
    daysUntilUTCMidnightExpiration: 2, outputId: 'a' })] *)
Definition mint_credits_as_a : Operation :=
  MintCreditsNFT {| requestsPerKilosecond := 200;
                    daysUntilUTCMidnightExpiration := 2;
                    credits_outputId := Some "a" |}.

(** The claim of C3 fails with an output id: [mintCreditsNFT] given
    [outputId: 'a'] succeeds and stores the token id under
    ['mintCreditsNFT:a']; [getOutput('mintCreditsNFT')] is still
    [undefined]. *)
Lemma stored_under_step_name_fails_with_outputId :
  let op := mint_credits_as_a in
  let run := perform op sample_env (contracts_world true) in
  run.1 = Ok ReturnedThis
  /\ getOutput (this run.2) FN.mintCreditsNFT (Some "a") = Some (VString "7")
  /\ getOutput (this run.2) FN.mintCreditsNFT None = None
  /\ ~ stored_under_step_name op sample_env (contracts_world true).
Proof.
  cbv zeta.
  assert (Hok : (perform mint_credits_as_a
                   sample_env (contracts_world true)).1 = Ok ReturnedThis)
    by (vm_compute; reflexivity).
  assert (Hnone : getOutput
                    (this (perform mint_credits_as_a
                             sample_env (contracts_world true)).2)
                    FN.mintCreditsNFT None = None)
    by (vm_compute; reflexivity).
  split; [exact Hok|]. split; [vm_compute; reflexivity|]. split; [exact Hnone|].
  intros H.
  destruct (H ReturnedThis _ (run_eq _ _ _ _ Hok)) as (v & _ & Hv).
  simpl fnName in Hv. rewrite Hnone in Hv. discriminate Hv.
Qed.

(** C3, amended: a successful run of a storing operation puts its output
    under the key made of the step name and the output id of the run.
    [getOutput] with the same output id returns it; with no (or an empty)
    output id the key is the bare step name; with an output id, what
    [getOutput(fn)] returns is what it returned before the run. *)
Theorem output_stored_under_step_name_and_id :
  forall op env w r w',
    op <> GetPkps ->
    perform op env w = (Ok r, w') ->
    exists v,
      outputs (this w')
        = <[output_key (fnName op) (outputId_of op) := v]> (outputs (this w))
      /\ getOutput (this w') (fnName op) (outputId_of op) = Some v
      /\ (truthy (outputId_of op) = false ->
            getOutput (this w') (fnName op) None = Some v)
      /\ (truthy (outputId_of op) = true ->
            getOutput (this w') (fnName op) None = getOutput (this w) (fnName op) None).
Proof.
  intros op env w r w' Hop Hrun.
  destruct (perform_writes_once op env w r w' Hop Hrun) as [v Hv].
  exists v. unfold getOutput. rewrite Hv. repeat split.
  - apply lookup_insert_eq.
  - intros Hfalsy. rewrite (output_key_falsy _ _ Hfalsy). apply lookup_insert_eq.
  - intros Htruthy. apply lookup_insert_ne. by apply output_key_truthy.
Qed.

Lemma output_stored_under_step_name_and_id_witness :
  exists v,
    getOutput
      (this (perform mint_credits_as_a
               sample_env (contracts_world true)).2)
      FN.mintCreditsNFT (Some "a") = Some v.
Proof.
  assert (Hok : (perform mint_credits_as_a
                   sample_env (contracts_world true)).1 = Ok ReturnedThis)
    by (vm_compute; reflexivity).
  destruct (output_stored_under_step_name_and_id mint_credits_as_a _ _ _ _
              ltac:(discriminate) (run_eq _ _ _ _ Hok))
    as (v & _ & Hv & _).
  exists v. exact Hv.
Defined.

(** ** Execution times *)

(** Relations on worlds that do not involve durations or the clock. *)
Definition same_times : relation World := fun w w' =>
  executionTimes (this w') = executionTimes (this w) /\ clock w' = clock w.

#[global] Instance same_times_preorder : PreOrder same_times.
Proof.
  split.
  - intros w. split; reflexivity.
  - intros w1 w2 w3 [H1 H2] [H3 H4]. split; congruence.
Qed.

#[global] Instance same_times_log : LogInsensitive same_times.
Proof. intros w evs. split; reflexivity. Qed.

(** The requirement check reads the instance and changes nothing. *)
Lemma checkRequirements_pure fn env w : (_checkRequirements fn env w).2 = w.
Proof.
  destruct w as [b lg ck].
  destruct fn; unfold_checks; unfold_M; simpl; run_all; reflexivity.
Qed.

(** What it throws is an error object. *)
Lemma checkRequirements_throws_error fn env w v :
  (_checkRequirements fn env w).1 <> ThrowNullish v.
Proof.
  destruct w as [b lg ck].
  destruct fn; unfold_checks; unfold_M; simpl; run_all; done.
Qed.

Lemma then_ret {A B} (m : M A) (x : B) env w :
  (m;; mret x) env w
  = (match (m env w).1 with
     | Ok _ => Ok x
     | Throw e => Throw e
     | ThrowNullish v => ThrowNullish v
     end, (m env w).2).
Proof. unfold mbind, M_bind. by destruct (m env w) as [[a|e|v] w1]. Qed.

Definition tick (w : World) : World :=
  {| this := this w; log := log w; clock := S (clock w) |}.

(** What [_run] does around its action. *)
Lemma run_unfold {T} name fn (action : M T) steps env w :
  _run name fn action steps env w =
  match (_checkRequirements fn env (tick w)).1 with
  | Throw cause =>
      (Throw (Error ("Error in " +:+ name +:+ ": " +:+ message cause)), tick w)
  | ThrowNullish v =>
      (Throw (TypeError (cannot_read_of env v "message")), tick w)
  | Ok _ =>
      match action env (tick w) with
      | (Throw cause, w1) =>
          (Throw (Error ("Error in " +:+ name +:+ ": " +:+ message cause)), w1)
      | (ThrowNullish v, w1) =>
          (Throw (TypeError (cannot_read_of env v "message")), w1)
      | (Ok result, w1) =>
          (Ok result,
           {| this := set_executionTimes
                        (executionTimes (this w1)
                         ++ [now env (clock w1) - now env (clock w)]) (this w1);
              log := log w1; clock := S (clock w1) |})
      end
  end.
Proof.
  pose proof (checkRequirements_pure fn env (tick w)) as Hpure.
  unfold _run. unfold mbind at 1. unfold M_bind, Date_now, try_catch.
  fold (tick w). unfold mbind at 1. unfold M_bind.
  destruct (_checkRequirements fn env (tick w)) as [[[]|cause|v] w0];
    simpl in Hpure; subst w0; simpl; [|reflexivity..].
  unfold mbind, M_bind. destruct (action env (tick w)) as [[result|cause|v] w1];
    reflexivity.
Qed.

Definition duration_of (env : Env) (w : World) : Z :=
  now env (S (clock w)) - now env (clock w).

Lemma run_records_duration {T} name fn (action : M T) steps env w :
  framed same_times action ->
  match (_run name fn action steps env w).1 with
  | Ok _ =>
      executionTimes (this (_run name fn action steps env w).2)
      = executionTimes (this w) ++ [duration_of env w]
  | _ =>
      executionTimes (this (_run name fn action steps env w).2)
      = executionTimes (this w)
  end.
Proof.
  intros Haction. rewrite run_unfold.
  destruct (_checkRequirements fn env (tick w)).1; [|reflexivity..].
  specialize (Haction env (tick w)).
  destruct (action env (tick w)) as [[result|cause|v] w1];
    destruct Haction as [Htimes Hclock]; simpl in *.
  - unfold duration_of. by rewrite Htimes, Hclock.
  - exact Htimes.
  - exact Htimes.
Qed.

Ltac unfold_operations :=
  unfold connectToLitNodeClient, connectToLitContracts, mintPKP, mintCreditsNFT,
    createCreditsDelegationToken, createAccessToken, grantAuthMethodToUsePKP,
    grantIPFSCIDtoUsePKP, getPkps.

(** ** Sequential SDK calls *)

(** A stretch of log in which every call settles before the next is
    issued. *)
Inductive sequential : list Event -> Prop :=
| sequential_nil : sequential []
| sequential_call c tr : sequential tr -> sequential (Issued c :: Settled c :: tr).

Lemma sequential_app tr1 tr2 :
  sequential tr1 -> sequential tr2 -> sequential (tr1 ++ tr2).
Proof. induction 1; simpl; [done|]. intros. constructor. auto. Qed.

Definition grows_sequentially : relation World := fun w w' =>
  exists tr, log w' = log w ++ tr /\ sequential tr.

#[global] Instance grows_sequentially_preorder : PreOrder grows_sequentially.
Proof.
  split.
  - intros w. exists []. split; [by rewrite app_nil_r | constructor].
  - intros w1 w2 w3 (tr1 & H1 & Hs1) (tr2 & H2 & Hs2).
    exists (tr1 ++ tr2). split; [|by apply sequential_app].
    rewrite H2, H1. by rewrite app_assoc.
Qed.

Lemma framed_sequential_await c : framed grows_sequentially (await c).
Proof.
  intros env w. exists [Issued c; Settled c]. simpl. split.
  - by rewrite <- app_assoc.
  - repeat constructor.
Qed.

Ltac framed_sequential :=
  repeat lazymatch goal with
    | |- framed _ (await _) => apply framed_sequential_await
    | |- _ => framed_step
    end;
  (intros ? ?; exists (@nil Event); simpl; split;
     [by rewrite app_nil_r | apply sequential_nil]).

Ltac framed_same_times :=
  repeat framed_call_step; intros ? ?; split; reflexivity.

(** ** The shape of every operation

    Each operation first validates its arguments, which may throw at once,
    and then hands an action to [_run]. *)

(** The errors of the argument checks. *)
Inductive rejected_arguments : Operation -> JsError -> Prop :=
| mintCreditsNFT_requires_numbers params :
    rejected_arguments (MintCreditsNFT params)
      (Error "requestsPerKilosecond and daysUntilUTCMidnightExpiration are required")
| createAccessToken_rejects params msg :
    In msg ["Native auth and EOA are not supported yet";
            "Either code or ipfsCid must be provided";
            "Only one of code or ipfsCid should be provided, not both";
            "jsParams is required";
            "pkpPublicKey is required";
            "resources is required"] ->
    rejected_arguments (CreateAccessToken params) (Error msg)
| createAccessToken_rejects_resource params r :
    In r (resources params) ->
    rejected_arguments (CreateAccessToken params)
      (Error ("Resource type " +:+ rr_type r +:+ " is not supported")).

(** What can be thrown before [_run] is entered: the error of an argument
    check, or that of the requirement check [getPkps] makes on its own. *)
Definition raised_before_run (op : Operation) (env : Env) (w : World) (e : JsError)
  : Prop :=
  rejected_arguments op e
  \/ (op = GetPkps /\ _checkRequirements FN.getPkps env w = (Throw e, w)).

(** What holds of the action of every operation. *)
Record action_ok (op : Operation) {T} (action : M T) : Prop := {
  action_same_times : framed same_times action;
  action_sequential : op <> GetPkps -> framed grows_sequentially action
}.

Definition returned {T} (ret : T -> Returned) (r : Res T * World) : Res Returned * World :=
  (match r.1 with
   | Ok a => Ok (ret a)
   | Throw e => Throw e
   | ThrowNullish v => ThrowNullish v
   end, r.2).

Lemma requestAbilityRequest_throws_error r v :
  requestAbilityRequest r <> ThrowNullish v.
Proof. unfold requestAbilityRequest. by repeat case_match. Qed.

Lemma map_throwing_throws_error l v :
  map_throwing requestAbilityRequest l <> ThrowNullish v.
Proof.
  induction l as [|r l IH]; simpl; [done|].
  pose proof (requestAbilityRequest_throws_error r) as Hr.
  destruct (requestAbilityRequest r) as [x|e|v']; [|done|by destruct (Hr v')].
  by destruct (map_throwing requestAbilityRequest l).
Qed.

Lemma map_throwing_requestAbilityRequest l e :
  map_throwing requestAbilityRequest l = Throw e ->
  exists r, In r l /\ e = Error ("Resource type " +:+ rr_type r +:+ " is not supported").
Proof.
  induction l as [|r l IH]; simpl; [discriminate|].
  destruct (requestAbilityRequest r) as [x|e'|v] eqn:Hr.
  - destruct (map_throwing requestAbilityRequest l); [discriminate| |discriminate].
    intros [= ->]. destruct IH as (r' & Hin & ->); [done|]. eauto.
  - intros [= ->]. exists r. split; [by left|].
    unfold requestAbilityRequest in Hr. run_all. reflexivity.
  - discriminate.
Qed.

Lemma bind_unfold {A B} (m : M A) (k : A -> M B) env w :
  (m ≫= k) env w
  = match m env w with
    | (Ok a, w') => k a env w'
    | (Throw e, w') => (Throw e, w')
    | (ThrowNullish v, w') => (ThrowNullish v, w')
    end.
Proof. reflexivity. Qed.

Lemma returned_bind {T} (m : M T) (ret : T -> Returned) env w :
  (m ≫= fun a => mret (ret a)) env w = returned ret (m env w).
Proof. rewrite bind_unfold. unfold returned. by destruct (m env w) as [[a|e|v] w1]. Qed.

Lemma perform_shape op env w :
  (exists e, perform op env w = (Throw e, w) /\ raised_before_run op env w e)
  \/ (exists T (action : M T) steps (ret : T -> Returned),
        perform op env w
        = returned ret (_run (opName op) (fnName op) action steps env w)
        /\ action_ok op action).
Proof.
  destruct op; simpl; unfold_operations.
  - right. eexists _, _, _, (fun _ => ReturnedThis). rewrite then_ret. split; [reflexivity|].
    split; [framed_same_times | intros _; framed_sequential].
  - right. eexists _, _, _, (fun _ => ReturnedThis). rewrite then_ret. split; [reflexivity|].
    split; [framed_same_times | intros _; framed_sequential].
  - right. eexists _, _, _, (fun _ => ReturnedThis). rewrite then_ret. split; [reflexivity|].
    split; [framed_same_times | intros _; framed_sequential].
  - rewrite then_ret.
    destruct ((requestsPerKilosecond params =? 0)
              || (daysUntilUTCMidnightExpiration params =? 0)).
    + left. eexists. split; [reflexivity|]. left. constructor.
    + right. eexists _, _, _, (fun _ => ReturnedThis). split; [reflexivity|].
      split; [framed_same_times | intros _; framed_sequential].
  - right. eexists _, _, _, (fun _ => ReturnedThis). rewrite then_ret. split; [reflexivity|].
    split; [framed_same_times | intros _; framed_sequential].
  - rewrite then_ret.
    destruct (String.eqb (type params) "eoa" || String.eqb (type params) "native_auth").
    { left. eexists. split; [reflexivity|]. left. constructor. simpl. tauto. }
    destruct (String.eqb (type params) "custom_auth" && negb (truthy (code params))
              && negb (truthy (ipfsCid params))).
    { left. eexists. split; [reflexivity|]. left. constructor. simpl. tauto. }
    destruct (String.eqb (type params) "custom_auth" && truthy (code params)
              && truthy (ipfsCid params)).
    { left. eexists. split; [reflexivity|]. left. constructor. simpl. tauto. }
    destruct (String.eqb (type params) "custom_auth" && negb (truthy (jsParams params))).
    { left. eexists. split; [reflexivity|]. left. constructor. simpl. tauto. }
    destruct (negb (truthy (pkpPublicKey params))).
    { left. eexists. split; [reflexivity|]. left. constructor. simpl. tauto. }
    destruct (length (resources params) =? 0)%nat.
    { left. eexists. split; [reflexivity|]. left. constructor. simpl. tauto. }
    unfold mbind at 1 3. unfold M_bind at 1 3. unfold lift.
    destruct (map_throwing requestAbilityRequest (resources params)) as [reqs|e|v] eqn:Hmap.
    + right. eexists _, _, _, (fun _ => ReturnedThis). split; [reflexivity|].
      split; [framed_same_times | intros _; framed_sequential].
    + left. exists e. split; [reflexivity|].
      apply map_throwing_requestAbilityRequest in Hmap as (r & Hin & ->).
      left. by constructor.
    + by apply map_throwing_throws_error in Hmap.
  - right. eexists _, _, _, (fun _ => ReturnedThis). rewrite then_ret. split; [reflexivity|].
    split; [framed_same_times | intros _; framed_sequential].
  - right. eexists _, _, _, (fun _ => ReturnedThis). rewrite then_ret. split; [reflexivity|].
    split; [framed_same_times | intros _; framed_sequential].
  - rewrite returned_bind. rewrite bind_unfold.
    pose proof (checkRequirements_pure FN.getPkps env w) as Hpure.
    pose proof (checkRequirements_throws_error FN.getPkps env w) as Herror.
    destruct (_checkRequirements FN.getPkps env w) as [[[]|cause|v] w0] eqn:Hcheck;
      simpl in Hpure; subst w0.
    + right. eexists _, _, _, ReturnedPkps. split; [reflexivity|].
      split; [framed_same_times | done].
    + left. exists cause. split; [reflexivity|]. by right.
    + by destruct (Herror v).
Qed.

Lemma perform_records_duration op env w :
  match (perform op env w).1 with
  | Ok _ =>
      executionTimes (this (perform op env w).2)
      = executionTimes (this w) ++ [duration_of env w]
  | _ =>
      executionTimes (this (perform op env w).2) = executionTimes (this w)
  end.
Proof.
  destruct (perform_shape op env w)
    as [(e & -> & _) | (T & action & steps & ret & -> & Hok)]; [reflexivity|].
  unfold returned. simpl.
  pose proof (run_records_duration (opName op) (fnName op) action steps env w
                (action_same_times _ _ Hok)) as H.
  by destruct (_run (opName op) (fnName op) action steps env w).1.
Qed.

(** The sum of a list of durations. *)
Definition sum_of (durations : list Z) : Z := foldr Z.add 0 durations.

Lemma fold_left_add_from (l : list Z) (acc : Z) :
  fold_left (fun a b => a + b) l acc = acc + sum_of l.
Proof.
  revert acc. induction l as [|d l IH]; intros acc; simpl.
  - lia.
  - rewrite IH. unfold sum_of. simpl. lia.
Qed.

Lemma sum_of_app l1 l2 : sum_of (l1 ++ l2) = sum_of l1 + sum_of l2.
Proof. unfold sum_of. induction l1 as [|d l1 IH]; simpl; lia. Qed.

Lemma getTotalExecutionTime_ms b : ms (getTotalExecutionTime b) = sum_of (executionTimes b).
Proof. unfold getTotalExecutionTime. simpl. rewrite fold_left_add_from. lia. Qed.

(** C4: an operation that completes pushes the difference between the clock
    reading taken when [_run] starts and the one taken when its action is
    done; an operation that throws pushes nothing. [getTotalExecutionTime]
    returns the sum of what has been pushed as [ms], so a completed
    operation adds its duration to it and a failed one leaves it as it
    was, and [ms / 1000] as [s]. And [_run] does complete: whenever the
    requirement check passes and the action returns, it returns what the
    action returned, with that one duration pushed behind what was
    recorded. *)
Theorem durations_recorded_and_totalled :
  forall (op : Operation) (env : Env) (w : World),
    let after := this (perform op env w).2 in
    match (perform op env w).1 with
    | Ok _ =>
        executionTimes after = executionTimes (this w) ++ [duration_of env w]
        /\ ms (getTotalExecutionTime after)
           = ms (getTotalExecutionTime (this w)) + duration_of env w
    | _ =>
        executionTimes after = executionTimes (this w)
        /\ ms (getTotalExecutionTime after) = ms (getTotalExecutionTime (this w))
    end
    /\ ms (getTotalExecutionTime after) = sum_of (executionTimes after)
    /\ (s (getTotalExecutionTime after)
        == inject_Z (ms (getTotalExecutionTime after)) / inject_Z 1000)%Q
    /\ (forall T name fn (action : M T) steps result w1,
          (_checkRequirements fn env (tick w)).1 = Ok tt ->
          action env (tick w) = (Ok result, w1) ->
          let completed := _run name fn action steps env w in
          let duration := now env (clock w1) - now env (clock w) in
          completed.1 = Ok result
          /\ executionTimes (this completed.2) = executionTimes (this w1) ++ [duration]
          /\ ms (getTotalExecutionTime (this completed.2))
             = ms (getTotalExecutionTime (this w1)) + duration).
Proof.
  intros op env w after. subst after.
  pose proof (perform_records_duration op env w) as H.
  split; [|split; [|split]].
  - rewrite !getTotalExecutionTime_ms.
    destruct (perform op env w).1; rewrite H; [|done..].
    split; [reflexivity|]. rewrite sum_of_app. unfold sum_of. simpl. lia.
  - apply getTotalExecutionTime_ms.
  - reflexivity.
  - intros T name fn action steps result w1 Hcheck Haction. cbv zeta.
    rewrite run_unfold, Hcheck, Haction. cbn [fst snd].
    split; [done|]. split; [done|].
    rewrite !getTotalExecutionTime_ms. cbn [this executionTimes set_executionTimes].
    rewrite sum_of_app. unfold sum_of. simpl. lia.
Qed.

(** [connectToLitNodeClient()] on a fresh instance completes and records the
    5 ms of the sample clock, 5/1000 of a second. *)
Lemma durations_recorded_and_totalled_witness :
  let run := perform (ConnectToLitNodeClient None) sample_env (start (sample_bulkie true)) in
  run.1 = Ok ReturnedThis
  /\ executionTimes (this run.2) = [5]
  /\ ms (getTotalExecutionTime (this run.2)) = 5
  /\ (s (getTotalExecutionTime (this run.2)) == inject_Z 5 / inject_Z 1000)%Q.
Proof.
  cbv zeta.
  assert (Hok : (perform (ConnectToLitNodeClient None) sample_env
                   (start (sample_bulkie true))).1 = Ok ReturnedThis)
    by (vm_compute; reflexivity).
  destruct (durations_recorded_and_totalled (ConnectToLitNodeClient None) sample_env
              (start (sample_bulkie true))) as (Hpushed & _ & Hs & _).
  rewrite Hok in Hpushed. destruct Hpushed as [Htimes Hms].
  split; [exact Hok|]. split; [exact Htimes|]. split; [exact Hms|].
  rewrite Hms in Hs. exact Hs.
Defined.

(** Three steps on the sample clock: 5 ms each, 15 ms in all. *)
Example total_after_three_steps :
  let b := this (perform_all [ConnectToLitNodeClient None; ConnectToLitContracts None;
                              MintPKP None]
                   sample_env (start (sample_bulkie true))).2 in
  executionTimes b = [5; 5; 5]
  /\ ms (getTotalExecutionTime b) = 15
  /\ s (getTotalExecutionTime b) = (inject_Z 15 / inject_Z 1000)%Q.
Proof. vm_compute. repeat split. Qed.

(** ** Errors *)

(** What [_run] makes of its requirement check and its action together: an
    error object caught is rethrown behind the operation name; for [null]
    or [undefined] the handler itself throws, reading [message]. *)
Lemma run_outcome {T} name fn (action : M T) steps env w :
  _run name fn action steps env w =
  match (_checkRequirements fn;; action) env (tick w) with
  | (Ok result, w1) =>
      (Ok result,
       {| this := set_executionTimes
                    (executionTimes (this w1)
                     ++ [now env (clock w1) - now env (clock w)]) (this w1);
          log := log w1; clock := S (clock w1) |})
  | (Throw cause, w1) =>
      (Throw (Error ("Error in " +:+ name +:+ ": " +:+ message cause)), w1)
  | (ThrowNullish v, w1) =>
      (Throw (TypeError (cannot_read_of env v "message")), w1)
  end.
Proof.
  rewrite run_unfold, bind_unfold.
  pose proof (checkRequirements_pure fn env (tick w)) as Hpure.
  destruct (_checkRequirements fn env (tick w)) as [[[]|cause|v] w0];
    simpl in Hpure; subst w0; simpl; [|reflexivity..].
  by destruct (action env (tick w)) as [[result|cause|v] w1].
Qed.

(** The argument checks that operations make before they call [_run], in the
    order of the source: the error of the first check that fails. *)
Definition argument_error (op : Operation) : option JsError :=
  match op with
  | MintCreditsNFT params =>
      if (requestsPerKilosecond params =? 0) || (daysUntilUTCMidnightExpiration params =? 0)
      then Some (Error "requestsPerKilosecond and daysUntilUTCMidnightExpiration are required")
      else None
  | CreateAccessToken params =>
      if String.eqb (type params) "eoa" || String.eqb (type params) "native_auth" then
        Some (Error "Native auth and EOA are not supported yet")
      else if String.eqb (type params) "custom_auth"
              && negb (truthy (code params)) && negb (truthy (ipfsCid params)) then
        Some (Error "Either code or ipfsCid must be provided")
      else if String.eqb (type params) "custom_auth"
              && truthy (code params) && truthy (ipfsCid params) then
        Some (Error "Only one of code or ipfsCid should be provided, not both")
      else if String.eqb (type params) "custom_auth" && negb (truthy (jsParams params)) then
        Some (Error "jsParams is required")
      else if negb (truthy (pkpPublicKey params)) then
        Some (Error "pkpPublicKey is required")
      else if (length (resources params) =? 0)%nat then
        Some (Error "resources is required")
      else
        match map_throwing requestAbilityRequest (resources params) with
        | Throw e => Some e
        | _ => None
        end
  | _ => None
  end.

(** An error message that carries the prefix of the operation. *)
Definition prefixed (op : Operation) (e : JsError) : Prop :=
  exists msg, message e = "Error in " +:+ opName op +:+ ": " +:+ msg.

(** An operation stops at its argument check, or at the requirement check
    that [getPkps] makes on its own, or it is [_run] on its action. *)
Lemma perform_cases op env w :
  match argument_error op with
  | Some e => perform op env w = (Throw e, w) /\ ~ prefixed op e
  | None =>
      (op = GetPkps /\ exists e, _checkRequirements FN.getPkps env w = (Throw e, w)
                                 /\ perform op env w = (Throw e, w))
      \/ ((op = GetPkps -> (_checkRequirements FN.getPkps env w).1 = Ok tt)
          /\ exists T (action : M T) steps (ret : T -> Returned),
               perform op env w
               = returned ret (_run (opName op) (fnName op) action steps env w))
  end.
Proof.
  destruct op; cbn [argument_error]; unfold perform; unfold_operations.
  - right. split; [done|]. eexists _, _, _, (fun _ => ReturnedThis). by rewrite then_ret.
  - right. split; [done|]. eexists _, _, _, (fun _ => ReturnedThis). by rewrite then_ret.
  - right. split; [done|]. eexists _, _, _, (fun _ => ReturnedThis). by rewrite then_ret.
  - rewrite then_ret.
    destruct ((requestsPerKilosecond params =? 0)
              || (daysUntilUTCMidnightExpiration params =? 0)).
    + split; [reflexivity|]. intros [msg Hmsg]. discriminate Hmsg.
    + right. split; [done|]. by eexists _, _, _, (fun _ => ReturnedThis).
  - right. split; [done|]. eexists _, _, _, (fun _ => ReturnedThis). by rewrite then_ret.
  - rewrite then_ret.
    destruct (String.eqb (type params) "eoa" || String.eqb (type params) "native_auth").
    { split; [reflexivity|]. intros [msg Hmsg]. discriminate Hmsg. }
    destruct (String.eqb (type params) "custom_auth" && negb (truthy (code params))
              && negb (truthy (ipfsCid params))).
    { split; [reflexivity|]. intros [msg Hmsg]. discriminate Hmsg. }
    destruct (String.eqb (type params) "custom_auth" && truthy (code params)
              && truthy (ipfsCid params)).
    { split; [reflexivity|]. intros [msg Hmsg]. discriminate Hmsg. }
    destruct (String.eqb (type params) "custom_auth" && negb (truthy (jsParams params))).
    { split; [reflexivity|]. intros [msg Hmsg]. discriminate Hmsg. }
    destruct (negb (truthy (pkpPublicKey params))).
    { split; [reflexivity|]. intros [msg Hmsg]. discriminate Hmsg. }
    destruct (length (resources params) =? 0)%nat.
    { split; [reflexivity|]. intros [msg Hmsg]. discriminate Hmsg. }
    unfold mbind at 1 3. unfold M_bind at 1 3. unfold lift.
    destruct (map_throwing requestAbilityRequest (resources params)) as [reqs|e|v] eqn:Hmap.
    + right. split; [done|]. by eexists _, _, _, (fun _ => ReturnedThis).
    + split; [reflexivity|].
      apply map_throwing_requestAbilityRequest in Hmap as (r & Hin & ->).
      intros [msg Hmsg]. discriminate Hmsg.
    + by apply map_throwing_throws_error in Hmap.
  - right. split; [done|]. eexists _, _, _, (fun _ => ReturnedThis). by rewrite then_ret.
  - right. split; [done|]. eexists _, _, _, (fun _ => ReturnedThis). by rewrite then_ret.
  - rewrite returned_bind. rewrite bind_unfold.
    pose proof (checkRequirements_pure FN.getPkps env w) as Hpure.
    pose proof (checkRequirements_throws_error FN.getPkps env w) as Herror.
    destruct (_checkRequirements FN.getPkps env w) as [[[]|cause|v] w0] eqn:Hcheck;
      simpl in Hpure; subst w0.
    + right. split; [done|]. eexists _, _, _, ReturnedPkps. reflexivity.
    + left. split; [done|]. by exists cause.
    + by destruct (Herror v).
Qed.

(** C1 as stated: whatever error an operation throws carries the prefix. *)
Definition rethrown_with_prefix (op : Operation) (env : Env) (w : World) : Prop :=
  forall e w', perform op env w = (Throw e, w') ->
    exists msg, message e = "Error in " +:+ opName op +:+ ": " +:+ msg.

(** [mintCreditsNFT({ requestsPerKilosecond: 0, daysUntilUTCMidnightExpiration: 0 })] *)
Definition mint_credits_without_numbers : Operation :=
  MintCreditsNFT {| requestsPerKilosecond := 0;
                    daysUntilUTCMidnightExpiration := 0;
                    credits_outputId := None |}.

(** The claim of C1 fails for the argument check of [mintCreditsNFT], which
    throws before [_run] is entered: the error arrives as it was thrown. *)
Lemma rethrown_with_prefix_fails_before_run :
  perform mint_credits_without_numbers sample_env (connected_world true)
  = (Throw (Error "requestsPerKilosecond and daysUntilUTCMidnightExpiration are required"),
     connected_world true)
  /\ ~ rethrown_with_prefix mint_credits_without_numbers sample_env (connected_world true).
Proof.
  assert (Hrun : perform mint_credits_without_numbers sample_env (connected_world true)
                 = (Throw (Error "requestsPerKilosecond and daysUntilUTCMidnightExpiration are required"),
                    connected_world true)) by reflexivity.
  split; [exact Hrun|].
  intros H. destruct (H _ _ Hrun) as [msg Hmsg]. simpl in Hmsg. discriminate Hmsg.
Qed.

(** An environment in which every SDK call is rejected with [null]. *)
Definition null_env : Env :=
  {| now := now sample_env;
     vendor := fun _ _ => ThrowNullish JsNull;
     window := None;
     RPC_URL_BY_NETWORK := RPC_URL_BY_NETWORK sample_env;
     blockExplorerUrl := blockExplorerUrl sample_env;
     BigNumber_toString := BigNumber_toString sample_env;
     BigNumber_toHexString := BigNumber_toHexString sample_env;
     parseEther := parseEther sample_env;
     computeAddress := computeAddress sample_env;
     base64 := base64 sample_env;
     cannot_read := cannot_read sample_env;
     cannot_read_null := cannot_read_null sample_env |}.

(** It fails as well inside [_run], when an SDK call is rejected with [null]:
    the handler of [_run] throws on reading the message, and what reaches
    the caller is the [TypeError] of that. *)
Example rethrown_with_prefix_fails_for_null :
  (perform (ConnectToLitNodeClient None) null_env (start (sample_bulkie true))).1
  = Throw (TypeError "Cannot read properties of null (reading 'message')")
  /\ ~ rethrown_with_prefix (ConnectToLitNodeClient None) null_env
         (start (sample_bulkie true)).
Proof.
  assert (Hrun : (perform (ConnectToLitNodeClient None) null_env
                    (start (sample_bulkie true))).1
                 = Throw (TypeError "Cannot read properties of null (reading 'message')"))
    by (vm_compute; reflexivity).
  split; [exact Hrun|].
  intros H. destruct (H _ _ (run_eq _ _ _ _ Hrun)) as [msg Hmsg].
  simpl in Hmsg. discriminate Hmsg.
Qed.

(** C1, amended: inside [_run], an error object thrown by the requirement
    check or by the action of the operation is caught and rethrown as an
    [Error] whose message is ["Error in <operation name>: "] followed by the
    message of the error caught; [null] or [undefined], which a promise can
    be rejected with, makes the handler throw the [TypeError] of reading
    its [message], and that error reaches the caller without the prefix.
    The error of an argument check of [mintCreditsNFT] or of
    [createAccessToken] (the first that fails, in the order of the source)
    and the error of the requirement check that [getPkps] makes before it
    calls [_run] reach the caller as they were thrown, without the prefix,
    and leave the instance as it was. Every operation that passes these is
    [_run] under its display name and its step name. So whatever an
    operation throws is one of these four, and it is never [null] or
    [undefined]. *)
Theorem errors_inside_run_rethrown_with_prefix :
  (forall T name fn (action : M T) steps env w,
      match (_checkRequirements fn;; action) env (tick w) with
      | (Ok result, w1) => (_run name fn action steps env w).1 = Ok result
      | (Throw cause, w1) =>
          _run name fn action steps env w
          = (Throw (Error ("Error in " +:+ name +:+ ": " +:+ message cause)), w1)
      | (ThrowNullish v, w1) =>
          _run name fn action steps env w
          = (Throw (TypeError (cannot_read_of env v "message")), w1)
      end)
  /\ (forall op env w e,
        argument_error op = Some e ->
        perform op env w = (Throw e, w) /\ ~ prefixed op e)
  /\ (forall env w e w0,
        _checkRequirements FN.getPkps env w = (Throw e, w0) ->
        perform GetPkps env w = (Throw e, w) /\ ~ prefixed GetPkps e)
  /\ (forall op env w,
        argument_error op = None ->
        (op = GetPkps -> (_checkRequirements FN.getPkps env w).1 = Ok tt) ->
        exists T (action : M T) steps (ret : T -> Returned),
          perform op env w
          = returned ret (_run (opName op) (fnName op) action steps env w))
  /\ (forall op env w e w',
        perform op env w = (Throw e, w') ->
        (argument_error op = Some e /\ w' = w)
        \/ (op = GetPkps /\ _checkRequirements FN.getPkps env w = (Throw e, w) /\ w' = w)
        \/ (exists cause, e = Error ("Error in " +:+ opName op +:+ ": " +:+ message cause))
        \/ (exists v, e = TypeError (cannot_read_of env v "message")))
  /\ (forall op env w v w', perform op env w <> (ThrowNullish v, w')).
Proof.
  assert (Hthrown : forall op env w,
             (exists e, perform op env w = (Throw e, w)
                        /\ (argument_error op = Some e
                            \/ (op = GetPkps
                                /\ _checkRequirements FN.getPkps env w = (Throw e, w))))
             \/ (argument_error op = None
                 /\ (op = GetPkps -> (_checkRequirements FN.getPkps env w).1 = Ok tt)
                 /\ exists T (action : M T) steps (ret : T -> Returned),
                      perform op env w
                      = returned ret (_run (opName op) (fnName op) action steps env w))).
  { intros op env w. pose proof (perform_cases op env w) as H.
    destruct (argument_error op) as [e|].
    - left. exists e. split; [apply H|by left].
    - destruct H as [(-> & e & Hcheck & Hrun)|[Hcheck Hrun]].
      + left. exists e. split; [done|]. by right.
      + by right. }
  split; [|split; [|split; [|split; [|split]]]].
  - intros T name fn action steps env w. rewrite run_outcome.
    by destruct ((_checkRequirements fn;; action) env (tick w)) as [[result|cause|v] w1].
  - intros op env w e Hargs. pose proof (perform_cases op env w) as H.
    by rewrite Hargs in H.
  - intros env w e w0 Hcheck.
    pose proof (checkRequirements_pure FN.getPkps env w) as Hpure.
    rewrite Hcheck in Hpure. simpl in Hpure. subst w0. split.
    + unfold perform. rewrite returned_bind. unfold getPkps.
      by rewrite bind_unfold, Hcheck.
    + destruct w as [b lg ck]. revert Hcheck. unfold_checks. unfold_M. simpl.
      intros Hcheck [msg Hmsg]. run_all; discriminate Hmsg.
  - intros op env w Hargs Hcheck.
    destruct (Hthrown op env w)
      as [(e & _ & [Hsome|[-> Hfails]])|(_ & _ & Hrun)]; [congruence| |done].
    specialize (Hcheck eq_refl). rewrite Hfails in Hcheck. discriminate Hcheck.
  - intros op env w e w' Hrun.
    destruct (Hthrown op env w)
      as [(e0 & Hthrow & Hbefore)|(_ & _ & T & action & steps & ret & Heq)].
    + rewrite Hthrow in Hrun. injection Hrun as <- <-.
      destruct Hbefore as [Hargs|[-> Hcheck]]; [by left|]. right. by left.
    + right. right. rewrite Heq, run_outcome in Hrun. unfold returned in Hrun.
      destruct ((_checkRequirements (fnName op);; action) env (tick w))
        as [[result|cause|v] w1]; simpl in Hrun; [discriminate| |];
        injection Hrun as <- <-; [left|right]; eauto.
  - intros op env w v w' Hrun.
    destruct (Hthrown op env w)
      as [(e0 & Hthrow & _)|(_ & _ & T & action & steps & ret & Heq)].
    + rewrite Hthrow in Hrun. discriminate Hrun.
    + rewrite Heq, run_outcome in Hrun. unfold returned in Hrun.
      by destruct ((_checkRequirements (fnName op);; action) env (tick w))
        as [[result|cause|v'] w1].
Qed.

(** The three ways an error reaches the caller, on the samples: the bare
    error of an argument check, the prefixed requirement error, and the
    [TypeError] for a rejection with [null]. *)
Lemma errors_inside_run_rethrown_with_prefix_witness :
  perform mint_credits_without_numbers sample_env (connected_world true)
  = (Throw (Error "requestsPerKilosecond and daysUntilUTCMidnightExpiration are required"),
     connected_world true)
  /\ _run "Mint PKP" FN.mintPKP (mret tt) [] sample_env (start (sample_bulkie true))
     = (Throw (Error "Error in Mint PKP: ❌ LitContracts is required"),
        tick (start (sample_bulkie true)))
  /\ (_run "LitNodeClient connection" FN.connectToLitNodeClient
        (await (LitNodeClient_connect
                  {| lnc_litNetwork := None; lnc_debug := false; lnc_rpcUrl := None |}))
        [] null_env (start (sample_bulkie true))).1
     = Throw (TypeError "Cannot read properties of null (reading 'message')").
Proof.
  destruct errors_inside_run_rethrown_with_prefix as (Hrun & Hargs & _).
  split; [|split].
  - apply (Hargs mint_credits_without_numbers sample_env (connected_world true)).
    reflexivity.
  - apply (Hrun unit "Mint PKP" FN.mintPKP (mret tt) [] sample_env
             (start (sample_bulkie true))).
  - pose proof (Hrun _ "LitNodeClient connection" FN.connectToLitNodeClient
                  (await (LitNodeClient_connect
                            {| lnc_litNetwork := None; lnc_debug := false;
                               lnc_rpcUrl := None |}))
                  [] null_env (start (sample_bulkie true))) as Hnull.
    destruct ((_checkRequirements FN.connectToLitNodeClient;;
               await (LitNodeClient_connect
                        {| lnc_litNetwork := None; lnc_debug := false;
                           lnc_rpcUrl := None |}))
                null_env (tick (start (sample_bulkie true))))
      as [[result|cause|v] w1] eqn:Hthrown;
      vm_compute in Hthrown; [discriminate Hthrown..|].
    injection Hthrown as <- _. rewrite Hnull. reflexivity.
Defined.

(** [needle] occurs in [text]. *)
Definition contains (needle text : string) : Prop :=
  exists before after, text = before +:+ needle +:+ after.

(** C8: with [litContracts] and a signer set and no [litNodeClient],
    [grantAuthMethodToUsePKP] throws an error whose message contains
    ['❌ LitNodeClient is required']: the requirement check of the step passes
    its own two requirements and then, for want of a [break], runs the
    requirement of [createAccessToken]. *)
Theorem grantAuthMethodToUsePKP_requires_litNodeClient :
  forall params env w contracts sg,
    litContracts (this w) = Some contracts ->
    signer (this w) = Some sg ->
    litNodeClient (this w) = None ->
    (_checkRequirements FN.grantAuthMethodToUsePKP env w
     = (require_litContracts;; require_signer;; _checkRequirements FN.createAccessToken) env w)
    /\ _checkRequirements FN.grantAuthMethodToUsePKP env w
       = (Throw (Error "❌ LitNodeClient is required"), w)
    /\ exists e w',
         perform (GrantAuthMethodToUsePKP params) env w = (Throw e, w')
         /\ e = Error "Error in Grant Auth Method: ❌ LitNodeClient is required"
         /\ contains "❌ LitNodeClient is required" (message e)
         /\ log w' = log w
         /\ outputs (this w') = outputs (this w).
Proof.
  intros params env w contracts sg Hc Hs Hn.
  destruct w as [b lg ck]. destruct b. simpl in *. subst.
  split; [reflexivity|]. split; [reflexivity|].
  eexists _, _. split; [reflexivity|]. split; [reflexivity|].
  split; [|split; reflexivity].
  exists "Error in Grant Auth Method: ", "". reflexivity.
Qed.

Definition sample_grant : GrantAuthMethodParams :=
  {| gam_pkpTokenId := "0x10"; gam_authMethodId := "app-id-xxx:user-id-yyy";
     gam_authMethodType := 918232;
     gam_scopes := ["sign_anything"; "no_permission"; "eip_191_personal_sign"];
     gam_outputId := None |}.

Lemma grantAuthMethodToUsePKP_requires_litNodeClient_witness :
  exists e w',
    perform (GrantAuthMethodToUsePKP sample_grant) sample_env (contracts_world true)
    = (Throw e, w')
    /\ contains "❌ LitNodeClient is required" (message e).
Proof.
  destruct (grantAuthMethodToUsePKP_requires_litNodeClient sample_grant sample_env
              (contracts_world true)
              {| lc_debug := false; lc_network := Some "datil";
                 lc_signer := Some (Signer_connect sample_signer
                                      (Some "https://yellowstone-rpc.litprotocol.com"));
                 lc_rpc := Some "https://yellowstone-rpc.litprotocol.com" |}
              (Signer_connect sample_signer
                 (Some "https://yellowstone-rpc.litprotocol.com")))
    as (_ & _ & e & w' & Hrun & _ & Hcontains & _).
  - vm_compute. reflexivity.
  - vm_compute. reflexivity.
  - vm_compute. reflexivity.
  - exists e, w'. split; [exact Hrun | exact Hcontains].
Defined.

(** C10: [createAccessToken] with type ['custom_auth'] throws
    ['Either code or ipfsCid must be provided'] when neither is given and
    ['Only one of code or ipfsCid should be provided, not both'] when both
    are. Both are thrown before [_run] is reached: the world after is the
    world before, so no SDK call was issued, no clock was read and the cache
    is as it was. *)
Theorem createAccessToken_checks_code_and_ipfsCid :
  forall params env w,
    type params = "custom_auth" ->
    (truthy (code params) = false -> truthy (ipfsCid params) = false ->
       perform (CreateAccessToken params) env w
       = (Throw (Error "Either code or ipfsCid must be provided"), w))
    /\ (truthy (code params) = true -> truthy (ipfsCid params) = true ->
          perform (CreateAccessToken params) env w
          = (Throw (Error "Only one of code or ipfsCid should be provided, not both"), w)).
Proof.
  intros params env w Htype. simpl. rewrite then_ret. unfold createAccessToken.
  rewrite Htype. simpl.
  split; intros -> ->; reflexivity.
Qed.

Definition sample_token_params (code ipfsCid : option string) : CreateAccessTokenParams :=
  {| pkpPublicKey := Some "0x04aa"; type := "custom_auth";
     resources := [{| rr_type := "pkp-signing"; rr_request := "*" |};
                   {| rr_type := "lit-action-execution"; rr_request := "*" |}];
     creditsDelegationToken := None;
     jsParams := Some "{ magicNumber: 3 }";
     code := code; ipfsCid := ipfsCid; token_outputId := None |}.

Lemma createAccessToken_checks_code_and_ipfsCid_witness :
  perform (CreateAccessToken (sample_token_params None None)) sample_env
    (connected_world true)
  = (Throw (Error "Either code or ipfsCid must be provided"), connected_world true)
  /\ perform (CreateAccessToken (sample_token_params (Some "(async () => {})()") (Some "QmX")))
       sample_env (connected_world true)
     = (Throw (Error "Only one of code or ipfsCid should be provided, not both"),
        connected_world true).
Proof.
  split.
  - apply (createAccessToken_checks_code_and_ipfsCid (sample_token_params None None));
      reflexivity.
  - apply (createAccessToken_checks_code_and_ipfsCid
             (sample_token_params (Some "(async () => {})()") (Some "QmX")));
      reflexivity.
Defined.

(** ** The SDK calls of one run *)

(** The part of the log that a computation adds. *)
Definition events_of {A} (m : M A) (env : Env) (w : World) : list Event :=
  drop (length (log w)) (log (m env w).2).

Lemma events_of_eq {A} (m : M A) env w tr :
  log (m env w).2 = log w ++ tr -> events_of m env w = tr.
Proof. unfold events_of. intros ->. by rewrite drop_app_length. Qed.

Lemma scope_code_other scope :
  scope <> "no_permission" -> scope <> "sign_anything" -> scope_code scope = 2.
Proof.
  intros H0 H1. unfold scope_code.
  destruct (String.eqb_spec scope "no_permission"); [done|].
  destruct (String.eqb_spec scope "sign_anything"); [done|]. reflexivity.
Qed.

Lemma grantAuthMethodToUsePKP_events params env w :
  events_of (perform (GrantAuthMethodToUsePKP params)) env w = []
  \/ exists contracts,
       litContracts (this w) = Some contracts
       /\ events_of (perform (GrantAuthMethodToUsePKP params)) env w
          = [Issued (LitContracts_addPermittedAuthMethod contracts
                       (gam_pkpTokenId params) (gam_authMethodId params)
                       (gam_authMethodType params)
                       (map scope_code (gam_scopes params)));
             Settled (LitContracts_addPermittedAuthMethod contracts
                        (gam_pkpTokenId params) (gam_authMethodId params)
                        (gam_authMethodType params)
                        (map scope_code (gam_scopes params)))].
Proof.
  destruct w as [[d ld g n client contracts sg r times outs] lg ck].
  destruct contracts as [contracts|]; [destruct sg; [destruct client|]|].
  2-4: left; apply events_of_eq; unfold perform; rewrite then_ret;
       unfold grantAuthMethodToUsePKP; rewrite run_unfold;
       unfold_checks; unfold_M; simpl; by rewrite app_nil_r.
  right. exists contracts. split; [reflexivity|].
  apply events_of_eq. unfold perform. rewrite then_ret.
  unfold grantAuthMethodToUsePKP. rewrite run_unfold.
  unfold_checks. unfold_M. simpl.
  run_all; by rewrite <- app_assoc.
Qed.

Lemma grantIPFSCIDtoUsePKP_events params env w :
  match litContracts (this w) with
  | None => events_of (perform (GrantIPFSCIDtoUsePKP params)) env w = []
  | Some contracts =>
      events_of (perform (GrantIPFSCIDtoUsePKP params)) env w
      = [Issued (LitContracts_addPermittedAction contracts
                   (gic_pkpTokenId params) (gic_ipfsCid params)
                   (map scope_code (gic_scopes params)));
         Settled (LitContracts_addPermittedAction contracts
                    (gic_pkpTokenId params) (gic_ipfsCid params)
                    (map scope_code (gic_scopes params)))]
  end.
Proof.
  destruct w as [[d ld g n client contracts sg r times outs] lg ck].
  destruct contracts as [contracts|]; simpl;
    apply events_of_eq; unfold perform; rewrite then_ret;
    unfold grantIPFSCIDtoUsePKP; rewrite run_unfold;
    unfold_checks; unfold_M; simpl.
  - run_all; by rewrite <- app_assoc.
  - by rewrite app_nil_r.
Qed.

(** C9: in [grantAuthMethodToUsePKP] and in [grantIPFSCIDtoUsePKP] the
    scopes given to the contract call are the input scopes mapped one by one,
    in order and in the same number, by ['no_permission'] to 0,
    ['sign_anything'] to 1 and anything else to 2. The only SDK call either
    operation ever issues is that contract call with these scopes, and it is
    issued as soon as the requirement check lets the action run. *)
Theorem scopes_passed_to_contract_call :
  forall (scopes : list string),
    (scope_code "no_permission" = 0
     /\ scope_code "sign_anything" = 1
     /\ scope_code "eip_191_personal_sign" = 2
     /\ forall scope, scope <> "no_permission" -> scope <> "sign_anything" ->
                      scope_code scope = 2)
    /\ length (map scope_code scopes) = length scopes
    /\ (forall i, map scope_code scopes !! i = scope_code <$> scopes !! i)
    /\ (forall params env w,
          gam_scopes params = scopes ->
          events_of (perform (GrantAuthMethodToUsePKP params)) env w = []
          \/ exists contracts,
               events_of (perform (GrantAuthMethodToUsePKP params)) env w
               = [Issued (LitContracts_addPermittedAuthMethod contracts
                            (gam_pkpTokenId params) (gam_authMethodId params)
                            (gam_authMethodType params) (map scope_code scopes));
                  Settled (LitContracts_addPermittedAuthMethod contracts
                             (gam_pkpTokenId params) (gam_authMethodId params)
                             (gam_authMethodType params) (map scope_code scopes))])
    /\ (forall params env w contracts sg client,
          gam_scopes params = scopes ->
          litContracts (this w) = Some contracts ->
          signer (this w) = Some sg ->
          litNodeClient (this w) = Some client ->
          events_of (perform (GrantAuthMethodToUsePKP params)) env w
          = [Issued (LitContracts_addPermittedAuthMethod contracts
                       (gam_pkpTokenId params) (gam_authMethodId params)
                       (gam_authMethodType params) (map scope_code scopes));
             Settled (LitContracts_addPermittedAuthMethod contracts
                        (gam_pkpTokenId params) (gam_authMethodId params)
                        (gam_authMethodType params) (map scope_code scopes))])
    /\ (forall params env w,
          gic_scopes params = scopes ->
          events_of (perform (GrantIPFSCIDtoUsePKP params)) env w = []
          \/ exists contracts,
               events_of (perform (GrantIPFSCIDtoUsePKP params)) env w
               = [Issued (LitContracts_addPermittedAction contracts
                            (gic_pkpTokenId params) (gic_ipfsCid params)
                            (map scope_code scopes));
                  Settled (LitContracts_addPermittedAction contracts
                             (gic_pkpTokenId params) (gic_ipfsCid params)
                             (map scope_code scopes))])
    /\ (forall params env w contracts,
          gic_scopes params = scopes ->
          litContracts (this w) = Some contracts ->
          events_of (perform (GrantIPFSCIDtoUsePKP params)) env w
          = [Issued (LitContracts_addPermittedAction contracts
                       (gic_pkpTokenId params) (gic_ipfsCid params)
                       (map scope_code scopes));
             Settled (LitContracts_addPermittedAction contracts
                        (gic_pkpTokenId params) (gic_ipfsCid params)
                        (map scope_code scopes))]).
Proof.
  intros scopes.
  split; [repeat split; [apply scope_code_other]|].
  split; [apply length_map|].
  split; [intros i; apply list_lookup_fmap|].
  split; [|split; [|split]].
  - intros params env w <-.
    destruct (grantAuthMethodToUsePKP_events params env w) as [H|(c & _ & H)];
      [by left | right; eauto].
  - intros params env w contracts sg client <- Hc Hs Hn.
    destruct w as [[d ld g n client' contracts' sg' r times outs] lg ck].
    simpl in *. subst.
    apply events_of_eq. unfold perform. rewrite then_ret.
    unfold grantAuthMethodToUsePKP. rewrite run_unfold.
    unfold_checks. unfold_M. simpl.
    run_all; by rewrite <- app_assoc.
  - intros params env w <-.
    pose proof (grantIPFSCIDtoUsePKP_events params env w) as H.
    destruct (litContracts (this w)); [right; eauto | by left].
  - intros params env w contracts <- Hc.
    pose proof (grantIPFSCIDtoUsePKP_events params env w) as H.
    by rewrite Hc in H.
Qed.

Lemma scopes_passed_to_contract_call_witness :
  exists contracts,
    events_of (perform (GrantAuthMethodToUsePKP sample_grant)) sample_env
      (connected_world true)
    = [Issued (LitContracts_addPermittedAuthMethod contracts "0x10"
                 "app-id-xxx:user-id-yyy" 918232 [1; 0; 2]);
       Settled (LitContracts_addPermittedAuthMethod contracts "0x10"
                  "app-id-xxx:user-id-yyy" 918232 [1; 0; 2])].
Proof.
  destruct (scopes_passed_to_contract_call (gam_scopes sample_grant))
    as (_ & _ & _ & _ & Hcall & _).
  eexists.
  eapply (Hcall sample_grant sample_env (connected_world true)).
  - reflexivity.
  - vm_compute. reflexivity.
  - vm_compute. reflexivity.
  - vm_compute. reflexivity.
Defined.

(** ** Requirement checks *)

(** The outcome of the requirement check depends on the instance alone. *)
Lemma checkRequirements_tick fn env w :
  (_checkRequirements fn env (tick w)).1 = (_checkRequirements fn env w).1.
Proof.
  destruct w as [b lg ck].
  destruct fn; unfold_checks; unfold_M; simpl; run_all; reflexivity.
Qed.

(** The operation fails with the requirement message [msg], as thrown or
    behind the prefix that [_run] puts before it, and has neither issued an
    SDK call nor written to the cache. *)
Definition fails_requirement (op : Operation) (env : Env) (w : World) (msg : string)
  : Prop :=
  exists e w',
    perform op env w = (Throw e, w')
    /\ (e = Error msg \/ e = Error ("Error in " +:+ opName op +:+ ": " +:+ msg))
    /\ log w' = log w
    /\ outputs (this w') = outputs (this w).

Definition is_connection (op : Operation) : Prop :=
  match op with
  | ConnectToLitNodeClient _ | ConnectToLitContracts _ => True
  | _ => False
  end.

Definition needs_contracts_and_signer (op : Operation) : Prop :=
  match op with
  | MintPKP _ | MintCreditsNFT _ | GetPkps => True
  | _ => False
  end.

(** C5 as stated. *)
Definition requirements_enforced (op : Operation) (env : Env) (w : World) : Prop :=
  (is_connection op -> truthy (network (this w)) = false ->
     fails_requirement op env w "❌ this.network is required")
  /\ (needs_contracts_and_signer op -> litContracts (this w) = None ->
        fails_requirement op env w "❌ LitContracts is required")
  /\ (needs_contracts_and_signer op -> signer (this w) = None ->
        fails_requirement op env w "❌ Signer is required").

(** The claim of C5 fails in two places. [mintCreditsNFT] checks its two
    numbers before anything else, so with a zero among them and no
    [litContracts] the error is that of the numbers. And the requirement on
    [litContracts] is checked before the one on the signer, so with neither
    set [mintPKP] reports [litContracts]. *)
Lemma requirements_enforced_fails :
  litContracts (this (start (sample_bulkie false))) = None
  /\ signer (this (start (sample_bulkie false))) = None
  /\ perform mint_credits_without_numbers sample_env (start (sample_bulkie false))
     = (Throw (Error "requestsPerKilosecond and daysUntilUTCMidnightExpiration are required"),
        start (sample_bulkie false))
  /\ perform (MintPKP None) sample_env (start (sample_bulkie false))
     = (Throw (Error "Error in Mint PKP: ❌ LitContracts is required"),
        tick (start (sample_bulkie false)))
  /\ ~ requirements_enforced mint_credits_without_numbers sample_env
         (start (sample_bulkie false))
  /\ ~ requirements_enforced (MintPKP None) sample_env (start (sample_bulkie false)).
Proof.
  assert (Hcredits :
            perform mint_credits_without_numbers sample_env (start (sample_bulkie false))
            = (Throw (Error "requestsPerKilosecond and daysUntilUTCMidnightExpiration are required"),
               start (sample_bulkie false))) by (vm_compute; reflexivity).
  assert (Hmint :
            perform (MintPKP None) sample_env (start (sample_bulkie false))
            = (Throw (Error "Error in Mint PKP: ❌ LitContracts is required"),
               tick (start (sample_bulkie false)))) by (vm_compute; reflexivity).
  repeat split; try (vm_compute; reflexivity).
  - intros (_ & Hcontracts & _).
    destruct (Hcontracts I eq_refl) as (e & w' & Hrun & [He|He] & _);
      rewrite Hcredits in Hrun; injection Hrun as <- <-; discriminate He.
  - intros (_ & _ & Hsigner).
    destruct (Hsigner I eq_refl) as (e & w' & Hrun & [He|He] & _);
      rewrite Hmint in Hrun; injection Hrun as <- <-; discriminate He.
Qed.

(** The arguments pass the checks an operation makes before the requirement
    check. *)
Definition numbers_given (op : Operation) : Prop :=
  match op with
  | MintCreditsNFT params =>
      requestsPerKilosecond params <> 0 /\ daysUntilUTCMidnightExpiration params <> 0
  | _ => True
  end.

Lemma perform_without_requirement op env w cause w0 :
  _checkRequirements (fnName op) env w = (Throw cause, w0) ->
  exists e w',
    perform op env w = (Throw e, w')
    /\ log w' = log w
    /\ outputs (this w') = outputs (this w).
Proof.
  intros Hcheck.
  destruct (perform_shape op env w)
    as [(e & Hthrow & _) | (T & action & steps & ret & Heq & _)].
  - exists e, w. by rewrite Hthrow.
  - rewrite Heq, run_unfold, checkRequirements_tick, Hcheck. simpl.
    unfold returned. simpl. eauto.
Qed.

(** C5, amended: the requirement check runs before the action of an
    operation and a failed check ends the operation with no SDK call issued
    and the cache untouched. [connectToLitNodeClient] and
    [connectToLitContracts] fail with ['❌ this.network is required'] when no
    network is set. [mintPKP], [getPkps] and, once its two numbers are
    non-zero, [mintCreditsNFT] fail with ['❌ LitContracts is required'] when
    [litContracts] is not set, and with ['❌ Signer is required'] when
    [litContracts] is set and no signer is. The message reaches the caller
    behind the prefix of [_run], or bare from the first check of
    [getPkps]. *)
Theorem requirement_checks_guard_operations :
  forall op env w,
    (is_connection op -> truthy (network (this w)) = false ->
       fails_requirement op env w "❌ this.network is required")
    /\ (needs_contracts_and_signer op -> numbers_given op ->
          litContracts (this w) = None ->
          fails_requirement op env w "❌ LitContracts is required")
    /\ (needs_contracts_and_signer op -> numbers_given op ->
          litContracts (this w) <> None -> signer (this w) = None ->
          fails_requirement op env w "❌ Signer is required")
    /\ (forall cause w0,
          _checkRequirements (fnName op) env w = (Throw cause, w0) ->
          exists e w',
            perform op env w = (Throw e, w')
            /\ log w' = log w
            /\ outputs (this w') = outputs (this w)).
Proof.
  intros op env w.
  split; [|split; [|split]]; [| | |intros; by eapply perform_without_requirement].
  - intros Hop Hnet.
    destruct w as [[d ld g n client contracts sg r times outs] lg ck].
    simpl in Hnet.
    destruct op; simpl in Hop; try done; unfold fails_requirement, perform; rewrite then_ret;
      unfold_operations; rewrite run_unfold; unfold_checks; unfold_M; simpl;
      rewrite Hnet; simpl; eexists _, _; (split; [reflexivity|]); auto.
  - intros Hop Hnum Hc.
    destruct w as [[d ld g n client contracts sg r times outs] lg ck].
    simpl in Hc. subst contracts.
    destruct op; simpl in Hop; try done; unfold fails_requirement, perform.
    + rewrite then_ret. unfold mintPKP. rewrite run_unfold.
      unfold_checks; unfold_M; simpl.
      eexists _, _; (split; [reflexivity|]); auto.
    + destruct Hnum as [H1 H2]. apply Z.eqb_neq in H1, H2.
      rewrite then_ret. unfold mintCreditsNFT. rewrite H1, H2. cbn [orb].
      rewrite run_unfold. unfold_checks; unfold_M; simpl.
      eexists _, _; (split; [reflexivity|]); auto.
    + eexists _, _; (split; [reflexivity|]); auto.
  - intros Hop Hnum Hc Hs.
    destruct w as [[d ld g n client contracts sg r times outs] lg ck].
    simpl in Hc, Hs. subst sg. destruct contracts as [contracts|]; [|done].
    destruct op; simpl in Hop; try done; unfold fails_requirement, perform.
    + rewrite then_ret. unfold mintPKP. rewrite run_unfold.
      unfold_checks; unfold_M; simpl.
      eexists _, _; (split; [reflexivity|]); auto.
    + destruct Hnum as [H1 H2]. apply Z.eqb_neq in H1, H2.
      rewrite then_ret. unfold mintCreditsNFT. rewrite H1, H2. cbn [orb].
      rewrite run_unfold. unfold_checks; unfold_M; simpl.
      eexists _, _; (split; [reflexivity|]); auto.
    + eexists _, _; (split; [reflexivity|]); auto.
Qed.

(** The constructor refuses to build an instance without a network. *)
Lemma constructor_sets_network env params b :
  constructor env params = Ok b -> truthy (network b) = true.
Proof.
  unfold constructor. destruct (truthy (cp_network params)) eqn:Hn; simpl; [|done].
  by intros [= <-].
Qed.

(** A world whose instance has lost its network (the constructor never
    builds one). *)
Definition no_network_world : World :=
  start {| debug := false; litDebug := false; guides := false; network := None;
           litNodeClient := None; litContracts := None; signer := None;
           rpc := None; executionTimes := []; outputs := ∅ |}.

Lemma requirement_checks_guard_operations_witness :
  fails_requirement (ConnectToLitNodeClient None) sample_env no_network_world
    "❌ this.network is required"
  /\ fails_requirement (MintPKP None) sample_env (start (sample_bulkie true))
       "❌ LitContracts is required"
  /\ fails_requirement GetPkps sample_env (contracts_world false)
       "❌ Signer is required"
  /\ exists e w',
       perform (GrantAuthMethodToUsePKP sample_grant) sample_env (contracts_world true)
       = (Throw e, w')
       /\ log w' = log (contracts_world true)
       /\ outputs (this w') = outputs (this (contracts_world true)).
Proof.
  split; [|split; [|split]].
  - apply (requirement_checks_guard_operations (ConnectToLitNodeClient None));
      [exact I | reflexivity].
  - apply (requirement_checks_guard_operations (MintPKP None));
      [exact I | exact I | vm_compute; reflexivity].
  - apply (requirement_checks_guard_operations GetPkps);
      [exact I | exact I | vm_compute; discriminate | vm_compute; reflexivity].
  - eapply (requirement_checks_guard_operations (GrantAuthMethodToUsePKP sample_grant)).
    vm_compute. reflexivity.
Defined.

(** ** Calls in flight *)

(** The number of calls issued and not yet settled after a stretch of log
    that starts with [n] of them. *)
Fixpoint in_flight_from (n : nat) (tr : list Event) : nat :=
  match tr with
  | [] => n
  | Issued _ :: tr' => in_flight_from (S n) tr'
  | Settled _ :: tr' => in_flight_from (pred n) tr'
  end.

Definition in_flight (tr : list Event) : nat := in_flight_from 0 tr.

(** At no point of the stretch are two calls in flight. *)
Definition never_concurrent (tr : list Event) : Prop :=
  forall k, (in_flight (take k tr) <= 1)%nat.

(** The largest number of calls in flight at any point of the stretch. *)
Fixpoint peak_from (n : nat) (tr : list Event) : nat :=
  match tr with
  | [] => n
  | Issued _ :: tr' => Nat.max n (peak_from (S n) tr')
  | Settled _ :: tr' => Nat.max n (peak_from (pred n) tr')
  end.

Lemma peak_from_ge n tr : (n <= peak_from n tr)%nat.
Proof. destruct tr as [|[c|c] tr]; simpl; lia. Qed.

Lemma in_flight_take_le_peak n tr k :
  (in_flight_from n (take k tr) <= peak_from n tr)%nat.
Proof.
  revert n k. induction tr as [|ev tr IH]; intros n k.
  - by rewrite take_nil.
  - destruct k as [|k]; [apply peak_from_ge|].
    destruct ev; simpl; etransitivity; [apply IH | lia | apply IH | lia].
Qed.

Lemma peak_from_app n tr1 tr2 :
  peak_from n (tr1 ++ tr2)
  = Nat.max (peak_from n tr1) (peak_from (in_flight_from n tr1) tr2).
Proof.
  revert n. induction tr1 as [|[c|c] tr1 IH]; intros n; simpl.
  - pose proof (peak_from_ge n tr2). lia.
  - rewrite IH. lia.
  - rewrite IH. lia.
Qed.

Lemma sequential_in_flight n tr : sequential tr -> in_flight_from n tr = n.
Proof. induction 1; simpl; auto. Qed.

Lemma sequential_peak n tr : sequential tr -> (peak_from n tr <= S n)%nat.
Proof. induction 1; simpl; lia. Qed.

Lemma sequential_never_concurrent tr : sequential tr -> never_concurrent tr.
Proof.
  intros Hseq k. unfold in_flight.
  etransitivity; [apply in_flight_take_le_peak | by apply sequential_peak].
Qed.

Lemma issued_in_flight {A} (f : A -> VendorCall) (l : list A) n :
  in_flight_from n (map (fun a => Issued (f a)) l) = (n + length l)%nat.
Proof. revert n. induction l as [|a l IH]; intros n; simpl; [lia|]. rewrite IH. lia. Qed.

Lemma issued_peak {A} (f : A -> VendorCall) (l : list A) n :
  peak_from n (map (fun a => Issued (f a)) l) = (n + length l)%nat.
Proof. revert n. induction l as [|a l IH]; intros n; simpl; [lia|]. rewrite IH. lia. Qed.

Lemma settled_peak {A} (f : A -> VendorCall) (l : list A) n :
  peak_from n (map (fun a => Settled (f a)) l) = n.
Proof. revert n. induction l as [|a l IH]; intros n; simpl; [lia|]. rewrite IH. lia. Qed.

Definition getPubkey_issued (contracts : LitContracts) (tokenId : string) : Event :=
  Issued (PkpPermissions_getPubkey contracts tokenId).

Definition getPubkey_settled (contracts : LitContracts) (tokenId : string) : Event :=
  Settled (PkpPermissions_getPubkey contracts tokenId).

Lemma settle_getPubkeys_log contracts pending env w :
  exists j,
    (j <= length pending)%nat
    /\ log (settle_getPubkeys contracts pending env w).2
       = log w ++ map (getPubkey_settled contracts) (take j (map fst pending))
    /\ (forall pkps, (settle_getPubkeys contracts pending env w).1 = Ok pkps ->
          j = length pending).
Proof.
  revert w. induction pending as [|[tokenId outcome] pending IH]; intros w.
  - exists 0%nat. simpl. by rewrite app_nil_r.
  - cbn [settle_getPubkeys]. unfold_M. cbn [map fst length].
    destruct outcome as [publicKey|e|v];
      [|exists 1%nat; simpl; split; [lia|done]..].
    destruct (computeAddress env ("0x" +:+ slice 2 publicKey)) as [ethAddress|e|v];
      [|exists 1%nat; simpl; split; [lia|done]..].
    destruct (BigNumber_toHexString env tokenId) as [tokenIdHex|e|v];
      [|exists 1%nat; simpl; split; [lia|done]..].
    match goal with
    | |- context [settle_getPubkeys contracts pending env ?w1] =>
        destruct (IH w1) as (j & Hle & Hj & Hall); exists (S j);
        destruct (settle_getPubkeys contracts pending env w1) as [[rest|e|v] w2]
    end; simpl in *; rewrite Hj; rewrite <- app_assoc;
      (split; [lia|]); (split; [done|]); intros pkps Hok; try discriminate Hok.
    by rewrite (Hall rest eq_refl).
Qed.

Lemma imap_fst_const {A B} (f : nat -> A -> B) (l : list A) :
  map fst (imap (fun i a => (a, f i a)) l) = l.
Proof.
  revert f. induction l as [|a l IH]; intros f; simpl; [done|].
  f_equal. apply (IH (fun i => f (S i))).
Qed.

(** What [getPkps] adds to the log: calls made one at a time, then one
    [getPubkey] per token issued in a row, then those that settled before
    the operation ended. *)
Definition getPkps_events (tr : list Event) : Prop :=
  exists before contracts tokens j,
    tr = before ++ map (getPubkey_issued contracts) tokens
                ++ map (getPubkey_settled contracts) (take j tokens)
    /\ sequential before.

Lemma getPkps_events_nil : getPkps_events [].
Proof. exists [], {| lc_debug := false; lc_network := None; lc_signer := None; lc_rpc := None |}, [], 0%nat. split; [reflexivity|constructor]. Qed.

Lemma getPkps_events_sequential tr : sequential tr -> getPkps_events tr.
Proof.
  intros Hseq.
  exists tr, {| lc_debug := false; lc_network := None; lc_signer := None; lc_rpc := None |},
    [], 0%nat.
  split; [by rewrite app_nil_r | done].
Qed.

Lemma perform_getPkps_events env w :
  log (perform GetPkps env w).2 = log w ++ events_of (perform GetPkps) env w
  /\ getPkps_events (events_of (perform GetPkps) env w).
Proof.
  assert (exists tr, log (perform GetPkps env w).2 = log w ++ tr /\ getPkps_events tr)
    as (tr & Hlog & Htr);
    [|by rewrite (events_of_eq _ _ _ _ Hlog)].
  destruct w as [[d ld g n client contracts sg r times outs] lg ck].
  unfold perform. rewrite returned_bind. unfold getPkps. rewrite bind_unfold.
  destruct contracts as [contracts|];
    [|exists []; split; [by rewrite app_nil_r | apply getPkps_events_nil]].
  destruct sg as [sg|];
    [|exists []; split; [by rewrite app_nil_r | apply getPkps_events_nil]].
  unfold _checkRequirements at 1. unfold require_litContracts, require_signer.
  unfold_M. simpl.
  rewrite run_unfold.
  unfold _checkRequirements at 1. unfold require_litContracts, require_signer.
  unfold issue_getPubkeys. unfold_M. simpl.
  destruct (vendor env (length lg) (Signer_getAddress sg)) as [addr|e|v]; simpl;
    [|exists [Issued (Signer_getAddress sg); Settled (Signer_getAddress sg)];
      split; [by rewrite <- app_assoc
             | apply getPkps_events_sequential; repeat constructor]..].
  destruct (String.eqb addr ""); simpl;
    [exists [Issued (Signer_getAddress sg); Settled (Signer_getAddress sg)];
      split; [by rewrite <- app_assoc
             | apply getPkps_events_sequential; repeat constructor]|].
  match goal with
  | |- context [vendor env ?k (PkpNft_getTokensByAddress contracts addr)] =>
      destruct (vendor env k (PkpNft_getTokensByAddress contracts addr))
        as [tokens|e|v]; simpl;
      [|exists [Issued (Signer_getAddress sg); Settled (Signer_getAddress sg);
                Issued (PkpNft_getTokensByAddress contracts addr);
                Settled (PkpNft_getTokensByAddress contracts addr)];
        split; [by rewrite <- !app_assoc
               | apply getPkps_events_sequential; repeat constructor]..]
  end.
  match goal with
  | |- context [settle_getPubkeys contracts ?p env ?w1] =>
      destruct (settle_getPubkeys_log contracts p env w1) as (j & _ & Hj & _);
      destruct (settle_getPubkeys contracts p env w1) as [[pkps|e|v] w2]
  end;
    rewrite imap_fst_const in Hj; simpl in Hj; simpl; rewrite Hj;
    (eexists; split;
     [rewrite <- !app_assoc; simpl; reflexivity
      | exists [Issued (Signer_getAddress sg); Settled (Signer_getAddress sg);
                Issued (PkpNft_getTokensByAddress contracts addr);
                Settled (PkpNft_getTokensByAddress contracts addr)],
          contracts, tokens, j; split; [reflexivity | repeat constructor]]).
Qed.

Lemma run_grows_sequentially {T} name fn (action : M T) steps :
  framed grows_sequentially action ->
  framed grows_sequentially (_run name fn action steps).
Proof.
  intros Haction env w. rewrite run_unfold.
  destruct (_checkRequirements fn env (tick w)).1.
  - specialize (Haction env (tick w)).
    destruct (action env (tick w)) as [[result|cause|v] w1]; exact Haction.
  - exists (@nil Event). simpl. split; [by rewrite app_nil_r | constructor].
  - exists (@nil Event). simpl. split; [by rewrite app_nil_r | constructor].
Qed.

Lemma is_getPkps_or_not op : op = GetPkps \/ op <> GetPkps.
Proof. destruct op; (by left) || (by right). Qed.

Lemma perform_grows_sequentially op :
  op <> GetPkps -> framed grows_sequentially (perform op).
Proof.
  intros Hop env w.
  destruct (perform_shape op env w)
    as [(e & -> & _) | (T & action & steps & ret & -> & Hok)]; [reflexivity|].
  apply (run_grows_sequentially _ _ _ _ (action_sequential _ _ Hok Hop)).
Qed.

(** C7 as stated: no two SDK calls of an operation are ever in flight
    together. *)
Definition calls_never_concurrent (op : Operation) (env : Env) (w : World) : Prop :=
  never_concurrent (events_of (perform op) env w).

(** The claim of C7 fails for [getPkps]: with two tokens owned by the signer,
    both [getPubkey] calls have been issued before either settles. *)
Lemma calls_never_concurrent_fails_for_getPkps :
  in_flight (take 6 (events_of (perform GetPkps) sample_env (contracts_world true))) = 2%nat
  /\ ~ calls_never_concurrent GetPkps sample_env (contracts_world true).
Proof.
  assert (Hsix : in_flight (take 6 (events_of (perform GetPkps) sample_env
                                      (contracts_world true))) = 2%nat)
    by (vm_compute; reflexivity).
  split; [exact Hsix|].
  intros H. specialize (H 6%nat). rewrite Hsix in H. lia.
Qed.

Lemma in_flight_from_app n tr1 tr2 :
  in_flight_from n (tr1 ++ tr2) = in_flight_from (in_flight_from n tr1) tr2.
Proof. revert n. induction tr1 as [|[c|c] tr1 IH]; intros n; simpl; auto. Qed.

(** The two calls that [getPkps] makes first, one after the other. *)
Definition getPkps_first_calls (sg : Signer) (contracts : LitContracts)
    (signerAddress : string) : list Event :=
  [Issued (Signer_getAddress sg); Settled (Signer_getAddress sg);
   Issued (PkpNft_getTokensByAddress contracts signerAddress);
   Settled (PkpNft_getTokensByAddress contracts signerAddress)].

(** The calls of [getPkps] when the signer has an address and the token list
    is [tokens]: after the first two, one [getPubkey] per token is issued,
    and then the first [j] of them settle. *)
Lemma getPkps_trace env w contracts sg signerAddress tokens :
  litContracts (this w) = Some contracts ->
  signer (this w) = Some sg ->
  vendor env (length (log w)) (Signer_getAddress sg) = Ok signerAddress ->
  signerAddress <> "" ->
  vendor env (length (log w) + 2) (PkpNft_getTokensByAddress contracts signerAddress)
  = Ok tokens ->
  exists j,
    (j <= length tokens)%nat
    /\ events_of (perform GetPkps) env w
       = getPkps_first_calls sg contracts signerAddress
         ++ map (getPubkey_issued contracts) tokens
         ++ map (getPubkey_settled contracts) (take j tokens)
    /\ (forall pkps, (perform GetPkps env w).1 = Ok pkps -> j = length tokens).
Proof.
  intros Hcontracts Hsigner Haddr Hnonempty Htokens.
  destruct w as [[d ld g n client contracts' sg' r times outs] lg ck].
  simpl in Hcontracts, Hsigner, Haddr, Htokens. subst contracts' sg'.
  apply String.eqb_neq in Hnonempty.
  unfold events_of, perform. rewrite returned_bind. unfold getPkps. rewrite bind_unfold.
  unfold _checkRequirements at 1. unfold require_litContracts, require_signer.
  unfold_M. simpl. rewrite run_unfold.
  unfold _checkRequirements at 1. unfold require_litContracts, require_signer.
  unfold issue_getPubkeys. unfold_M. simpl.
  rewrite Haddr. simpl. rewrite Hnonempty. simpl.
  rewrite !length_app. simpl.
  replace (length lg + 1 + 1)%nat with (length lg + 2)%nat by lia.
  rewrite Htokens. simpl.
  match goal with
  | |- context [settle_getPubkeys contracts ?p env ?w1] =>
      destruct (settle_getPubkeys_log contracts p env w1) as (j & Hle & Hj & Hall);
      destruct (settle_getPubkeys contracts p env w1) as [[pkps|e|v] w2]
  end;
    rewrite imap_fst_const in Hj; rewrite length_imap in Hle, Hall;
    simpl in Hj, Hall; simpl; rewrite Hj;
    exists j; (split; [done|]);
    (split; [rewrite <- !app_assoc; simpl; by rewrite drop_app_length|]);
    intros pkps' Hok; try discriminate Hok.
  by apply (Hall pkps).
Qed.

(** C7, amended: every operation other than [getPkps] makes its SDK calls one
    after the other, each settled before the next is issued, so it never
    has two in flight. [getPkps] makes its first calls (the signer address,
    the token list) one after the other and then issues one [getPubkey]
    call for each token of the list that [getTokensByAddress] resolved to,
    in order, before any of them settles: at that point it has as many
    calls in flight as the signer has tokens, and never more. They all
    settle when the operation succeeds. *)
Theorem calls_sequential_except_in_getPkps :
  forall op env w,
    log (perform op env w).2 = log w ++ events_of (perform op) env w
    /\ (op <> GetPkps ->
          sequential (events_of (perform op) env w)
          /\ never_concurrent (events_of (perform op) env w))
    /\ (op = GetPkps ->
          forall contracts sg signerAddress tokens,
            litContracts (this w) = Some contracts ->
            signer (this w) = Some sg ->
            vendor env (length (log w)) (Signer_getAddress sg) = Ok signerAddress ->
            signerAddress <> "" ->
            vendor env (length (log w) + 2)
              (PkpNft_getTokensByAddress contracts signerAddress) = Ok tokens ->
            let calls := events_of (perform op) env w in
            exists j,
              (j <= length tokens)%nat
              /\ calls = getPkps_first_calls sg contracts signerAddress
                         ++ map (getPubkey_issued contracts) tokens
                         ++ map (getPubkey_settled contracts) (take j tokens)
              /\ in_flight (take (4 + length tokens) calls) = length tokens
              /\ (forall k, (in_flight (take k calls) <= Nat.max 1 (length tokens))%nat)
              /\ (forall pkps, (perform op env w).1 = Ok pkps -> j = length tokens))
    /\ (op = GetPkps ->
          exists before contracts tokens j,
            events_of (perform op) env w
            = before ++ map (getPubkey_issued contracts) tokens
                     ++ map (getPubkey_settled contracts) (take j tokens)
            /\ sequential before
            /\ forall k,
                 (in_flight (take k (events_of (perform op) env w))
                  <= Nat.max 1 (length tokens))%nat).
Proof.
  assert (Hbound : forall before contracts (tokens : list string) j k,
             sequential before ->
             (in_flight (take k (before ++ map (getPubkey_issued contracts) tokens
                                        ++ map (getPubkey_settled contracts) (take j tokens)))
              <= Nat.max 1 (length tokens))%nat).
  { intros before contracts tokens j k Hseq. unfold in_flight.
    etransitivity; [apply in_flight_take_le_peak|].
    rewrite !peak_from_app.
    rewrite (sequential_in_flight _ _ Hseq).
    unfold getPubkey_issued, getPubkey_settled.
    rewrite issued_in_flight, issued_peak, settled_peak.
    pose proof (sequential_peak 0 _ Hseq). lia. }
  intros op env w. split; [|split; [|split]].
  - destruct (is_getPkps_or_not op) as [->|Hop].
    + apply perform_getPkps_events.
    + destruct (perform_grows_sequentially op Hop env w) as (tr & Hlog & _).
      by rewrite (events_of_eq _ _ _ _ Hlog).
  - intros Hop.
    destruct (perform_grows_sequentially op Hop env w) as (tr & Hlog & Hseq).
    rewrite (events_of_eq _ _ _ _ Hlog).
    split; [done | by apply sequential_never_concurrent].
  - intros -> contracts sg signerAddress tokens Hcontracts Hsigner Haddr Hnonempty Htokens.
    cbv zeta.
    destruct (getPkps_trace env w contracts sg signerAddress tokens
                Hcontracts Hsigner Haddr Hnonempty Htokens) as (j & Hle & Hcalls & Hall).
    exists j. split; [done|]. split; [done|]. rewrite Hcalls.
    split; [|split; [|done]].
    + rewrite app_assoc.
      assert (Hlen : (4 + length tokens)%nat
                     = length (getPkps_first_calls sg contracts signerAddress
                               ++ map (getPubkey_issued contracts) tokens)).
      { rewrite length_app, length_map. reflexivity. }
      rewrite Hlen, take_app_length. unfold in_flight.
      rewrite in_flight_from_app. unfold getPubkey_issued.
      by rewrite issued_in_flight.
    + intros k. apply Hbound. unfold getPkps_first_calls. repeat constructor.
  - intros ->.
    destruct (perform_getPkps_events env w)
      as (_ & before & contracts & tokens & j & Heq & Hseq).
    exists before, contracts, tokens, j. split; [done|]. split; [done|].
    intros k. rewrite Heq. by apply Hbound.
Qed.

(** [mintPKP] never has two calls in flight; [getPkps], for the two tokens of
    the sample signer, has both [getPubkey] calls in flight at once. *)
Lemma calls_sequential_except_in_getPkps_witness :
  never_concurrent (events_of (perform (MintPKP None)) sample_env (connected_world true))
  /\ in_flight (take 6 (events_of (perform GetPkps) sample_env (contracts_world true)))
     = 2%nat.
Proof.
  split.
  - apply (calls_sequential_except_in_getPkps (MintPKP None)). discriminate.
  - destruct (calls_sequential_except_in_getPkps GetPkps sample_env
                (contracts_world true))
      as (_ & _ & Hget & _).
    edestruct (Hget eq_refl) as (j & _ & _ & Hflight & _);
      [vm_compute; reflexivity | vm_compute; reflexivity | vm_compute; reflexivity
      | discriminate | vm_compute; reflexivity | exact Hflight].
Defined.

(** ** The build script *)

Module Esbuild_properties.
Import Esbuild.

(** *** What a regex matches *)

Inductive lang : regex -> jsstring -> Prop :=
| lang_eps : lang Eps []
| lang_chr c : lang (Chr c) [c]
| lang_class p c : p c = true -> lang (Class p) [c]
| lang_plus p c m :
    p c = true -> Forall (fun c' => p c' = true) m -> lang (Plus p) (c :: m)
| lang_seq r1 r2 m1 m2 : lang r1 m1 -> lang r2 m2 -> lang (Seq r1 r2) (m1 ++ m2).

Lemma lang_chr_inv c m : lang (Chr c) m -> m = [c].
Proof. by inversion 1. Qed.

Lemma lang_class_inv p m : lang (Class p) m -> exists c, m = [c] /\ p c = true.
Proof. inversion 1; eauto. Qed.

Lemma lang_plus_inv p m :
  lang (Plus p) m -> m <> [] /\ Forall (fun c => p c = true) m.
Proof. inversion 1; subst. split; [done|by constructor]. Qed.

Lemma lang_seq_inv r1 r2 m :
  lang (Seq r1 r2) m -> exists m1 m2, m = m1 ++ m2 /\ lang r1 m1 /\ lang r2 m2.
Proof. inversion 1; eauto. Qed.

Lemma greedy_sound p text k out :
  greedy p text k = Some out ->
  exists m rest,
    text = m ++ rest /\ Forall (fun c => p c = true) m /\ k rest = Some out.
Proof.
  induction text as [|c text IH]; simpl.
  - intros Hk. exists [], []. auto.
  - destruct (p c) eqn:Hp.
    + destruct (greedy p text k) as [out'|] eqn:Hg.
      * intros [= ->]. destruct (IH eq_refl) as (m & rest & -> & Hm & Hk).
        exists (c :: m), rest. auto.
      * intros Hk. exists [], (c :: text). auto.
    + intros Hk. exists [], (c :: text). auto.
Qed.

(** Whatever the matcher finds is a word of the regex followed by something
    the continuation accepts. *)
Lemma matcher_sound r text k out :
  matcher r text k = Some out ->
  exists m rest, text = m ++ rest /\ lang r m /\ k rest = Some out.
Proof.
  revert text k out. induction r as [|c|p|p|r1 IH1 r2 IH2]; intros text k out; simpl.
  - intros Hk. exists [], text. split; [done|]. split; [constructor|done].
  - destruct text as [|c' text]; [done|].
    destruct (N.eqb_spec c' c) as [->|]; [|done].
    intros Hk. exists [c], text. split; [done|]. split; [constructor|done].
  - destruct text as [|c' text]; [done|].
    destruct (p c') eqn:Hp; [|done].
    intros Hk. exists [c'], text. split; [done|]. split; [by constructor|done].
  - destruct text as [|c' text]; [done|].
    destruct (p c') eqn:Hp; [|done].
    intros Hg. apply greedy_sound in Hg as (m & rest & -> & Hm & Hk).
    exists (c' :: m), rest. split; [done|]. split; [by constructor|done].
  - intros H. apply IH1 in H as (m1 & rest1 & -> & H1 & H).
    apply IH2 in H as (m2 & rest2 & -> & H2 & Hk).
    exists (m1 ++ m2), rest2. split; [by rewrite app_assoc|].
    split; [by constructor|done].
Qed.

Lemma match_at_sound r text rest :
  match_at r text = Some rest -> exists m, text = m ++ rest /\ lang r m.
Proof.
  intros H. apply matcher_sound in H as (m & rest' & -> & Hm & [= ->]). eauto.
Qed.

Lemma matcher_literal l text k : matcher (literal l) (l ++ text) k = k text.
Proof.
  revert k. induction l as [|c l IH]; intros k; simpl; [done|].
  by rewrite N.eqb_refl, IH.
Qed.

Lemma lang_literal l m : lang (literal l) m -> m = l.
Proof.
  revert m. induction l as [|c l IH]; intros m H; simpl in H.
  - by inversion H.
  - inversion H as [| | | |r1 r2 m1 m2 H1 H2]; subst.
    inversion H1; subst. simpl. f_equal. by apply IH.
Qed.

(** A greedy run stops where the class stops, when what follows matches. *)
Lemma greedy_exact p m rest k out :
  Forall (fun c => p c = true) m ->
  (forall c rest', rest = c :: rest' -> p c = false) ->
  k rest = Some out ->
  greedy p (m ++ rest) k = Some out.
Proof.
  intros Hm Hstop Hk. induction Hm as [|c m Hc Hm IH]; simpl.
  - destruct rest as [|c rest']; simpl; [done|].
    by rewrite (Hstop c rest' eq_refl).
  - by rewrite Hc, IH.
Qed.

(** *** Replacing every match *)

Section Replaced.
Variable hit : jsstring -> jsstring -> Prop.
Variable replacement : jsstring.

(** [replaced text out]: [out] is [text] read from left to right with every
    occurrence replaced; [hit text rest] says that an occurrence starts
    [text] and that [rest] follows it. *)
Inductive replaced : jsstring -> jsstring -> Prop :=
| replaced_end : replaced [] []
| replaced_hit text rest out :
    hit text rest -> replaced rest out -> replaced text (replacement ++ out)
| replaced_keep c text out :
    (forall rest, ~ hit (c :: text) rest) ->
    replaced text out -> replaced (c :: text) (c :: out).

Hypothesis hit_functional :
  forall text rest rest', hit text rest -> hit text rest' -> rest = rest'.
Hypothesis hit_nonempty : forall rest, ~ hit [] rest.

End Replaced.

(** The occurrences the script's [replace] looks for. *)
Definition matches (r : regex) (text rest : jsstring) : Prop :=
  match_at r text = Some rest.

Lemma replace_from_skip r replacement n text :
  match_at r [] = None ->
  (n <= length text)%nat ->
  replace_from r replacement n text = replace_from r replacement 0 (drop n text).
Proof.
  intros Hempty. revert n. induction text as [|c text IH]; intros n Hn; simpl in *.
  - destruct n; [done|lia].
  - destruct n as [|n]; [done|]. simpl. apply IH. lia.
Qed.

(** [replace] replaces every match, from left to right, when the regex
    matches no empty string. *)
Lemma replace_replaced r replacement :
  (forall text rest, match_at r text = Some rest -> (length rest < length text)%nat) ->
  forall text, replaced (matches r) replacement text (replace r replacement text).
Proof.
  intros Hnonempty.
  assert (Hempty : match_at r [] = None).
  { destruct (match_at r []) as [rest|] eqn:H; [|done].
    apply Hnonempty in H. simpl in H. lia. }
  intros text. unfold replace.
  remember (length text) as n eqn:Hn. revert text Hn.
  induction (lt_wf n) as [n _ IH]. intros text ->.
  destruct text as [|c text]; simpl.
  - rewrite Hempty. constructor.
  - destruct (match_at r (c :: text)) as [rest|] eqn:Hm.
    + pose proof (Hnonempty _ _ Hm) as Hlen.
      destruct (match_at_sound _ _ _ Hm) as (m & Heq & _).
      assert (Hdrop : drop (length (c :: text) - length rest) (c :: text) = rest).
      { rewrite Heq at 2. rewrite Heq, length_app.
        replace (length m + length rest - length rest)%nat with (length m) by lia.
        by rewrite drop_app_length. }
      simpl in Hlen, Hdrop.
      destruct (S (length text) - length rest)%nat as [|skip] eqn:Hskip; [lia|].
      rewrite replace_from_skip; [|done|lia].
      simpl in Hdrop. rewrite Hdrop.
      apply replaced_hit with (rest := rest); [exact Hm|].
      apply (IH (length rest)); [simpl; lia | reflexivity].
    + apply replaced_keep.
      * intros rest Hrest. unfold matches in Hrest. congruence.
      * apply (IH (length text)); [simpl; lia | reflexivity].
Qed.

Lemma replaced_ext (hit hit' : jsstring -> jsstring -> Prop) replacement text out :
  (forall t rest, hit t rest <-> hit' t rest) ->
  replaced hit replacement text out -> replaced hit' replacement text out.
Proof.
  intros Hext H. induction H as [|t rest out Hhit H IH|c t out Hno H IH].
  - constructor.
  - apply replaced_hit with (rest := rest); [by apply Hext|done].
  - apply replaced_keep; [|done]. intros rest Hrest. apply (Hno rest). by apply Hext.
Qed.


(** *** The four patterns, in words *)

(** [l] starts [text] and [rest] follows it. *)
Definition occurrence (l : jsstring) (text rest : jsstring) : Prop :=
  text = l ++ rest.

(** [var], one or more blanks, one or more word characters, [=], one or more
    word characters, then the quoted ethers between parentheses and a
    semicolon. *)
Definition minified_require_at (text rest : jsstring) : Prop :=
  exists blanks id1 id2,
    blanks <> [] /\ Forall (fun c => is_space c = true) blanks
    /\ id1 <> [] /\ Forall (fun c => is_word c = true) id1
    /\ id2 <> [] /\ Forall (fun c => is_word c = true) id2
    /\ text = units "var" ++ blanks ++ id1 ++ units "=" ++ id2
                ++ (units "(" ++ quoted_ethers ++ units ");") ++ rest.

(** A single letter, then [.ethers]. *)
Definition letter_dot_ethers_at (text rest : jsstring) : Prop :=
  exists c, is_letter c = true /\ text = c :: units ".ethers" ++ rest.

Lemma matches_literal l text rest :
  matches (literal l) text rest <-> occurrence l text rest.
Proof.
  unfold matches, occurrence. split.
  - intros H. apply match_at_sound in H as (m & -> & Hm).
    by rewrite (lang_literal _ _ Hm).
  - intros ->. unfold match_at. by rewrite matcher_literal.
Qed.

Lemma matches_letter_dot_ethers text rest :
  matches letter_dot_ethers text rest <-> letter_dot_ethers_at text rest.
Proof.
  unfold matches, letter_dot_ethers_at, letter_dot_ethers. split.
  - intros H. apply match_at_sound in H as (m & -> & Hm).
    apply lang_seq_inv in Hm as (m1 & m2 & -> & H1 & H2).
    apply lang_class_inv in H1 as (c & -> & Hc).
    apply lang_literal in H2 as ->. eauto.
  - intros (c & Hc & ->). unfold match_at.
    change (matcher (Seq (Class is_letter) (literal (units ".ethers")))
              (c :: units ".ethers" ++ rest) Some)
      with (if is_letter c
            then matcher (literal (units ".ethers")) (units ".ethers" ++ rest) Some
            else None).
    by rewrite Hc, matcher_literal.
Qed.

Lemma is_word_below c : is_word c = true -> (c < 128)%N.
Proof.
  unfold is_word, is_letter.
  rewrite !orb_true_iff, !andb_true_iff, !N.leb_le, N.eqb_eq. lia.
Qed.

Lemma below_128 c : (c < 128)%N -> In c (map N.of_nat (seq 0 128)).
Proof.
  intros Hc. apply in_map_iff. exists (N.to_nat c). split; [lia|].
  apply in_seq. lia.
Qed.

Lemma is_word_not_space c : is_word c = true -> is_space c = false.
Proof.
  intros Hw.
  assert (Hall : forallb (fun c => implb (is_word c) (negb (is_space c)))
                   (map N.of_nat (seq 0 128)) = true) by (vm_compute; reflexivity).
  rewrite forallb_forall in Hall.
  specialize (Hall c (below_128 c (is_word_below c Hw))).
  rewrite Hw in Hall. simpl in Hall. by destruct (is_space c).
Qed.

Lemma matches_minified_require text rest :
  matches minified_require text rest <-> minified_require_at text rest.
Proof.
  unfold matches, minified_require_at, minified_require. split.
  - intros H. apply match_at_sound in H as (m & -> & Hm).
    apply lang_seq_inv in Hm as (var & m1 & -> & Hvar & H1).
    apply lang_literal in Hvar as ->.
    apply lang_seq_inv in H1 as (blanks & m2 & -> & Hblanks & H2).
    apply lang_plus_inv in Hblanks as [Hb Hbs].
    apply lang_seq_inv in H2 as (id1 & m3 & -> & Hid1 & H3).
    apply lang_plus_inv in Hid1 as [Hi His].
    apply lang_seq_inv in H3 as (eq & m4 & -> & Heq & H4).
    apply lang_chr_inv in Heq as ->.
    apply lang_seq_inv in H4 as (id2 & tail & -> & Hid2 & Htail).
    apply lang_plus_inv in Hid2 as [Hj Hjs].
    apply lang_literal in Htail as ->.
    exists blanks, id1, id2.
    repeat split; try done.
    by rewrite <- !app_assoc.
  - intros (blanks & id1 & id2 & Hb & Hbs & Hi & His & Hj & Hjs & ->).
    destruct blanks as [|b blanks]; [done|].
    destruct id1 as [|i id1]; [done|].
    destruct id2 as [|j id2]; [done|].
    apply Forall_cons in Hbs as [Hb1 Hbs].
    apply Forall_cons in His as [Hi1 His].
    apply Forall_cons in Hjs as [Hj1 Hjs].
    unfold match_at. cbn [matcher]. rewrite matcher_literal.
    cbn [app]. rewrite Hb1.
    apply greedy_exact; [done| |].
    { intros c rest' [= <- _]. by apply is_word_not_space. }
    rewrite Hi1.
    apply greedy_exact; [done| |].
    { intros c rest' [= <- _]. vm_compute. reflexivity. }
    change (units "=" ++ ?x) with (61%N :: x). cbv beta iota.
    rewrite N.eqb_refl, Hj1.
    apply greedy_exact; [done| |].
    { intros c rest' [= <- _]. vm_compute. reflexivity. }
    apply matcher_literal.
Qed.


(** None of the four regexes matches the empty string. *)
Lemma occurrence_shorter l text rest :
  l <> [] -> occurrence l text rest -> (length rest < length text)%nat.
Proof.
  intros Hl ->. rewrite length_app. destruct l; [done|]. simpl. lia.
Qed.

Lemma minified_require_shorter text rest :
  minified_require_at text rest -> (length rest < length text)%nat.
Proof.
  intros (blanks & id1 & id2 & _ & _ & _ & _ & _ & _ & ->).
  rewrite !length_app. simpl. lia.
Qed.

Lemma letter_dot_ethers_shorter text rest :
  letter_dot_ethers_at text rest -> (length rest < length text)%nat.
Proof.
  intros (c & _ & ->).
  change (c :: units ".ethers" ++ rest) with ((c :: units ".ethers") ++ rest).
  rewrite length_app. simpl. lia.
Qed.

(** [out] is [text] with every occurrence of the literal [l] deleted. *)
Definition every_occurrence_deleted (l : jsstring) (text out : jsstring) : Prop :=
  replaced (occurrence l) [] text out.

(** The text of the bundle after the four transformations, one after the
    other. *)
Definition transformed (text out : jsstring) : Prop :=
  exists t1 t2 t3,
    every_occurrence_deleted require_ethers_text text t1
    /\ every_occurrence_deleted import_ethers_dot_text t1 t2
    /\ replaced minified_require_at [] t2 t3
    /\ replaced letter_dot_ethers_at (units "ethers") t3 out.

Lemma replace_literal_deletes l text :
  l <> [] -> every_occurrence_deleted l text (replace (literal l) [] text).
Proof.
  intros Hl. apply (replaced_ext (matches (literal l))); [apply matches_literal|].
  apply replace_replaced. intros t rest H.
  apply (occurrence_shorter l); [done | by apply matches_literal].
Qed.

Lemma content_transformed text : transformed text (content text).
Proof.
  unfold content.
  eexists _, _, _. split; [|split; [|split]].
  - by apply replace_literal_deletes.
  - by apply replace_literal_deletes.
  - apply (replaced_ext (matches minified_require)); [apply matches_minified_require|].
    apply replace_replaced. intros t rest H.
    by apply minified_require_shorter, matches_minified_require.
  - apply (replaced_ext (matches letter_dot_ethers)); [apply matches_letter_dot_ethers|].
    apply replace_replaced. intros t rest H.
    by apply letter_dot_ethers_shorter, matches_letter_dot_ethers.
Qed.



(** A minified bundle: the require of ethers into [t], then
    [t.ethers.utils]. *)
Definition sample_bundle : jsstring :=
  units "var t=o(" ++ quoted_ethers ++ units ");t.ethers.utils".

Example content_sample_bundle : content sample_bundle = units "ethers.utils".
Proof. vm_compute. reflexivity. Qed.

Example JSON_stringify_escapes :
  JSON_stringify
    (units "a" ++ [dquote; backslash; newline; 1%N; 55357%N; 56832%N; 56832%N])
  = dquote :: units "a"
    ++ [backslash; dquote; backslash; backslash; backslash] ++ units "n"
    ++ backslash :: units "u0001"
    ++ [55357%N; 56832%N]
    ++ backslash :: units "ude00" ++ [dquote].
Proof. vm_compute. reflexivity. Qed.





End Esbuild_properties.
(** * Further properties of the class *)

(** ** The constructor *)

(** X1: the constructor throws ['Network is required'] when it is given no
    network (or an empty one). Otherwise it builds an instance that keeps the
    network, has neither client nor contracts, no recorded duration and an
    empty cache; its RPC url is the one given or, when none is given, the
    entry of the network in [RPC_URL_BY_NETWORK]; and under Node.js a signer
    that was given is kept with its account, connected to a provider on that
    url. *)
Theorem constructor_builds_fresh_instance :
  forall env params,
    (truthy (cp_network params) = false ->
       constructor env params = Throw (Error "Network is required"))
    /\ (truthy (cp_network params) = true ->
          exists b,
            constructor env params = Ok b
            /\ network b = cp_network params
            /\ litNodeClient b = None
            /\ litContracts b = None
            /\ executionTimes b = []
            /\ ms (getTotalExecutionTime b) = 0
            /\ (forall fn oid, getOutput b fn oid = None)
            /\ (truthy (cp_rpc params) = true -> rpc b = cp_rpc params)
            /\ (truthy (cp_rpc params) = false ->
                  rpc b = RPC_URL_BY_NETWORK env (default "undefined" (cp_network params)))
            /\ (cp_signer params = None -> signer b = None)
            /\ (forall sg, cp_signer params = Some sg -> window env = None ->
                  signer b = Some {| account := account sg;
                                     provider := Some {| url := rpc b |} |})).
Proof.
  intros env params. unfold constructor. split; intros Hn; rewrite Hn; simpl; [done|].
  eexists. split; [reflexivity|]. simpl.
  repeat split; try done.
  - intros Hr. by rewrite Hr.
  - intros Hr. by rewrite Hr.
  - intros ->. done.
  - intros sg -> Hw. simpl. unfold attach_signer. by rewrite Hw.
Qed.

Lemma constructor_builds_fresh_instance_witness :
  exists b,
    constructor sample_env
      {| cp_network := Some "datil"; cp_debug := None; cp_litDebug := None;
         cp_guides := None; cp_signer := Some sample_signer; cp_rpc := None |}
    = Ok b
    /\ signer b = Some {| account := "0xa11ce";
                          provider := Some {| url := Some "https://yellowstone-rpc.litprotocol.com" |} |}.
Proof.
  destruct (constructor_builds_fresh_instance sample_env
              {| cp_network := Some "datil"; cp_debug := None; cp_litDebug := None;
                 cp_guides := None; cp_signer := Some sample_signer; cp_rpc := None |})
    as [_ H].
  destruct (H eq_refl) as (b & Hb & _ & _ & _ & _ & _ & _ & _ & Hrpc & _ & Hsg).
  exists b. split; [exact Hb|].
  rewrite (Hsg sample_signer eq_refl eq_refl), (Hrpc eq_refl). reflexivity.
Defined.

(** ** What operations keep *)

(** The settings of the instance are the same, and what was connected or
    configured still is. *)
Definition keeps_settings : relation World := fun w w' =>
  network (this w') = network (this w)
  /\ rpc (this w') = rpc (this w)
  /\ debug (this w') = debug (this w)
  /\ litDebug (this w') = litDebug (this w)
  /\ guides (this w') = guides (this w)
  /\ (is_Some (litNodeClient (this w)) -> is_Some (litNodeClient (this w')))
  /\ (is_Some (litContracts (this w)) -> is_Some (litContracts (this w')))
  /\ (is_Some (signer (this w)) -> is_Some (signer (this w'))).

#[global] Instance keeps_settings_preorder : PreOrder keeps_settings.
Proof.
  split.
  - intros w. unfold keeps_settings. tauto.
  - intros w1 w2 w3 (H1 & H2 & H3 & H4 & H5 & H6 & H7 & H8)
                    (K1 & K2 & K3 & K4 & K5 & K6 & K7 & K8).
    unfold keeps_settings. repeat split; try congruence; auto.
Qed.

#[global] Instance keeps_settings_log : LogInsensitive keeps_settings.
Proof. intros w evs. unfold keeps_settings. simpl. tauto. Qed.

Lemma perform_keeps_settings op : framed keeps_settings (perform op).
Proof.
  destruct op; simpl; unfold_operations; unfold _run;
    repeat framed_call_step;
    (intros env w; unfold keeps_settings; simpl; repeat split; try done; eauto).
Qed.

Lemma perform_all_keeps_settings ops : framed keeps_settings (perform_all ops).
Proof.
  induction ops as [|op ops IH]; simpl.
  - apply framed_ret. typeclasses eauto.
  - apply framed_bind; [typeclasses eauto | apply perform_keeps_settings | done].
Qed.

(** The outcome of the requirement check, read off the instance. *)
Lemma checkRequirements_passes fn env w :
  (_checkRequirements fn env w).1 = Ok tt <->
  match fn with
  | FN.connectToLitNodeClient | FN.connectToLitContracts =>
      truthy (network (this w)) = true
  | FN.mintPKP | FN.mintCreditsNFT | FN.getPkps =>
      is_Some (litContracts (this w)) /\ is_Some (signer (this w))
  | FN.grantAuthMethodToUsePKP =>
      is_Some (litContracts (this w)) /\ is_Some (signer (this w))
      /\ is_Some (litNodeClient (this w))
  | FN.createAccessToken => is_Some (litNodeClient (this w))
  | _ => True
  end.
Proof.
  destruct w as [[d ld g n client contracts sg r times outs] lg ck].
  destruct fn; unfold_checks; unfold_M; simpl;
    try (destruct (truthy n)); try (destruct contracts); try (destruct sg);
    try (destruct client); simpl;
    split; intros H; try done; try (repeat split; eauto);
    try (by destruct H as [[? [=]] _]);
    try (by destruct H as (_ & [? [=]] & _));
    try (by destruct H as (_ & _ & [? [=]]));
    try (by destruct H as [_ [? [=]]]);
    try (by destruct H as [? [=]]).
Qed.

(** X2: no operation, and no sequence of operations, changes the network,
    the RPC url or the three flags of the instance, and none unsets the
    client, the contracts or the signer. So a requirement check that passes
    keeps passing: whatever operations run in between, succeed or fail, the
    step [fn] whose requirements were met is not refused later for a
    requirement. *)
Theorem requirements_once_met_stay_met :
  forall ops env w,
    let w' := (perform_all ops env w).2 in
    network (this w') = network (this w)
    /\ rpc (this w') = rpc (this w)
    /\ debug (this w') = debug (this w)
    /\ litDebug (this w') = litDebug (this w)
    /\ guides (this w') = guides (this w)
    /\ (forall fn env',
          (_checkRequirements fn env w).1 = Ok tt ->
          (_checkRequirements fn env' w').1 = Ok tt)
    /\ (is_Some (litNodeClient (this w)) -> is_Some (litNodeClient (this w')))
    /\ (is_Some (litContracts (this w)) -> is_Some (litContracts (this w')))
    /\ (is_Some (signer (this w)) -> is_Some (signer (this w'))).
Proof.
  intros ops env w w'.
  destruct (perform_all_keeps_settings ops env w)
    as (H1 & H2 & H3 & H4 & H5 & H6 & H7 & H8).
  fold w' in H1, H2, H3, H4, H5, H6, H7, H8.
  repeat split; try done.
  intros fn env'. rewrite !checkRequirements_passes.
  destruct fn; rewrite ?H1; tauto.
Qed.

Lemma requirements_once_met_stay_met_witness :
  (_checkRequirements FN.mintPKP sample_env
     (perform_all [mint_credits_without_numbers; MintPKP None] sample_env
        (contracts_world true)).2).1 = Ok tt.
Proof.
  destruct (requirements_once_met_stay_met
              [mint_credits_without_numbers; MintPKP None] sample_env
              (contracts_world true))
    as (_ & _ & _ & _ & _ & Hkeep & _).
  apply (Hkeep FN.mintPKP sample_env). vm_compute. reflexivity.
Defined.

(** ** Connecting *)

(** X3: with a network set, [connectToLitNodeClient] makes one SDK call, the
    [connect] of a client built from the network, the [litDebug] flag and
    the RPC url of the instance, and the instance holds that client
    afterwards whether the call resolved or not. When it resolves the
    operation succeeds and the client is in the cache; when it rejects the
    operation throws the prefixed error and the cache is as it was, but the
    requirement of a client is met from then on. A call rejected with
    [null] or [undefined] has no message to prefix: the operation then
    throws the [TypeError] of reading it, without the step name. *)
Theorem connectToLitNodeClient_sets_client_before_connecting :
  forall params env w,
    truthy (network (this w)) = true ->
    let client := {| lnc_litNetwork := network (this w);
                     lnc_debug := litDebug (this w);
                     lnc_rpcUrl := rpc (this w) |} in
    let run := perform (ConnectToLitNodeClient params) env w in
    litNodeClient (this run.2) = Some client
    /\ events_of (perform (ConnectToLitNodeClient params)) env w
       = [Issued (LitNodeClient_connect client); Settled (LitNodeClient_connect client)]
    /\ (_checkRequirements FN.createAccessToken env run.2).1 = Ok tt
    /\ match vendor env (length (log w)) (LitNodeClient_connect client) with
       | Ok _ =>
           run.1 = Ok ReturnedThis
           /\ getOutput (this run.2) FN.connectToLitNodeClient (params ≫= outputId)
              = Some (VLitNodeClient client)
       | Throw e =>
           run.1 = Throw (Error ("Error in LitNodeClient connection: " +:+ message e))
           /\ outputs (this run.2) = outputs (this w)
       | ThrowNullish v =>
           run.1 = Throw (TypeError (cannot_read_of env v "message"))
           /\ outputs (this run.2) = outputs (this w)
       end.
Proof.
  intros params env w Hn client run. subst client run.
  destruct w as [[d ld g n client contracts sg r times outs] lg ck].
  simpl in Hn.
  rewrite (events_of_eq _ _ _
             [Issued (LitNodeClient_connect
                        {| lnc_litNetwork := n; lnc_debug := ld; lnc_rpcUrl := r |});
              Settled (LitNodeClient_connect
                         {| lnc_litNetwork := n; lnc_debug := ld; lnc_rpcUrl := r |})]).
  - unfold perform. rewrite then_ret. unfold connectToLitNodeClient.
    rewrite run_unfold. unfold_checks. unfold_M. simpl. rewrite Hn. simpl.
    destruct (vendor env (length lg) _) as [[]|e|v]; simpl;
      repeat split; try done.
    unfold getOutput, _setOutput. simpl. apply lookup_insert_eq.
  - unfold perform. rewrite then_ret. unfold connectToLitNodeClient.
    rewrite run_unfold. unfold_checks. unfold_M. simpl. rewrite Hn. simpl.
    destruct (vendor env (length lg) _) as [[]|e|v]; simpl; by rewrite <- app_assoc.
Qed.

(** An environment in which every SDK call is rejected. *)
Definition offline_env : Env :=
  {| now := now sample_env;
     vendor := fun _ _ => Throw (Error "network down");
     window := None;
     RPC_URL_BY_NETWORK := RPC_URL_BY_NETWORK sample_env;
     blockExplorerUrl := blockExplorerUrl sample_env;
     BigNumber_toString := BigNumber_toString sample_env;
     BigNumber_toHexString := BigNumber_toHexString sample_env;
     parseEther := parseEther sample_env;
     computeAddress := computeAddress sample_env;
     base64 := base64 sample_env;
     cannot_read := cannot_read sample_env;
     cannot_read_null := cannot_read_null sample_env |}.

Lemma connectToLitNodeClient_sets_client_before_connecting_witness :
  (perform (ConnectToLitNodeClient None) offline_env (start (sample_bulkie true))).1
  = Throw (Error "Error in LitNodeClient connection: network down")
  /\ (_checkRequirements FN.createAccessToken offline_env
        (perform (ConnectToLitNodeClient None) offline_env
           (start (sample_bulkie true))).2).1 = Ok tt.
Proof.
  destruct (connectToLitNodeClient_sets_client_before_connecting None offline_env
              (start (sample_bulkie true)) eq_refl)
    as (_ & _ & Hcheck & Hrun).
  split; [|exact Hcheck].
  exact (proj1 Hrun).
Defined.

(** X4: with a network set, [connectToLitContracts] re-attaches the signer
    and looks up its address and its balance inside a [try]: a lookup that
    is rejected with an error object does not fail the operation (the
    balance is then not looked up), but one rejected with [null] or
    [undefined] does, because the handler reads the message of what it
    caught; the operation then throws the [TypeError] of that reading behind
    its name, and the contracts are neither built nor connected. Past the
    lookups the instance holds the contracts, built on its own signer, and
    the outcome is that of their [connect] call: cached when it resolves,
    the prefixed error when it is rejected with an error, the bare
    [TypeError] when it is rejected with [null] or [undefined]; the
    contracts stay on the instance in all three cases. *)
Theorem connectToLitContracts_ignores_signer_lookups :
  forall params env w,
    truthy (network (this w)) = true ->
    let run := perform (ConnectToLitContracts params) env w in
    let attached := attach_signer env (rpc (this w)) <$> signer (this w) in
    let contracts := {| lc_debug := litDebug (this w);
                        lc_network := network (this w);
                        lc_signer := attached;
                        lc_rpc := rpc (this w) |} in
    let stopped v :=
      run.1 = Throw (Error ("Error in LitContracts connection: "
                            +:+ cannot_read_of env v "message"))
      /\ litContracts (this run.2) = litContracts (this w)
      /\ outputs (this run.2) = outputs (this w) in
    let connected calls :=
      litContracts (this run.2) = Some contracts
      /\ match vendor env (length (log w) + calls) (LitContracts_connect contracts) with
         | Ok _ =>
             run.1 = Ok ReturnedThis
             /\ getOutput (this run.2) FN.connectToLitContracts (params ≫= outputId)
                = Some (VLitContracts contracts)
         | Throw e =>
             run.1 = Throw (Error ("Error in LitContracts connection: " +:+ message e))
             /\ outputs (this run.2) = outputs (this w)
         | ThrowNullish v =>
             run.1 = Throw (TypeError (cannot_read_of env v "message"))
             /\ outputs (this run.2) = outputs (this w)
         end in
    signer (this run.2) = attached
    /\ match attached with
       | None => connected 0%nat
       | Some sg =>
           match vendor env (length (log w)) (Signer_getAddress sg) with
           | ThrowNullish v => stopped v
           | Throw _ => connected 2%nat
           | Ok _ =>
               match vendor env (length (log w) + 2) (Signer_getBalance sg) with
               | ThrowNullish v => stopped v
               | _ => connected 4%nat
               end
           end
       end.
Proof.
  intros params env w Hn run attached contracts stopped connected.
  subst run attached contracts stopped connected.
  destruct w as [[d ld g n client contracts sg r times outs] lg ck].
  simpl in Hn. unfold perform. rewrite then_ret. unfold connectToLitContracts.
  rewrite run_unfold. unfold_checks. unfold_M. simpl. rewrite Hn. simpl.
  destruct sg as [sg|]; simpl.
  - destruct (vendor env (length lg) (Signer_getAddress _)) as [addr|e1|v1]; simpl.
    + rewrite !length_app. simpl.
      replace (length lg + 1 + 1)%nat with (length lg + 2)%nat by lia.
      destruct (vendor env _ (Signer_getBalance _)) as [bal|e2|v2]; simpl;
        [| |done];
        rewrite !length_app; simpl;
        replace (length lg + 1 + 1 + 1 + 1)%nat with (length lg + 4)%nat by lia;
        destruct (vendor env _ (LitContracts_connect _)) as [[]|e3|v3]; simpl;
        repeat split; try done;
        unfold getOutput, _setOutput; simpl; apply lookup_insert_eq.
    + rewrite !length_app. simpl.
      replace (length lg + 1 + 1)%nat with (length lg + 2)%nat by lia.
      destruct (vendor env _ (LitContracts_connect _)) as [[]|e3|v3]; simpl;
        repeat split; try done;
        unfold getOutput, _setOutput; simpl; apply lookup_insert_eq.
    + done.
  - rewrite Nat.add_0_r.
    destruct (vendor env _ (LitContracts_connect _)) as [[]|e3|v3]; simpl;
      repeat split; try done;
      unfold getOutput, _setOutput; simpl; apply lookup_insert_eq.
Qed.

(** An environment in which the lookups on the signer are rejected and
    every other SDK call resolves. *)
Definition flaky_signer_env : Env :=
  {| now := now sample_env;
     vendor := fun _ c =>
       match c as c0 return Res (reply c0) with
       | Signer_getAddress _ => Throw (Error "no provider")
       | Signer_getBalance _ => Throw (Error "no provider")
       | Signer_sendTransaction _ _ _ => Throw (Error "insufficient funds")
       | c0 => Ok (sample_reply c0)
       end;
     window := None;
     RPC_URL_BY_NETWORK := RPC_URL_BY_NETWORK sample_env;
     blockExplorerUrl := blockExplorerUrl sample_env;
     BigNumber_toString := BigNumber_toString sample_env;
     BigNumber_toHexString := BigNumber_toHexString sample_env;
     parseEther := parseEther sample_env;
     computeAddress := computeAddress sample_env;
     base64 := base64 sample_env;
     cannot_read := cannot_read sample_env;
     cannot_read_null := cannot_read_null sample_env |}.

(** An environment in which the address of the signer is looked up in vain,
    rejected with [undefined]. *)
Definition undefined_address_env : Env :=
  {| now := now sample_env;
     vendor := fun _ c =>
       match c as c0 return Res (reply c0) with
       | Signer_getAddress _ => ThrowNullish JsUndefined
       | c0 => Ok (sample_reply c0)
       end;
     window := None;
     RPC_URL_BY_NETWORK := RPC_URL_BY_NETWORK sample_env;
     blockExplorerUrl := blockExplorerUrl sample_env;
     BigNumber_toString := BigNumber_toString sample_env;
     BigNumber_toHexString := BigNumber_toHexString sample_env;
     parseEther := parseEther sample_env;
     computeAddress := computeAddress sample_env;
     base64 := base64 sample_env;
     cannot_read := cannot_read sample_env;
     cannot_read_null := cannot_read_null sample_env |}.

Lemma connectToLitContracts_ignores_signer_lookups_witness :
  (perform (ConnectToLitContracts None) flaky_signer_env
     (start (sample_bulkie true))).1 = Ok ReturnedThis
  /\ (perform (ConnectToLitContracts None) undefined_address_env
        (start (sample_bulkie true))).1
     = Throw (Error ("Error in LitContracts connection: "
                     +:+ "Cannot read properties of undefined (reading 'message')")).
Proof.
  split.
  - destruct (connectToLitContracts_ignores_signer_lookups None flaky_signer_env
                (start (sample_bulkie true)) eq_refl)
      as (_ & _ & Hok & _).
    exact Hok.
  - destruct (connectToLitContracts_ignores_signer_lookups None undefined_address_env
                (start (sample_bulkie true)) eq_refl)
      as (_ & Hstopped & _).
    exact Hstopped.
Defined.

(** ** Minting *)

(** X5: with contracts and a signer set and without self-funding, [mintPKP]
    makes one SDK call, [mint]. When it resolves, the explorer of the network
    is known and the token id converts to decimal, the operation succeeds and
    caches the PKP: the token id as minted and in decimal, the public key with
    ['0x'] put before it, the address, and the transaction hash with its
    explorer link, the explorer url followed by ['tx/'] and the hash. *)
Theorem mintPKP_caches_minted_pkp :
  forall params env w contracts sg res explorerUrl decimalTokenId,
    litContracts (this w) = Some contracts ->
    signer (this w) = Some sg ->
    default false (params ≫= mint_selfFund) = false ->
    vendor env (length (log w)) (PkpNft_mint contracts) = Ok res ->
    blockExplorerUrl env (default "undefined" (network (this w))) = Some explorerUrl ->
    BigNumber_toString env (res_pkp_tokenId res) = Ok decimalTokenId ->
    let run := perform (MintPKP params) env w in
    run.1 = Ok ReturnedThis
    /\ events_of (perform (MintPKP params)) env w
       = [Issued (PkpNft_mint contracts); Settled (PkpNft_mint contracts)]
    /\ getOutput (this run.2) FN.mintPKP (params ≫= mint_outputId)
       = Some (VMintedPKP
                 {| mp_tokenId := {| hex := res_pkp_tokenId res;
                                     decimal := decimalTokenId |};
                    mp_publicKey := "0x" +:+ res_pkp_publicKey res;
                    mp_ethAddress := res_pkp_ethAddress res;
                    mp_tx := {| hash := res_tx_hash res;
                                explorer := explorerUrl +:+ "tx/" +:+ res_tx_hash res |} |}).
Proof.
  intros params env w contracts sg res explorerUrl decimalTokenId
    Hc Hs Hfund Hmint Hurl Hdec run. subst run.
  destruct w as [[d ld g n client contracts' sg' r times outs] lg ck].
  simpl in Hc, Hs, Hmint, Hurl. subst contracts' sg'.
  rewrite (events_of_eq _ _ _
             [Issued (PkpNft_mint contracts); Settled (PkpNft_mint contracts)]).
  - unfold perform. rewrite then_ret. unfold mintPKP. rewrite run_unfold.
    unfold_checks. unfold_M. simpl. rewrite Hmint, Hurl, Hdec, Hfund. simpl.
    repeat split; try done.
    unfold getOutput, _setOutput. simpl. apply lookup_insert_eq.
  - unfold perform. rewrite then_ret. unfold mintPKP. rewrite run_unfold.
    unfold_checks. unfold_M. simpl. rewrite Hmint, Hurl, Hdec, Hfund. simpl.
    by rewrite <- app_assoc.
Qed.

Lemma mintPKP_caches_minted_pkp_witness :
  getOutput (this (perform (MintPKP None) sample_env (contracts_world true)).2)
    FN.mintPKP None
  = Some (VMintedPKP
            {| mp_tokenId := {| hex := "0x10"; decimal := "0x10" |};
               mp_publicKey := "0x04aa";
               mp_ethAddress := "0xe1";
               mp_tx := {| hash := "0xabc";
                           explorer := "https://yellowstone-explorer.litprotocol.com/tx/0xabc" |} |}).
Proof.
  edestruct (mintPKP_caches_minted_pkp None sample_env (contracts_world true))
    as (_ & _ & Hcached);
    [vm_compute; reflexivity | vm_compute; reflexivity | reflexivity
    | reflexivity | reflexivity | reflexivity | exact Hcached].
Defined.

(** What a step threw, if it did. *)
Definition when_resolved {A} (step : Res A) (failed : Thrown -> Prop)
    (next : A -> Prop) : Prop :=
  match step with
  | Ok a => next a
  | Throw e => failed (ThrownError e)
  | ThrowNullish v => failed (ThrownNullish v)
  end.

Ltac count_calls :=
  rewrite ?length_app; cbn [length]; rewrite <- ?Nat.add_assoc; cbn [Nat.add].

(** X6: when [mintPKP] is asked to fund the PKP, the funding goes through
    five steps after the PKP was minted: the amount is parsed, the transfer
    is sent, its receipt is awaited, and the balance of the PKP (when the
    signer has a provider) and that of the signer are read. The first step
    that fails makes the operation throw an error whose message is
    ['Error in Mint PKP: Error funding PKP: '] followed by what was thrown,
    as a string, and nothing is cached: the PKP exists, the [mint] call has
    settled, and [getOutput] does not know it. When all five resolve the
    operation succeeds and the PKP is cached. *)
Theorem mintPKP_funding_failure_loses_pkp :
  forall params env w contracts sg res explorerUrl decimalTokenId,
    litContracts (this w) = Some contracts ->
    signer (this w) = Some sg ->
    default false (params ≫= mint_selfFund) = true ->
    vendor env (length (log w)) (PkpNft_mint contracts) = Ok res ->
    blockExplorerUrl env (default "undefined" (network (this w))) = Some explorerUrl ->
    BigNumber_toString env (res_pkp_tokenId res) = Ok decimalTokenId ->
    let run := perform (MintPKP params) env w in
    let amountInEth :=
      if truthy (params ≫= mint_amountInEth)
      then default "" (params ≫= mint_amountInEth) else "0.001" in
    let calls := length (log w) in
    let failed cause :=
      run.1 = Throw (Error ("Error in Mint PKP: Error funding PKP: "
                            +:+ Thrown_toString cause))
      /\ outputs (this run.2) = outputs (this w)
      /\ exists tr,
           log run.2 = log w ++ Issued (PkpNft_mint contracts)
                               :: Settled (PkpNft_mint contracts) :: tr in
    let funded :=
      run.1 = Ok ReturnedThis
      /\ getOutput (this run.2) FN.mintPKP (params ≫= mint_outputId)
         = Some (VMintedPKP
                   {| mp_tokenId := {| hex := res_pkp_tokenId res;
                                       decimal := decimalTokenId |};
                      mp_publicKey := "0x" +:+ res_pkp_publicKey res;
                      mp_ethAddress := res_pkp_ethAddress res;
                      mp_tx := {| hash := res_tx_hash res;
                                  explorer := explorerUrl +:+ "tx/" +:+ res_tx_hash res |} |}) in
    when_resolved (parseEther env amountInEth) failed (fun value =>
    when_resolved
      (vendor env (calls + 2) (Signer_sendTransaction sg (res_pkp_ethAddress res) value))
      failed (fun txHash =>
    when_resolved (vendor env (calls + 4) (Tx_wait txHash)) failed (fun _ =>
    match provider sg with
    | Some p =>
        when_resolved
          (vendor env (calls + 6) (Provider_getBalance p (res_pkp_ethAddress res)))
          failed (fun _ =>
        when_resolved (vendor env (calls + 8) (Signer_getBalance sg)) failed
          (fun _ => funded))
    | None =>
        when_resolved (vendor env (calls + 6) (Signer_getBalance sg)) failed
          (fun _ => funded)
    end))).
Proof.
  intros params env w contracts sg res explorerUrl decimalTokenId
    Hc Hs Hfund Hmint Hurl Hdec. cbv zeta.
  destruct w as [[d ld g n client contracts' sg' r times outs] lg ck].
  simpl in Hc, Hs, Hmint, Hurl. subst contracts' sg'.
  unfold perform. rewrite then_ret. unfold mintPKP. rewrite run_unfold.
  unfold_checks. unfold_M. simpl. rewrite Hmint, Hurl, Hdec, Hfund. simpl.
  assert (Hcached : forall b v oid, getOutput (_setOutput FN.mintPKP v oid b) FN.mintPKP oid
                                    = Some v)
    by (intros; apply getOutput_setOutput_same).
  unfold when_resolved.
  destruct (parseEther env _) as [value|e|v]; simpl;
    [|split; [done|]; split; [done|]; eexists; rewrite <- ?app_assoc; reflexivity..].
  count_calls.
  destruct (vendor env (length lg + 2) _) as [txHash|e|v]; simpl;
    [|split; [done|]; split; [done|]; eexists; rewrite <- ?app_assoc; reflexivity..].
  count_calls.
  destruct (vendor env (length lg + 4) _) as [receipt|e|v]; simpl;
    [|split; [done|]; split; [done|]; eexists; rewrite <- ?app_assoc; reflexivity..].
  destruct (provider sg) as [p|]; simpl.
  - count_calls.
    destruct (vendor env (length lg + 6) _) as [pkpBalance|e|v]; simpl;
      [|split; [done|]; split; [done|]; eexists; rewrite <- ?app_assoc; reflexivity..].
    count_calls.
    destruct (vendor env (length lg + 8) _) as [signerBalance|e|v]; simpl;
      [|split; [done|]; split; [done|]; eexists; rewrite <- ?app_assoc; reflexivity..].
    split; [done|]. apply Hcached.
  - count_calls.
    destruct (vendor env (length lg + 6) _) as [signerBalance|e|v]; simpl;
      [|split; [done|]; split; [done|]; eexists; rewrite <- ?app_assoc; reflexivity..].
    split; [done|]. apply Hcached.
Qed.

(** [{ selfFund: true, amountInEth: '0.0001' }] *)
Definition self_funded : option MintPKPParams :=
  Some {| mint_selfFund := Some true; mint_amountInEth := Some "0.0001";
          mint_outputId := None |}.

(** An environment in which the receipt of a transfer never comes: waiting
    for it is rejected with [null]. *)
Definition lost_receipt_env : Env :=
  {| now := now sample_env;
     vendor := fun _ c =>
       match c as c0 return Res (reply c0) with
       | Tx_wait _ => ThrowNullish JsNull
       | c0 => Ok (sample_reply c0)
       end;
     window := None;
     RPC_URL_BY_NETWORK := RPC_URL_BY_NETWORK sample_env;
     blockExplorerUrl := blockExplorerUrl sample_env;
     BigNumber_toString := BigNumber_toString sample_env;
     BigNumber_toHexString := BigNumber_toHexString sample_env;
     parseEther := parseEther sample_env;
     computeAddress := computeAddress sample_env;
     base64 := base64 sample_env;
     cannot_read := cannot_read sample_env;
     cannot_read_null := cannot_read_null sample_env |}.

(** A rejected transfer and a receipt that never comes both lose the PKP
    that was minted; when the five steps resolve the PKP is cached. *)
Lemma mintPKP_funding_failure_loses_pkp_witness :
  ((perform (MintPKP self_funded) flaky_signer_env (contracts_world true)).1
   = Throw (Error "Error in Mint PKP: Error funding PKP: Error: insufficient funds")
   /\ getOutput (this (perform (MintPKP self_funded) flaky_signer_env
                         (contracts_world true)).2) FN.mintPKP None
      = None)
  /\ ((perform (MintPKP self_funded) lost_receipt_env (contracts_world true)).1
      = Throw (Error "Error in Mint PKP: Error funding PKP: null")
      /\ getOutput (this (perform (MintPKP self_funded) lost_receipt_env
                            (contracts_world true)).2) FN.mintPKP None
         = None)
  /\ (perform (MintPKP self_funded) sample_env (contracts_world true)).1
     = Ok ReturnedThis.
Proof.
  split; [|split].
  - edestruct (mintPKP_funding_failure_loses_pkp self_funded flaky_signer_env
                 (contracts_world true))
      as (Hthrown & Houtputs & _);
      [vm_compute; reflexivity | vm_compute; reflexivity | reflexivity
      | reflexivity | reflexivity | reflexivity |].
    split; [exact Hthrown|].
    unfold getOutput. rewrite Houtputs. vm_compute. reflexivity.
  - edestruct (mintPKP_funding_failure_loses_pkp self_funded lost_receipt_env
                 (contracts_world true))
      as (Hthrown & Houtputs & _);
      [vm_compute; reflexivity | vm_compute; reflexivity | reflexivity
      | reflexivity | reflexivity | reflexivity |].
    split; [exact Hthrown|].
    unfold getOutput. rewrite Houtputs. vm_compute. reflexivity.
  - eassert (Hc : litContracts (this (contracts_world true)) = Some _)
      by (vm_compute; reflexivity).
    eassert (Hs : signer (this (contracts_world true)) = Some _)
      by (vm_compute; reflexivity).
    eassert (Hmint : vendor sample_env (length (log (contracts_world true)))
                       (PkpNft_mint _) = Ok _) by reflexivity.
    eassert (Hurl : blockExplorerUrl sample_env
                      (default "undefined" (network (this (contracts_world true))))
                    = Some _) by reflexivity.
    eassert (Hdec : BigNumber_toString sample_env _ = Ok _) by reflexivity.
    destruct (mintPKP_funding_failure_loses_pkp self_funded sample_env
                (contracts_world true) _ _ _ _ _ Hc Hs eq_refl Hmint Hurl Hdec)
      as (Hfunded & _).
    exact Hfunded.
Defined.

(** ** Tokens *)

(** The optional arguments of [createCapacityDelegationAuthSig]. *)
Definition delegation_call (params : CreateCreditsDelegationTokenParams)
    (client : LitNodeClient) (sg : Signer) : VendorCall :=
  LitNodeClient_createCapacityDelegationAuthSig client
    (if truthy (expiry params) then expiry params else None)
    sg (creditsTokenId params)
    (match delegatees params with
     | Some (_ :: _) => delegatees params
     | _ => None
     end).

(** X7: [createCreditsDelegationToken] has no requirement check of its own
    kind: it needs neither contracts nor a network. Without a signer it
    throws ['Error in Create Credits Delegation Token: Signer is required'];
    with a signer and no client it throws what reading a property of
    [undefined] throws, behind the same prefix; in both cases no SDK call is
    made and nothing but the clock has moved. With both it makes one SDK
    call, to which the expiry is passed only when it is not empty and the
    delegatees only when there is at least one, and caches the signature it
    resolves to. A rejection is rethrown behind the step name, or, when the
    call rejects with [null] or [undefined], as the [TypeError] of reading
    its message, without the step name; the cache is then as it was. *)
Theorem createCreditsDelegationToken_needs_signer_and_client :
  forall params env w,
    (signer (this w) = None ->
       perform (CreateCreditsDelegationToken params) env w
       = (Throw (Error "Error in Create Credits Delegation Token: Signer is required"),
          tick w))
    /\ (forall sg, signer (this w) = Some sg -> litNodeClient (this w) = None ->
          perform (CreateCreditsDelegationToken params) env w
          = (Throw (Error ("Error in Create Credits Delegation Token: "
                           +:+ cannot_read env "createCapacityDelegationAuthSig")),
             tick w))
    /\ (forall sg client,
          signer (this w) = Some sg -> litNodeClient (this w) = Some client ->
          let run := perform (CreateCreditsDelegationToken params) env w in
          events_of (perform (CreateCreditsDelegationToken params)) env w
          = [Issued (delegation_call params client sg);
             Settled (delegation_call params client sg)]
          /\ match vendor env (length (log w)) (delegation_call params client sg) with
             | Ok capacityDelegationAuthSig =>
                 run.1 = Ok ReturnedThis
                 /\ getOutput (this run.2) FN.createCreditsDelegationToken
                      (delegation_outputId params)
                    = Some (VAuthSig capacityDelegationAuthSig)
             | Throw e =>
                 run.1 = Throw (Error ("Error in Create Credits Delegation Token: "
                                       +:+ message e))
                 /\ outputs (this run.2) = outputs (this w)
             | ThrowNullish v =>
                 run.1 = Throw (TypeError (cannot_read_of env v "message"))
                 /\ outputs (this run.2) = outputs (this w)
             end).
Proof.
  intros params env w.
  destruct w as [[d ld g n client contracts sg r times outs] lg ck]. simpl.
  split; [|split].
  - intros ->. reflexivity.
  - intros sg' -> ->. reflexivity.
  - intros sg' client' -> ->. split.
    + apply events_of_eq. unfold perform. rewrite then_ret.
      unfold createCreditsDelegationToken. rewrite run_unfold.
      unfold_checks. unfold_M. simpl. fold (delegation_call params client' sg').
      destruct (vendor env (length lg) _); simpl; by rewrite <- app_assoc.
    + unfold perform. rewrite then_ret.
      unfold createCreditsDelegationToken. rewrite run_unfold.
      unfold_checks. unfold_M. simpl. fold (delegation_call params client' sg').
      destruct (vendor env (length lg) _); simpl; (split; [done|]); [|done..].
      unfold getOutput, _setOutput. simpl. apply lookup_insert_eq.
Qed.

Definition sample_delegation : CreateCreditsDelegationTokenParams :=
  {| expiry := Some ""; creditsTokenId := "7"; delegatees := Some [];
     delegation_outputId := None |}.

Lemma createCreditsDelegationToken_needs_signer_and_client_witness :
  perform (CreateCreditsDelegationToken sample_delegation) sample_env
    (start (sample_bulkie false))
  = (Throw (Error "Error in Create Credits Delegation Token: Signer is required"),
     tick (start (sample_bulkie false)))
  /\ (exists sg client,
        events_of (perform (CreateCreditsDelegationToken sample_delegation)) sample_env
          (connected_world true)
        = [Issued (LitNodeClient_createCapacityDelegationAuthSig client None sg "7" None);
           Settled (LitNodeClient_createCapacityDelegationAuthSig client None sg "7" None)]).
Proof.
  destruct (createCreditsDelegationToken_needs_signer_and_client sample_delegation
              sample_env (start (sample_bulkie false))) as (Hnone & _).
  split; [apply Hnone; reflexivity|].
  destruct (createCreditsDelegationToken_needs_signer_and_client sample_delegation
              sample_env (connected_world true)) as (_ & _ & Hboth).
  eexists _, _.
  eapply Hboth; vm_compute; reflexivity.
Defined.

(** [params.resources.map(...)], one supported resource type at a time. *)
Definition supported_type (t : string) : Prop :=
  In t ["access-control-condition-signing"; "access-control-condition-decryption";
        "lit-action-execution"; "rate-limit-increase-auth"; "pkp-signing"].

Definition request_of (r : LitResource) : string :=
  match r with
  | LitAccessControlConditionResource request | LitActionResource request
  | LitRLIResource request | LitPKPResource request => request
  end.

Lemma requestAbilityRequest_ok r q :
  requestAbilityRequest r = Ok q ->
  supported_type (rr_type r) /\ request_of (resource q) = rr_request r.
Proof.
  unfold requestAbilityRequest, supported_type.
  repeat match goal with
         | |- context [String.eqb (rr_type r) ?t] =>
             destruct (String.eqb_spec (rr_type r) t) as [Ht|];
             [rewrite Ht; simpl; intros [= <-]; simpl; split; [auto 10|reflexivity]|]
         end.
  discriminate.
Qed.

Lemma requestAbilityRequest_throw r e :
  requestAbilityRequest r = Throw e ->
  ~ supported_type (rr_type r)
  /\ e = Error ("Resource type " +:+ rr_type r +:+ " is not supported").
Proof.
  unfold requestAbilityRequest, supported_type.
  repeat match goal with
         | |- context [String.eqb (rr_type r) ?t] =>
             destruct (String.eqb_spec (rr_type r) t) as [Ht|];
             [rewrite Ht; simpl; discriminate|]
         end.
  intros [= <-]. split; [|done]. simpl. intros H.
  repeat (destruct H as [H|H]; [by symmetry in H|]). done.
Qed.

(** X8: the resources of [createAccessToken] are turned into ability
    requests one for one and in order, each carrying the request string of
    its resource, when every resource type is one of the five supported.
    Otherwise the mapping throws, naming the first resource type that is
    not; it never throws [null] or [undefined]. *)
Theorem resources_mapped_in_order_or_first_unsupported_named :
  forall requested,
    match map_throwing requestAbilityRequest requested with
    | Ok requests =>
        Forall (fun r => supported_type (rr_type r)) requested
        /\ length requests = length requested
        /\ map (fun q => request_of (resource q)) requests = map rr_request requested
    | Throw e =>
        exists before r after,
          requested = before ++ r :: after
          /\ Forall (fun r' => supported_type (rr_type r')) before
          /\ ~ supported_type (rr_type r)
          /\ e = Error ("Resource type " +:+ rr_type r +:+ " is not supported")
    | ThrowNullish _ => False
    end.
Proof.
  induction requested as [|r requested IH]; simpl; [split; [constructor|by split]|].
  destruct (requestAbilityRequest r) as [q|e|v] eqn:Hr.
  - apply requestAbilityRequest_ok in Hr as [Hs Hq].
    destruct (map_throwing requestAbilityRequest requested) as [requests|e|v].
    + destruct IH as (Hall & Hlen & Hmap). simpl.
      repeat split; [by constructor | by rewrite Hlen | by rewrite Hq, Hmap].
    + destruct IH as (before & r' & after & -> & Hall & Hno & ->).
      exists (r :: before), r', after. repeat split; try done. by constructor.
    + done.
  - apply requestAbilityRequest_throw in Hr as [Hno ->].
    exists [], r, requested. repeat split; try done.
  - by apply requestAbilityRequest_throws_error in Hr.
Qed.

(** [key.startsWith('0x') ? key.slice(2) : key] *)
Definition without_0x (key : string) : string :=
  if String.prefix "0x" key then slice 2 key else key.

(** The call [createAccessToken] makes for a custom auth. *)
Definition session_call (env : Env) (params : CreateAccessTokenParams)
    (client : LitNodeClient) (requests : list ResourceAbilityRequest)
    (token : AuthSig) : VendorCall :=
  LitNodeClient_getLitActionSessionSigs client
    (without_0x (default "" (pkpPublicKey params))) requests
    (if truthy (code params) then Some (base64 env (default "" (code params))) else None)
    (if truthy (code params) then None else ipfsCid params)
    (jsParams params) [token].

(** X9: a [createAccessToken] of type ['custom_auth'] whose arguments pass
    the checks (one of code and IPFS id, js parameters, a public key,
    resources of supported types) and whose instance has a client throws
    ['Error in Create Access Token: creditsDelegationToken is required']
    without any SDK call when no delegation token is given. With one it
    makes a single SDK call: the public key goes without its leading ['0x'],
    the code goes base64-encoded as [litActionCode] or else the IPFS id as
    [litActionIpfsId], never both, and the delegation token is the only
    capability signature; the session signatures it resolves to are cached.
    A rejection is rethrown behind the step name, or, when the call rejects
    with [null] or [undefined], as the [TypeError] of reading its message,
    without the step name. The ['0x'] that [mintPKP] puts before a public
    key is the one taken off here. *)
Theorem createAccessToken_requests_session_signatures :
  forall params env w client requests,
    type params = "custom_auth" ->
    xorb (truthy (code params)) (truthy (ipfsCid params)) = true ->
    truthy (jsParams params) = true ->
    truthy (pkpPublicKey params) = true ->
    resources params <> [] ->
    map_throwing requestAbilityRequest (resources params) = Ok requests ->
    litNodeClient (this w) = Some client ->
    (forall key, without_0x ("0x" +:+ key) = key)
    /\ (creditsDelegationToken params = None ->
          perform (CreateAccessToken params) env w
          = (Throw (Error "Error in Create Access Token: creditsDelegationToken is required"),
             tick w))
    /\ (forall token,
          creditsDelegationToken params = Some token ->
          let run := perform (CreateAccessToken params) env w in
          events_of (perform (CreateAccessToken params)) env w
          = [Issued (session_call env params client requests token);
             Settled (session_call env params client requests token)]
          /\ match vendor env (length (log w))
                     (session_call env params client requests token) with
             | Ok sessionSigs =>
                 run.1 = Ok ReturnedThis
                 /\ getOutput (this run.2) FN.createAccessToken (token_outputId params)
                    = Some (VSessionSigs sessionSigs)
             | Throw e =>
                 run.1 = Throw (Error ("Error in Create Access Token: " +:+ message e))
                 /\ outputs (this run.2) = outputs (this w)
             | ThrowNullish v =>
                 run.1 = Throw (TypeError (cannot_read_of env v "message"))
                 /\ outputs (this run.2) = outputs (this w)
             end).
Proof.
  intros params env w client requests Htype Hxor Hjs Hkey Hres Hmap Hclient.
  split; [intros key; unfold without_0x; simpl; by destruct key|].
  destruct w as [[d ld g n client' contracts sg r times outs] lg ck].
  simpl in Hclient. subst client'.
  assert (Hlen : (length (resources params) =? 0)%nat = false).
  { destruct (resources params); [done|reflexivity]. }
  unfold events_of, perform. rewrite !then_ret. unfold createAccessToken.
  rewrite Htype, Hjs, Hkey, Hlen, Hmap.
  unfold session_call, without_0x.
  destruct (truthy (code params)) eqn:Hcode, (truthy (ipfsCid params)) eqn:Hcid;
    try discriminate Hxor;
    unfold_checks; unfold_M; simpl;
    (split; [by intros ->|]); intros token ->; simpl;
    destruct (vendor env (length lg) _); simpl;
    rewrite <- app_assoc, drop_app_length; (split; [done|]); (split; [done|]);
    try done;
    unfold getOutput, _setOutput; simpl; apply lookup_insert_eq.
Qed.

Lemma createAccessToken_requests_session_signatures_witness :
  perform (CreateAccessToken (sample_token_params (Some "(async () => {})()") None))
    sample_env (connected_world true)
  = (Throw (Error "Error in Create Access Token: creditsDelegationToken is required"),
     tick (connected_world true)).
Proof.
  edestruct (createAccessToken_requests_session_signatures
               (sample_token_params (Some "(async () => {})()") None)
               sample_env (connected_world true))
    as (_ & Hnone & _);
    [reflexivity | reflexivity | reflexivity | reflexivity | discriminate
    | vm_compute; reflexivity | vm_compute; reflexivity |].
  apply Hnone. reflexivity.
Defined.

(** ** Reading the PKPs *)

Definition same_outputs : relation World := fun w w' =>
  outputs (this w') = outputs (this w).

#[global] Instance same_outputs_preorder : PreOrder same_outputs.
Proof.
  split.
  - by intros w.
  - intros w1 w2 w3 H1 H2. unfold same_outputs in *. congruence.
Qed.

#[global] Instance same_outputs_log : LogInsensitive same_outputs.
Proof. by intros w evs. Qed.

Lemma getPkps_same_outputs : framed same_outputs (perform GetPkps).
Proof.
  simpl. unfold getPkps, _run. repeat framed_call_step; by intros env w.
Qed.

(** What the callbacks of [getPkps] make of the settled calls. *)
Lemma settle_getPubkeys_ok contracts pending env w pkps w' :
  settle_getPubkeys contracts pending env w = (Ok pkps, w') ->
  Forall2 (fun (p : PkpInfo) (q : string * Res string) =>
             decimal (pi_tokenId p) = q.1
             /\ q.2 = Ok (pi_publicKey p)
             /\ BigNumber_toHexString env q.1 = Ok (hex (pi_tokenId p))
             /\ computeAddress env ("0x" +:+ slice 2 (pi_publicKey p))
                = Ok (pi_ethAddress p))
    pkps pending.
Proof.
  revert w pkps w'.
  induction pending as [|[tokenId outcome] pending IH]; intros w pkps w'.
  - intros [= <- <-]. constructor.
  - cbn [settle_getPubkeys]. unfold_M.
    destruct outcome as [publicKey|e|v]; [|done..].
    destruct (computeAddress env ("0x" +:+ slice 2 publicKey)) as [ethAddress|e|v] eqn:Ha;
      [|done..].
    destruct (BigNumber_toHexString env tokenId) as [tokenIdHex|e|v] eqn:Hh; [|done..].
    match goal with
    | |- context [settle_getPubkeys contracts pending env ?w1] =>
        destruct (settle_getPubkeys contracts pending env w1) as [[rest|e|v] w2] eqn:Hrest
    end; [|done..].
    intros [= <- <-]. constructor; [done|]. by eapply IH.
Qed.

Lemma imap_pending_lookup {A B} (f : nat -> A -> B) (l : list A) i q :
  imap (fun i a => (a, f i a)) l !! i = Some q ->
  exists a, l !! i = Some a /\ q = (a, f i a).
Proof.
  rewrite list_lookup_imap. destruct (l !! i) as [a|]; [|done].
  intros [= <-]. eauto.
Qed.

(** X10: [getPkps] never writes to the output cache, whether it succeeds or
    fails, so [getOutput('getPkps')] is what it was before. When it succeeds
    it returns one entry per token that [getTokensByAddress] resolved to for
    the address of the signer, in the same order: the token id itself as
    [decimal], its hexadecimal form as [hex], the public key that
    [getPubkey] resolved to for that token and the address computed from
    it. *)
Theorem getPkps_returns_entry_per_token_and_caches_nothing :
  forall env w,
    let run := perform GetPkps env w in
    outputs (this run.2) = outputs (this w)
    /\ getOutput (this run.2) FN.getPkps None = getOutput (this w) FN.getPkps None
    /\ forall pkps,
         run.1 = Ok (ReturnedPkps pkps) ->
         exists sg contracts addr tokens,
           signer (this w) = Some sg
           /\ litContracts (this w) = Some contracts
           /\ vendor env (length (log w)) (Signer_getAddress sg) = Ok addr
           /\ vendor env (length (log w) + 2) (PkpNft_getTokensByAddress contracts addr)
              = Ok tokens
           /\ map (fun p => decimal (pi_tokenId p)) pkps = tokens
           /\ forall i p,
                pkps !! i = Some p ->
                vendor env (length (log w) + 4 + i)
                  (PkpPermissions_getPubkey contracts (decimal (pi_tokenId p)))
                = Ok (pi_publicKey p)
                /\ BigNumber_toHexString env (decimal (pi_tokenId p))
                   = Ok (hex (pi_tokenId p))
                /\ computeAddress env ("0x" +:+ slice 2 (pi_publicKey p))
                   = Ok (pi_ethAddress p).
Proof.
  intros env w run. subst run.
  pose proof (getPkps_same_outputs env w) as Hsame. unfold same_outputs in Hsame.
  split; [exact Hsame|]. split; [unfold getOutput; by rewrite Hsame|].
  intros pkps.
  destruct w as [[d ld g n client contracts sg r times outs] lg ck].
  unfold perform. rewrite returned_bind. unfold getPkps. rewrite bind_unfold.
  destruct contracts as [contracts|]; [|done].
  destruct sg as [sg|]; [|done].
  unfold _checkRequirements at 1. unfold require_litContracts, require_signer.
  unfold_M. simpl. rewrite run_unfold.
  unfold _checkRequirements at 1. unfold require_litContracts, require_signer.
  unfold issue_getPubkeys. unfold_M. simpl.
  destruct (vendor env (length lg) (Signer_getAddress sg)) as [addr|e|v] eqn:Haddr;
    simpl; [|done..].
  destruct (String.eqb addr "") eqn:Hempty; simpl; [done|].
  rewrite !length_app. simpl.
  destruct (vendor env (length lg + 1 + 1)%nat (PkpNft_getTokensByAddress contracts addr))
    as [tokens|e|v] eqn:Htokens; simpl; [|done..].
  match goal with
  | |- context [settle_getPubkeys contracts ?p env ?w1] =>
      destruct (settle_getPubkeys contracts p env w1) as [[res|e|v] w2] eqn:Hsettle
  end; simpl; [|done..].
  intros [= <-].
  apply settle_getPubkeys_ok in Hsettle.
  exists sg, contracts, addr, tokens.
  split; [done|]. split; [done|]. split; [done|].
  split; [by replace (length lg + 2)%nat with (length lg + 1 + 1)%nat by lia|].
  simpl in tokens.
  split.
  - rewrite <- (imap_fst_const
                  (fun i tokenId =>
                     vendor env (length lg + 1 + 1 + 1 + 1 + i)%nat
                       (PkpPermissions_getPubkey contracts tokenId) : Res string)
                  tokens).
    clear -Hsettle. induction Hsettle as [|p q pkps pending (Hd & _) _ IH]; simpl;
      [done|by f_equal].
  - intros i p Hp.
    destruct (Forall2_lookup_l _ _ _ _ _ Hsettle Hp) as (q & Hq & Hd & Hk & Hh & Ha).
    apply imap_pending_lookup in Hq as (token & _ & ->). simpl in *.
    rewrite Hd.
    by replace (length lg + 4 + i)%nat with (length lg + 1 + 1 + 1 + 1 + i)%nat by lia.
Qed.

(** X11: when the signer resolves its address to the empty string,
    [getPkps] stops there: it throws [Signer address is required] behind its
    step name, the contracts are never asked for tokens and no duration is
    recorded. *)
Theorem getPkps_stops_at_empty_signer_address :
  forall env w sg,
    is_Some (litContracts (this w)) ->
    signer (this w) = Some sg ->
    vendor env (length (log w)) (Signer_getAddress sg) = Ok "" ->
    (perform GetPkps env w).1
    = Throw (Error "Error in Get PKPs: Signer address is required")
    /\ events_of (perform GetPkps) env w
       = [Issued (Signer_getAddress sg); Settled (Signer_getAddress sg)]
    /\ executionTimes (this (perform GetPkps env w).2) = executionTimes (this w).
Proof.
  intros env w sg [contracts Hcontracts] Hsigner Haddr.
  destruct w as [[d ld g n client contracts' sg' r times outs] lg ck].
  simpl in Hcontracts, Hsigner, Haddr. subst contracts' sg'.
  unfold events_of, perform. rewrite returned_bind. unfold getPkps.
  rewrite bind_unfold.
  unfold _checkRequirements at 1. unfold require_litContracts, require_signer.
  unfold_M. simpl. rewrite run_unfold.
  unfold _checkRequirements at 1. unfold require_litContracts, require_signer.
  unfold_M. simpl. rewrite Haddr. simpl.
  rewrite <- app_assoc, drop_app_length. done.
Qed.

(** An environment in which the signer has no address. *)
Definition addressless_env : Env :=
  {| now := now sample_env;
     vendor := fun k c =>
       match c as c0 return Res (reply c0) with
       | Signer_getAddress _ => Ok ""
       | c0 => Ok (sample_reply c0)
       end;
     window := window sample_env;
     RPC_URL_BY_NETWORK := RPC_URL_BY_NETWORK sample_env;
     blockExplorerUrl := blockExplorerUrl sample_env;
     BigNumber_toString := BigNumber_toString sample_env;
     BigNumber_toHexString := BigNumber_toHexString sample_env;
     parseEther := parseEther sample_env;
     computeAddress := computeAddress sample_env;
     base64 := base64 sample_env;
     cannot_read := cannot_read sample_env;
     cannot_read_null := cannot_read_null sample_env |}.

Lemma getPkps_stops_at_empty_signer_address_witness :
  (perform GetPkps addressless_env (contracts_world true)).1
  = Throw (Error "Error in Get PKPs: Signer address is required").
Proof.
  edestruct (getPkps_stops_at_empty_signer_address addressless_env
               (contracts_world true)) as (H & _).
  - vm_compute. eexists. reflexivity.
  - vm_compute. reflexivity.
  - vm_compute. reflexivity.
  - exact H.
Defined.

Lemma getPkps_returns_entry_per_token_and_caches_nothing_witness :
  exists pkps,
    (perform GetPkps sample_env (connected_world true)).1 = Ok (ReturnedPkps pkps)
    /\ map (fun p => decimal (pi_tokenId p)) pkps = ["16"; "17"].
Proof.
  eexists. split; [vm_compute; reflexivity|].
  destruct (getPkps_returns_entry_per_token_and_caches_nothing sample_env
              (connected_world true)) as (_ & _ & H).
  edestruct H as (sg & contracts & addr & tokens & _ & _ & _ & Htokens & Hmap & _);
    [vm_compute; reflexivity|].
  rewrite Hmap. vm_compute in Htokens. by injection Htokens as <-.
Defined.

(** ** Keys of the output cache *)

Lemma append_inj_l (p s1 s2 : string) : p +:+ s1 = p +:+ s2 -> s1 = s2.
Proof. induction p as [|c p IH]; simpl; [done|]. intros [= H]. by apply IH. Qed.

Lemma before_colon_name_colon fn rest :
  before_colon (FN.name fn +:+ ":" +:+ rest) = FN.name fn.
Proof. destruct fn; reflexivity. Qed.

Lemma before_colon_name fn : before_colon (FN.name fn) = FN.name fn.
Proof. destruct fn; reflexivity. Qed.

(** Two uses of the cache meet: the same step, and either no output id on
    both sides (none, or the empty string) or the same one. *)
Definition same_slot (fn : BulkieSupportedFunctions) (oid : option string)
    (fn' : BulkieSupportedFunctions) (oid' : option string) : Prop :=
  fn = fn' /\ (if truthy oid then oid = oid' else truthy oid' = false).

(** X12: two calls of [getOutput]/[_setOutput] use the same key of the cache
    exactly when they name the same step and either both carry no output id
    (none, or the empty string) or both carry the same one. So a read after
    a store returns the stored value for that step and output id, and what
    was there before for every other step or output id: results stored
    under different output ids of one step are kept side by side. *)
Theorem outputs_kept_apart_by_step_and_output_id :
  forall fn fn' oid oid',
    (output_key fn oid = output_key fn' oid' <-> same_slot fn oid fn' oid')
    /\ forall b v,
         (same_slot fn oid fn' oid' ->
          getOutput (_setOutput fn v oid b) fn' oid' = Some v)
         /\ (~ same_slot fn oid fn' oid' ->
             getOutput (_setOutput fn v oid b) fn' oid' = getOutput b fn' oid').
Proof.
  intros fn fn' oid oid'.
  assert (Hkey : output_key fn oid = output_key fn' oid' <-> same_slot fn oid fn' oid').
  { unfold same_slot. split.
    - intros Heq.
      assert (fn = fn') as <-.
      { apply FN_name_inj.
        rewrite <- (before_colon_output_key fn oid), <- (before_colon_output_key fn' oid').
        by rewrite Heq. }
      split; [done|]. unfold output_key in Heq.
      destruct oid as [[|c id]|], oid' as [[|c' id']|]; simpl in *; try done;
        try (by apply append_inj_l in Heq; inversion Heq);
        try (exfalso; revert Heq; destruct fn; simpl; discriminate).
    - intros [<- H]. unfold output_key.
      destruct (truthy oid) eqn:Ht; [by subst oid'; rewrite Ht | by rewrite H]. }
  split; [exact Hkey|]. intros b v. split.
  - intros Hsame. apply Hkey in Hsame. unfold getOutput, _setOutput. simpl.
    rewrite <- Hsame. apply lookup_insert_eq.
  - intros Hother. apply getOutput_setOutput_other. by rewrite Hkey.
Qed.

(** ** Durations over a sequence of operations *)

Lemma perform_all_nil env w : perform_all [] env w = (Ok tt, w).
Proof. reflexivity. Qed.

Lemma perform_all_cons op ops env w :
  perform_all (op :: ops) env w
  = match perform op env w with
    | (Ok _, w1) => perform_all ops env w1
    | (Throw e, w1) => (Throw e, w1)
    | (ThrowNullish v, w1) => (ThrowNullish v, w1)
    end.
Proof. reflexivity. Qed.

(** X13: with a clock that never goes back, a sequence of operations only
    appends to [executionTimes], one entry per operation that completed and
    none of them negative, and it stops at the first operation that throws.
    So there are as many new entries as operations when the sequence
    succeeds, and [getTotalExecutionTime().ms] never decreases. *)
Theorem total_execution_time_never_decreases :
  forall env,
    (forall k, now env k <= now env (S k)) ->
    forall ops w,
      let run := perform_all ops env w in
      exists durations,
        executionTimes (this run.2) = executionTimes (this w) ++ durations
        /\ Forall (fun d => 0 <= d) durations
        /\ (length durations <= length ops)%nat
        /\ (run.1 = Ok tt -> length durations = length ops)
        /\ ms (getTotalExecutionTime (this w)) <= ms (getTotalExecutionTime (this run.2)).
Proof.
  intros env Hclock ops. cbv zeta.
  assert (Hmain : forall w, exists durations,
             executionTimes (this (perform_all ops env w).2)
             = executionTimes (this w) ++ durations
             /\ Forall (fun d => 0 <= d) durations
             /\ (length durations <= length ops)%nat
             /\ ((perform_all ops env w).1 = Ok tt -> length durations = length ops)).
  { induction ops as [|op ops IH]; intros w.
    - exists []. rewrite perform_all_nil. simpl. rewrite app_nil_r.
      repeat split; [constructor|done].
    - rewrite perform_all_cons.
      pose proof (perform_records_duration op env w) as Hop.
      destruct (perform op env w) as [[r|e|v] w1]; simpl in Hop.
      + destruct (IH w1) as (ds & Htimes & Hpos & Hlen & Hok).
        exists (duration_of env w :: ds). rewrite Htimes, Hop, <- app_assoc.
        repeat split; simpl; [|lia|intros H; by rewrite Hok].
        constructor; [|done]. unfold duration_of. specialize (Hclock (clock w)). lia.
      + exists []. simpl. rewrite app_nil_r.
        repeat split; [done|constructor|lia|done].
      + exists []. simpl. rewrite app_nil_r.
        repeat split; [done|constructor|lia|done]. }
  intros w. destruct (Hmain w) as (ds & Htimes & Hpos & Hlen & Hok).
  exists ds. repeat split; try done.
  rewrite !getTotalExecutionTime_ms, Htimes, sum_of_app.
  assert (0 <= sum_of ds); [|lia].
  clear -Hpos. induction Hpos as [|d ds Hd _ IH]; unfold sum_of in *; simpl; lia.
Qed.

Lemma total_execution_time_never_decreases_witness :
  0 <= ms (getTotalExecutionTime
             (this (perform_all [ConnectToLitNodeClient None; GetPkps; MintPKP None]
                      sample_env (start (sample_bulkie true))).2)).
Proof.
  destruct (total_execution_time_never_decreases sample_env
              ltac:(intros k; simpl; lia)
              [ConnectToLitNodeClient None; GetPkps; MintPKP None]
              (start (sample_bulkie true)))
    as (ds & _ & _ & _ & _ & Hms).
  etransitivity; [|exact Hms]. vm_compute. discriminate.
Defined.

(** ** Connecting first *)

Lemma connectToLitNodeClient_ok params env w r w1 :
  perform (ConnectToLitNodeClient params) env w = (Ok r, w1) ->
  is_Some (litNodeClient (this w1)) /\ truthy (network (this w1)) = true.
Proof.
  destruct w as [[d ld g n client contracts sg rp times outs] lg ck].
  simpl. unfold connectToLitNodeClient. unfold_checks. unfold_M. simpl.
  intros H. run_all. simpl. split; [eauto|done].
Qed.

Lemma connectToLitContracts_ok params env w r w1 :
  perform (ConnectToLitContracts params) env w = (Ok r, w1) ->
  is_Some (litContracts (this w1)) /\ truthy (network (this w1)) = true.
Proof.
  destruct w as [[d ld g n client contracts sg rp times outs] lg ck].
  simpl. unfold connectToLitContracts. unfold_checks. unfold_M. simpl.
  intros H. run_all; simpl; (split; [eauto|done]).
Qed.

(** X14: on an instance that has a signer, once [connectToLitNodeClient]
    and [connectToLitContracts] have both completed, in either order, the
    requirements of every step are met, and they still are after any
    further operations, whether those succeed or fail. *)
Theorem connecting_both_meets_every_requirement :
  forall p1 p2 first env w w',
    is_Some (signer (this w)) ->
    perform_all
      (if first : bool
       then [ConnectToLitNodeClient p1; ConnectToLitContracts p2]
       else [ConnectToLitContracts p2; ConnectToLitNodeClient p1]) env w
    = (Ok tt, w') ->
    forall fn ops env' env'',
      (_checkRequirements fn env'' (perform_all ops env' w').2).1 = Ok tt.
Proof.
  intros p1 p2 first env w w' Hsigner Hrun fn ops env' env''.
  assert (Hafter : is_Some (litNodeClient (this w')) /\ is_Some (litContracts (this w'))
                   /\ is_Some (signer (this w')) /\ truthy (network (this w')) = true).
  { destruct first; rewrite perform_all_cons in Hrun.
    - pose proof (perform_keeps_settings (ConnectToLitNodeClient p1) env w) as K1.
      destruct (perform (ConnectToLitNodeClient p1) env w) as [[r1|e|v] w1] eqn:H1;
        [|done..].
      apply connectToLitNodeClient_ok in H1 as [Hclient _].
      rewrite perform_all_cons in Hrun.
      pose proof (perform_keeps_settings (ConnectToLitContracts p2) env w1) as K2.
      destruct (perform (ConnectToLitContracts p2) env w1) as [[r2|e|v] w2] eqn:H2;
        [|done..].
      apply connectToLitContracts_ok in H2 as [Hcontracts Hnet].
      rewrite perform_all_nil in Hrun. injection Hrun as <-.
      simpl in K1, K2.
      destruct K1 as (_ & _ & _ & _ & _ & _ & _ & S1).
      destruct K2 as (_ & _ & _ & _ & _ & C2 & _ & S2). repeat split; auto.
    - pose proof (perform_keeps_settings (ConnectToLitContracts p2) env w) as K1.
      destruct (perform (ConnectToLitContracts p2) env w) as [[r1|e|v] w1] eqn:H1;
        [|done..].
      apply connectToLitContracts_ok in H1 as [Hcontracts _].
      rewrite perform_all_cons in Hrun.
      pose proof (perform_keeps_settings (ConnectToLitNodeClient p1) env w1) as K2.
      destruct (perform (ConnectToLitNodeClient p1) env w1) as [[r2|e|v] w2] eqn:H2;
        [|done..].
      apply connectToLitNodeClient_ok in H2 as [Hclient Hnet].
      rewrite perform_all_nil in Hrun. injection Hrun as <-.
      simpl in K1, K2.
      destruct K1 as (_ & _ & _ & _ & _ & _ & _ & S1).
      destruct K2 as (_ & _ & _ & _ & _ & _ & C2 & S2). repeat split; auto. }
  destruct Hafter as (Hclient & Hcontracts & Hsg & Hnet).
  destruct (perform_all_keeps_settings ops env' w')
    as (K1 & _ & _ & _ & _ & K6 & K7 & K8).
  apply checkRequirements_passes. destruct fn; rewrite ?K1; auto.
Qed.

Lemma connecting_both_meets_every_requirement_witness :
  (_checkRequirements FN.grantAuthMethodToUsePKP sample_env
     (perform_all [MintPKP None; GetPkps] sample_env (connected_world true)).2).1
  = Ok tt.
Proof.
  apply (connecting_both_meets_every_requirement None None true sample_env
           (start (sample_bulkie true)) (connected_world true)).
  - vm_compute. eexists. reflexivity.
  - vm_compute. reflexivity.
Defined.

(** ** Minting credits and granting an action *)

(** X15: [mintCreditsNFT] refuses a zero (or missing) number before anything
    else happens: the error carries no step name, no clock is read and no
    call is made. With both numbers given and the contracts and a signer in
    place it makes one call with exactly these numbers; the token id the
    call resolves to is cached as given, under the output id of the call,
    and a rejection is rethrown behind the step name with the cache left as
    it was. A call rejected with [null] or [undefined] has no message to
    rethrow: the operation throws the [TypeError] of reading it, without
    the step name. *)
Theorem mintCreditsNFT_checks_numbers_then_caches_token_id :
  forall params env w,
    let run := perform (MintCreditsNFT params) env w in
    (requestsPerKilosecond params = 0 \/ daysUntilUTCMidnightExpiration params = 0 ->
     run = (Throw (Error "requestsPerKilosecond and daysUntilUTCMidnightExpiration are required"),
            w))
    /\ (requestsPerKilosecond params <> 0 ->
        daysUntilUTCMidnightExpiration params <> 0 ->
        forall contracts,
          litContracts (this w) = Some contracts ->
          is_Some (signer (this w)) ->
          let call := LitContracts_mintCapacityCreditsNFT contracts
                        (requestsPerKilosecond params)
                        (daysUntilUTCMidnightExpiration params) in
          events_of (perform (MintCreditsNFT params)) env w = [Issued call; Settled call]
          /\ match vendor env (length (log w)) call with
             | Ok capacityTokenIdStr =>
                 run.1 = Ok ReturnedThis
                 /\ getOutput (this run.2) FN.mintCreditsNFT (credits_outputId params)
                    = Some (VString capacityTokenIdStr)
             | Throw e =>
                 run.1 = Throw (Error ("Error in Mint Credits Token: " +:+ message e))
                 /\ outputs (this run.2) = outputs (this w)
             | ThrowNullish v =>
                 run.1 = Throw (TypeError (cannot_read_of env v "message"))
                 /\ outputs (this run.2) = outputs (this w)
             end).
Proof.
  intros params env w run. subst run. split.
  - intros Hzero. unfold perform. rewrite then_ret. unfold mintCreditsNFT.
    assert ((requestsPerKilosecond params =? 0)
            || (daysUntilUTCMidnightExpiration params =? 0) = true) as ->; [|done].
    destruct Hzero as [-> | ->]; [done|]. by rewrite orb_true_r.
  - intros Hr Hd contracts Hcontracts [sg Hsg].
    destruct w as [[d ld g n client contracts' sg' r times outs] lg ck].
    simpl in Hcontracts, Hsg. subst contracts' sg'.
    unfold events_of, perform. rewrite !then_ret. unfold mintCreditsNFT.
    apply Z.eqb_neq in Hr, Hd. rewrite Hr, Hd. cbn [orb].
    rewrite run_unfold. unfold_checks. unfold_M. simpl.
    destruct (vendor env (length lg) _) as [tokenId|e|v]; simpl;
      rewrite <- app_assoc, drop_app_length; (split; [done|]); (split; [done|]);
      [|done..].
    unfold getOutput, _setOutput. simpl. apply lookup_insert_eq.
Qed.

Lemma mintCreditsNFT_checks_numbers_then_caches_token_id_witness :
  getOutput (this (perform mint_credits_as_a sample_env (contracts_world true)).2)
    FN.mintCreditsNFT (Some "a")
  = Some (VString "7").
Proof.
  destruct (mintCreditsNFT_checks_numbers_then_caches_token_id
              {| requestsPerKilosecond := 200; daysUntilUTCMidnightExpiration := 2;
                 credits_outputId := Some "a" |}
              sample_env (contracts_world true)) as [_ H].
  edestruct H as (_ & _ & Hcached).
  - simpl. lia.
  - simpl. lia.
  - vm_compute. reflexivity.
  - vm_compute. eexists. reflexivity.
  - exact Hcached.
Defined.

(** X16: [grantIPFSCIDtoUsePKP] has no requirement of its own. Without
    contracts it fails on reading [addPermittedAction] of [undefined], with
    the message of that [TypeError] behind the step name and no call made.
    With contracts, a rejected call is rethrown behind the step name (a
    call rejected with [null] or [undefined] as the [TypeError] of reading
    its message, without the step name); a
    resolved call on a network with no known block explorer fails after the
    transaction went through, and nothing is cached; otherwise the
    transaction hash is cached with its link [<explorer>tx/<hash>], under
    the output id of the call. *)
Theorem grantIPFSCIDtoUsePKP_caches_receipt_or_fails_unguarded :
  forall params env w,
    let run := perform (GrantIPFSCIDtoUsePKP params) env w in
    let failed cause :=
      run.1 = Throw (Error ("Error in Grant IPFS CID: " +:+ cause))
      /\ outputs (this run.2) = outputs (this w) in
    match litContracts (this w) with
    | None => failed (cannot_read env "addPermittedAction") /\ log run.2 = log w
    | Some contracts =>
        match vendor env (length (log w))
                (LitContracts_addPermittedAction contracts (gic_pkpTokenId params)
                   (gic_ipfsCid params) (map scope_code (gic_scopes params))) with
        | Throw e => failed (message e)
        | ThrowNullish v =>
            run.1 = Throw (TypeError (cannot_read_of env v "message"))
            /\ outputs (this run.2) = outputs (this w)
        | Ok transactionHash =>
            match blockExplorerUrl env (default "undefined" (network (this w))) with
            | None => failed (cannot_read env "blockExplorerUrls")
            | Some explorerUrl =>
                run.1 = Ok ReturnedThis
                /\ getOutput (this run.2) FN.grantIPFSCIDtoUsePKP (gic_outputId params)
                   = Some (VTx {| hash := transactionHash;
                                  explorer := explorerUrl +:+ "tx/" +:+ transactionHash |})
            end
        end
    end.
Proof.
  intros params env w. cbv zeta.
  destruct w as [[d ld g n client contracts sg r times outs] lg ck].
  unfold perform. rewrite !then_ret. unfold grantIPFSCIDtoUsePKP.
  rewrite run_unfold. unfold_checks. unfold_M. simpl.
  destruct contracts as [contracts|]; simpl; [|done].
  destruct (vendor env (length lg) _) as [transactionHash|e|v]; simpl; [|done..].
  destruct (blockExplorerUrl env (default "undefined" n)) as [explorerUrl|]; simpl;
    [|done].
  split; [done|]. unfold getOutput, _setOutput. simpl. apply lookup_insert_eq.
Qed.

(** ** Granting an auth method, and the types of access token *)

(** X22: with contracts, a signer and a client in place,
    [grantAuthMethodToUsePKP] throws the rejection of its contract call
    behind the step name, fails after the transaction went through on a
    network without a known block explorer, and otherwise caches the
    transaction hash with its link [<explorer>tx/<hash>] under the output
    id of the call. A call rejected with [null] or [undefined] makes the
    operation throw the [TypeError] of reading its message, without the
    step name. A failure leaves the cache as it was. *)
Theorem grantAuthMethodToUsePKP_caches_receipt :
  forall params env w contracts sg client,
    litContracts (this w) = Some contracts ->
    signer (this w) = Some sg ->
    litNodeClient (this w) = Some client ->
    let run := perform (GrantAuthMethodToUsePKP params) env w in
    let failed cause :=
      run.1 = Throw (Error ("Error in Grant Auth Method: " +:+ cause))
      /\ outputs (this run.2) = outputs (this w) in
    match vendor env (length (log w))
            (LitContracts_addPermittedAuthMethod contracts (gam_pkpTokenId params)
               (gam_authMethodId params) (gam_authMethodType params)
               (map scope_code (gam_scopes params))) with
    | Throw e => failed (message e)
    | ThrowNullish v =>
        run.1 = Throw (TypeError (cannot_read_of env v "message"))
        /\ outputs (this run.2) = outputs (this w)
    | Ok transactionHash =>
        match blockExplorerUrl env (default "undefined" (network (this w))) with
        | None => failed (cannot_read env "blockExplorerUrls")
        | Some explorerUrl =>
            run.1 = Ok ReturnedThis
            /\ getOutput (this run.2) FN.grantAuthMethodToUsePKP (gam_outputId params)
               = Some (VTx {| hash := transactionHash;
                              explorer := explorerUrl +:+ "tx/" +:+ transactionHash |})
        end
    end.
Proof.
  intros params env w contracts sg client Hcontracts Hsigner Hclient. cbv zeta.
  destruct w as [[d ld g n client' contracts' sg' r times outs] lg ck].
  simpl in Hcontracts, Hsigner, Hclient. subst client' contracts' sg'.
  unfold perform. rewrite !then_ret. unfold grantAuthMethodToUsePKP.
  rewrite run_unfold. unfold_checks. unfold_M. simpl.
  destruct (vendor env (length lg) _) as [transactionHash|e|v]; simpl; [|done..].
  destruct (blockExplorerUrl env (default "undefined" n)) as [explorerUrl|]; simpl;
    [|done].
  split; [done|]. unfold getOutput, _setOutput. simpl. apply lookup_insert_eq.
Qed.

Lemma grantAuthMethodToUsePKP_caches_receipt_witness :
  getOutput
    (this (perform (GrantAuthMethodToUsePKP sample_grant) sample_env
             (connected_world true)).2)
    FN.grantAuthMethodToUsePKP None
  = Some (VTx {| hash := "0xaa01";
                 explorer := "https://yellowstone-explorer.litprotocol.com/tx/0xaa01" |}).
Proof.
  edestruct (grantAuthMethodToUsePKP_caches_receipt sample_grant sample_env
               (connected_world true)) as [_ Hcached].
  - vm_compute. reflexivity.
  - vm_compute. reflexivity.
  - vm_compute. reflexivity.
  - exact Hcached.
Defined.

(** X23: [createAccessToken] only ever contacts the Lit nodes for the type
    ['custom_auth']. For any other type it makes no SDK call, caches
    nothing, records no duration and throws: ['Native auth and EOA are not
    supported yet'] for ['eoa'] and ['native_auth'], and for a type that is
    neither, once a public key and resources of supported types are given
    and a client is connected, ['Error in Create Access Token: Type not
    supported yet']. *)
Theorem createAccessToken_contacts_nodes_for_custom_auth_only :
  forall params env w,
    type params <> "custom_auth" ->
    let run := perform (CreateAccessToken params) env w in
    events_of (perform (CreateAccessToken params)) env w = []
    /\ (exists e, run.1 = Throw e)
    /\ outputs (this run.2) = outputs (this w)
    /\ executionTimes (this run.2) = executionTimes (this w)
    /\ (type params = "eoa" \/ type params = "native_auth" ->
        run = (Throw (Error "Native auth and EOA are not supported yet"), w))
    /\ (type params <> "eoa" -> type params <> "native_auth" ->
        truthy (pkpPublicKey params) = true ->
        resources params <> [] ->
        is_Some (litNodeClient (this w)) ->
        forall requests,
          map_throwing requestAbilityRequest (resources params) = Ok requests ->
          run = (Throw (Error "Error in Create Access Token: Type not supported yet"),
                 tick w)).
Proof.
  intros params env w Htype. cbv zeta.
  apply String.eqb_neq in Htype.
  destruct w as [[d ld g n client contracts sg r times outs] lg ck].
  unfold events_of, perform. rewrite !then_ret. unfold createAccessToken.
  rewrite Htype. cbn [andb].
  destruct (String.eqb_spec (type params) "eoa") as [Heoa|Heoa].
  { cbn [orb]. simpl. rewrite drop_all. repeat split; eauto; done. }
  destruct (String.eqb_spec (type params) "native_auth") as [Hnative|Hnative].
  { cbn [orb]. simpl. rewrite drop_all. repeat split; eauto; done. }
  cbn [orb].
  destruct (truthy (pkpPublicKey params)) eqn:Hkey; cbn [negb].
  2:{ simpl. rewrite drop_all. repeat split; eauto; try done. by intros [|]. }
  destruct (resources params) as [|r0 rs] eqn:Hres.
  { simpl. rewrite drop_all. repeat split; eauto; try done. by intros [|]. }
  cbn [length Nat.eqb].
  rewrite bind_unfold. unfold lift.
  destruct (map_throwing requestAbilityRequest (r0 :: rs)) as [requests|e|v] eqn:Hmap.
  2:{ simpl. rewrite drop_all. repeat split; eauto; try done. by intros [|]. }
  2:{ by apply map_throwing_throws_error in Hmap. }
  rewrite run_unfold. unfold_checks. unfold_M. simpl.
  destruct client as [client|]; simpl; rewrite drop_all;
    repeat split; eauto; try done; try (by intros [|]).
Qed.

(** A request for a token of a type not yet written. *)
Definition sample_other_type : CreateAccessTokenParams :=
  {| pkpPublicKey := Some "0x04aa"; type := "webauthn";
     resources := [{| rr_type := "pkp-signing"; rr_request := "*" |}];
     creditsDelegationToken := None; jsParams := None;
     code := None; ipfsCid := None; token_outputId := None |}.

Lemma createAccessToken_contacts_nodes_for_custom_auth_only_witness :
  (perform (CreateAccessToken sample_other_type) sample_env (connected_world true)).1
  = Throw (Error "Error in Create Access Token: Type not supported yet").
Proof.
  destruct (createAccessToken_contacts_nodes_for_custom_auth_only sample_other_type
              sample_env (connected_world true) ltac:(discriminate))
    as (_ & _ & _ & _ & _ & Hother).
  rewrite (Hother ltac:(discriminate) ltac:(discriminate) eq_refl ltac:(discriminate)
             ltac:(vm_compute; eexists; reflexivity) _ eq_refl).
  reflexivity.
Defined.

(** * Further properties of the build script *)

Module Esbuild_output.
Import Esbuild.
Import Esbuild_properties.

(** ** The four replacements *)

(** [needle] occurs in [text]. *)
Definition occurs (needle text : jsstring) : Prop :=
  exists before after, text = before ++ needle ++ after.

Lemma occurs_suffix needle before text :
  occurs needle text -> occurs needle (before ++ text).
Proof.
  intros (a & b & ->). exists (before ++ a), b. by rewrite <- app_assoc.
Qed.

Section Passes.
Variable hit : jsstring -> jsstring -> Prop.
Variable replacement : jsstring.

(** A pass whose replacement is shorter than what it replaces shortens the
    text, or finds nothing and keeps it. *)
Lemma replaced_shorter text out :
  (forall t rest, hit t rest -> (length replacement + length rest < length t)%nat) ->
  replaced hit replacement text out ->
  (length out <= length text)%nat /\ (length out = length text -> out = text).
Proof.
  intros Hhit H. induction H as [|t rest out Hh H [IH1 IH2]|c t out Hno H [IH1 IH2]].
  - done.
  - apply Hhit in Hh. rewrite length_app. split; lia.
  - simpl. split; [lia|]. intros [= Hlen]. f_equal. by apply IH2.
Qed.

(** A pass that finds nothing anywhere keeps the text. *)
Lemma replaced_nothing text out :
  (forall before t rest, text = before ++ t -> ~ hit t rest) ->
  replaced hit replacement text out -> out = text.
Proof.
  intros Hnone H. induction H as [|t rest out Hh H IH|c t out Hno H IH].
  - done.
  - by apply (Hnone [] t rest) in Hh.
  - f_equal. apply IH. intros before t' rest ->.
    apply (Hnone (c :: before) t' rest). reflexivity.
Qed.
End Passes.

Lemma occurrence_strictly_shorter l text rest :
  l <> [] -> occurrence l text rest -> (length (@nil N) + length rest < length text)%nat.
Proof. intros Hl H. simpl. by apply (occurrence_shorter l). Qed.

Lemma letter_dot_ethers_strictly_shorter text rest :
  letter_dot_ethers_at text rest ->
  (length (units "ethers") + length rest < length text)%nat.
Proof. intros (c & _ & ->). simpl. lia. Qed.

(** Every pattern of the four has [ethers] in what it matches. *)
Lemma require_ethers_occurs text rest :
  occurrence require_ethers_text text rest -> occurs (units "ethers") text.
Proof.
  intros ->. exists (units "var import_"), (units " = __require(" ++ quoted_ethers ++ units ");" ++ rest).
  reflexivity.
Qed.

Lemma import_ethers_dot_occurs text rest :
  occurrence import_ethers_dot_text text rest -> occurs (units "ethers") text.
Proof. intros ->. exists (units "import_"), (units "." ++ rest). reflexivity. Qed.

Lemma minified_require_occurs text rest :
  minified_require_at text rest -> occurs (units "ethers") text.
Proof.
  intros (blanks & id1 & id2 & _ & _ & _ & _ & _ & _ & ->).
  exists (units "var" ++ blanks ++ id1 ++ units "=" ++ id2 ++ units "(" ++ [dquote]),
         ([dquote] ++ units ");" ++ rest).
  rewrite <- !app_assoc. reflexivity.
Qed.

Lemma letter_dot_ethers_occurs text rest :
  letter_dot_ethers_at text rest -> occurs (units "ethers") text.
Proof. intros (c & _ & ->). exists [c; 46%N], rest. reflexivity. Qed.

(** X17: the four replacements never make the text longer, and when the
    length is the same the text is the same: every match is replaced by
    something shorter. A text in which [ethers] does not occur goes through
    unchanged. *)
Theorem content_shortens_or_keeps_text :
  forall text,
    (length (content text) <= length text)%nat
    /\ (length (content text) = length text -> content text = text)
    /\ (~ occurs (units "ethers") text -> content text = text).
Proof.
  intros text.
  destruct (content_transformed text) as (t1 & t2 & t3 & H1 & H2 & H3 & H4).
  pose proof (replaced_shorter _ _ _ _
                (fun t rest => occurrence_strictly_shorter require_ethers_text t rest
                                 ltac:(discriminate)) H1) as [L1 E1].
  pose proof (replaced_shorter _ _ _ _
                (fun t rest => occurrence_strictly_shorter import_ethers_dot_text t rest
                                 ltac:(discriminate)) H2) as [L2 E2].
  pose proof (replaced_shorter minified_require_at [] t2 t3
                (fun t rest H => minified_require_shorter t rest H) H3) as [L3 E3].
  pose proof (replaced_shorter _ _ _ _ letter_dot_ethers_strictly_shorter H4) as [L4 E4].
  split; [lia|]. split.
  - intros Hlen.
    rewrite E4 by lia. rewrite E3 by lia. rewrite E2 by lia. apply E1. lia.
  - intros Hnone.
    assert (t1 = text) as ->.
    { apply (replaced_nothing _ _ _ _) in H1; [done|].
      intros before t rest -> Hhit. apply Hnone, occurs_suffix.
      by apply (require_ethers_occurs t rest). }
    assert (t2 = text) as ->.
    { apply (replaced_nothing _ _ _ _) in H2; [done|].
      intros before t rest -> Hhit. apply Hnone, occurs_suffix.
      by apply (import_ethers_dot_occurs t rest). }
    assert (t3 = text) as ->.
    { apply (replaced_nothing _ _ _ _) in H3; [done|].
      intros before t rest -> Hhit. apply Hnone, occurs_suffix.
      by apply (minified_require_occurs t rest). }
    apply (replaced_nothing _ _ _ _) in H4; [done|].
    intros before t rest -> Hhit. apply Hnone, occurs_suffix.
    by apply (letter_dot_ethers_occurs t rest).
Qed.


(** ** The encoded string *)

(** The value of a hexadecimal digit in lower case. *)
Definition hex_value (h : N) : N := (if h <? 58 then h - 48 else h - 87)%N.

Definition unicode_value (h3 h2 h1 h0 : N) : N :=
  (4096 * hex_value h3 + 256 * hex_value h2 + 16 * hex_value h1 + hex_value h0)%N.

(** What the characters of a string literal stand for, for the escapes that
    [escaped] writes: a backslash with one of b, t, n, f, r, with u and four
    hexadecimal digits, or with the character meant. *)
Fixpoint unescaped (text : jsstring) : jsstring :=
  match text with
  | [] => []
  | c :: text' =>
      if (c =? 92)%N then
        match text' with
        | [] => []
        | e :: text'' =>
            if (e =? 117)%N then
              match text'' with
              | h3 :: h2 :: h1 :: h0 :: rest => unicode_value h3 h2 h1 h0 :: unescaped rest
              | _ => []
              end
            else
              (if e =? 98 then 8 else if e =? 116 then 9 else if e =? 110 then 10
               else if e =? 102 then 12 else if e =? 114 then 13 else e)%N
              :: unescaped text''
        end
      else c :: unescaped text'
  end.

Lemma unescaped_raw c text : c <> 92%N -> unescaped (c :: text) = c :: unescaped text.
Proof. intros Hc. simpl. by destruct (N.eqb_spec c 92). Qed.

Definition unicode_escape_value (c : N) : N :=
  unicode_value (hex_digit (c / 4096 mod 16)) (hex_digit (c / 256 mod 16))
    (hex_digit (c / 16 mod 16)) (hex_digit (c mod 16)).

Lemma unescaped_unicode_escape c text :
  unescaped (unicode_escape c ++ text) = unicode_escape_value c :: unescaped text.
Proof. reflexivity. Qed.

Lemma in_range (c first : N) (len : nat) :
  (first <= c < first + N.of_nat len)%N ->
  In c (map (fun i => first + N.of_nat i)%N (seq 0 len)).
Proof.
  intros Hc. apply in_map_iff. exists (N.to_nat (c - first)). split; [lia|].
  apply in_seq. lia.
Qed.

(** The escape of a control character or of a surrogate reads back as that
    code unit. *)
Lemma unicode_escape_value_escaped c :
  (c < 32)%N \/ is_high_surrogate c = true \/ is_low_surrogate c = true ->
  unicode_escape_value c = c.
Proof.
  intros Hc.
  assert (Hall : forallb (fun c => N.eqb (unicode_escape_value c) c)
                   (map (fun i => 0 + N.of_nat i)%N (seq 0 32)
                    ++ map (fun i => 55296 + N.of_nat i)%N (seq 0 2048)) = true)
    by (vm_compute; reflexivity).
  rewrite forallb_forall in Hall. apply N.eqb_eq, Hall, in_app_iff.
  unfold is_high_surrogate, is_low_surrogate in Hc.
  rewrite !andb_true_iff, !N.leb_le in Hc.
  destruct Hc as [Hc|Hc]; [left | right]; apply in_range; lia.
Qed.

Lemma hex_digit_printable d : (32 <= hex_digit d)%N.
Proof. unfold hex_digit. destruct (d <? 10)%N; lia. Qed.

Lemma unicode_escape_printable c : Forall (fun u => (32 <= u)%N) (unicode_escape c).
Proof.
  unfold unicode_escape. repeat constructor; try apply hex_digit_printable; done.
Qed.

(** The cases of [escaped], one equation each. *)
Inductive escape_case : jsstring -> jsstring -> jsstring -> Prop :=
| escape_short c e text :
    In (c, e) [(8, 98); (9, 116); (10, 110); (12, 102); (13, 114); (34, 34); (92, 92)]%N ->
    escape_case (c :: text) [backslash; e] text
| escape_unicode c text :
    (c < 32)%N \/ is_high_surrogate c = true \/ is_low_surrogate c = true ->
    escape_case (c :: text) (unicode_escape c) text
| escape_pair c c' text :
    is_high_surrogate c = true -> is_low_surrogate c' = true ->
    escape_case (c :: c' :: text) [c; c'] text
| escape_raw c text :
    (32 <= c)%N -> c <> 92%N -> c <> 34%N ->
    escape_case (c :: text) [c] text.

Lemma escaped_cases c text :
  exists out rest,
    escape_case (c :: text) out rest
    /\ escaped (c :: text) = out ++ escaped rest
    /\ (length rest <= length text)%nat.
Proof.
  cbn [escaped].
  destruct (N.eqb_spec c 8) as [->|H8].
  { eexists _, _. split; [apply (escape_short 8 98)|split; [reflexivity|done]].
    simpl. tauto. }
  destruct (N.eqb_spec c 9) as [->|H9].
  { eexists _, _. split; [apply (escape_short 9 116)|split; [reflexivity|done]].
    simpl. tauto. }
  destruct (N.eqb_spec c 10) as [->|H10].
  { eexists _, _. split; [apply (escape_short 10 110)|split; [reflexivity|done]].
    simpl. tauto. }
  destruct (N.eqb_spec c 12) as [->|H12].
  { eexists _, _. split; [apply (escape_short 12 102)|split; [reflexivity|done]].
    simpl. tauto. }
  destruct (N.eqb_spec c 13) as [->|H13].
  { eexists _, _. split; [apply (escape_short 13 114)|split; [reflexivity|done]].
    simpl. tauto. }
  destruct (N.eqb_spec c 34) as [->|H34].
  { eexists _, _. split; [apply (escape_short 34 34)|split; [reflexivity|done]].
    simpl. tauto. }
  destruct (N.eqb_spec c 92) as [->|H92].
  { eexists _, _. split; [apply (escape_short 92 92)|split; [reflexivity|done]].
    simpl. tauto. }
  destruct (N.ltb_spec c 32) as [Hlow|Hhigh].
  { eexists _, _. split; [apply escape_unicode; by left|split; [reflexivity|done]]. }
  destruct (is_high_surrogate c) eqn:Hhs.
  { destruct text as [|c' text].
    - exists (unicode_escape c), []. split; [apply escape_unicode; tauto|].
      split; [by rewrite app_nil_r|done].
    - destruct (is_low_surrogate c') eqn:Hls.
      + exists [c; c'], text. split; [by apply escape_pair|].
        split; [reflexivity|simpl; lia].
      + eexists _, _. split; [apply escape_unicode; tauto|split; [reflexivity|done]]. }
  destruct (is_low_surrogate c) eqn:Hlsc.
  { eexists _, _. split; [apply escape_unicode; tauto|split; [reflexivity|done]]. }
  exists [c], text. split; [by apply escape_raw|]. split; [reflexivity|done].
Qed.

Lemma surrogate_not_special c :
  is_high_surrogate c = true \/ is_low_surrogate c = true ->
  (32 <= c)%N /\ c <> 92%N.
Proof.
  unfold is_high_surrogate, is_low_surrogate.
  rewrite !andb_true_iff, !N.leb_le. lia.
Qed.

Lemma escape_case_reads_back text out rest tail :
  escape_case text out rest ->
  exists read, text = read ++ rest
               /\ unescaped (out ++ tail) = read ++ unescaped tail
               /\ Forall (fun u => (32 <= u)%N) out.
Proof.
  intros [c e t Hin|c t Hc|c c' t Hc Hc'|c t Hc H92 H34].
  - exists [c]. split; [done|].
    simpl in Hin.
    destruct Hin as [[= <- <-]|[[= <- <-]|[[= <- <-]|[[= <- <-]|[[= <- <-]|[[= <- <-]|[[= <- <-]|[]]]]]]]];
      (split; [reflexivity|repeat constructor; done]).
  - exists [c]. split; [done|]. split; [|apply unicode_escape_printable].
    rewrite unescaped_unicode_escape. by rewrite unicode_escape_value_escaped.
  - exists [c; c']. split; [done|].
    destruct (surrogate_not_special c) as [? ?]; [tauto|].
    destruct (surrogate_not_special c') as [? ?]; [tauto|].
    split; [|by repeat constructor].
    cbn [app]. by rewrite !unescaped_raw.
  - exists [c]. split; [done|]. split; [|by repeat constructor].
    cbn [app]. by rewrite unescaped_raw.
Qed.

Lemma escaped_reads_back text :
  unescaped (escaped text) = text /\ Forall (fun u => (32 <= u)%N) (escaped text).
Proof.
  remember (length text) as n eqn:Hn. revert text Hn.
  induction (lt_wf n) as [n _ IH]. intros text ->.
  destruct text as [|c text]; [by split|].
  destruct (escaped_cases c text) as (out & rest & Hcase & -> & Hlen).
  destruct (escape_case_reads_back _ _ _ (escaped rest) Hcase) as (read & -> & -> & Hout).
  destruct (IH (length rest) ltac:(simpl; lia) rest eq_refl) as [-> Hrest].
  split; [done|]. by apply Forall_app.
Qed.

(** X18: the string written after [export const code = ] can be read back:
    undoing the escapes of [JSON.stringify] gives the transformed text
    again, so two different texts never give the same encoding. No
    character of the encoding is a control character; the bundle therefore
    stays on one line, and the written file has seven line feeds, six of
    the header and the one that ends it, whatever the bundle. *)
Theorem encoded_text_reads_back_on_one_line :
  forall text,
    unescaped (escaped text) = text
    /\ (forall text', JSON_stringify text = JSON_stringify text' -> text = text')
    /\ Forall (fun u => (32 <= u)%N) (JSON_stringify text)
    /\ count_occ N.eq_dec (wrappedContent text) newline = 7%nat.
Proof.
  intros text.
  assert (Hprintable : forall t, Forall (fun u => (32 <= u)%N) (JSON_stringify t)).
  { intros t. unfold JSON_stringify. constructor; [done|].
    apply Forall_app. split; [apply escaped_reads_back|by repeat constructor]. }
  split; [apply escaped_reads_back|]. split; [|split; [apply Hprintable|]].
  - intros text' H. unfold JSON_stringify in H. injection H as H.
    apply app_inv_tail in H.
    rewrite <- (proj1 (escaped_reads_back text)), <- (proj1 (escaped_reads_back text')).
    by rewrite H.
  - unfold wrappedContent. rewrite !count_occ_app.
    assert (count_occ N.eq_dec (JSON_stringify (content text)) newline = 0%nat) as ->.
    { apply count_occ_not_In. intros Hin.
      pose proof (Hprintable (content text)) as Hall.
      rewrite List.Forall_forall in Hall. apply Hall in Hin. unfold newline in Hin. lia. }
    vm_compute. reflexivity.
Qed.

End Esbuild_output.

Module Configs_properties.
Import Esbuild.
Import Esbuild_properties.
Import Configs.
Import Esbuild_output.

Lemma strip_app l rest : strip l (l ++ rest) = Some rest.
Proof. induction l as [|c l IH]; simpl; [done|]. by rewrite N.eqb_refl. Qed.

Lemma strip_Some l text rest : strip l text = Some rest -> text = l ++ rest.
Proof.
  revert text. induction l as [|c l IH]; intros text; simpl.
  - by intros [= ->].
  - destruct text as [|c' text]; [done|].
    destruct (N.eqb_spec c' c) as [->|]; [|done].
    intros H. by rewrite (IH _ H).
Qed.

Lemma strip_occurrence l text rest : strip l text = Some rest <-> occurrence l text rest.
Proof.
  unfold occurrence. split; [apply strip_Some|]. intros ->. apply strip_app.
Qed.

(** [l] occurs in [text] at the position behind [before]. *)
Definition occurs_at (l before text : jsstring) : Prop :=
  exists after, text = before ++ l ++ after.

(** The occurrence of [l] at the end of [before ++ l] is the first one
    in it. *)
Definition first_occurrence (l before : jsstring) : Prop :=
  forall a b, before ++ l = a ++ l ++ b -> b = [].

Lemma take_matched (m rest : jsstring) :
  take (length (m ++ rest) - length rest) (m ++ rest) = m.
Proof.
  rewrite length_app.
  replace (length m + length rest - length rest)%nat with (length m) by lia.
  by rewrite take_app_length.
Qed.

Lemma star_exact p m rest k found :
  Forall (fun c => p c = true) m ->
  (forall c rest', rest = c :: rest' -> p c = false) ->
  k rest = Some found ->
  star p (m ++ rest) k = Some found.
Proof.
  intros Hm Hstop Hk. induction Hm as [|c m Hc Hm IH]; simpl.
  - destruct rest as [|c rest']; simpl; [done|].
    by rewrite (Hstop c rest' eq_refl).
  - by rewrite Hc, IH.
Qed.

Lemma star_none p text k :
  (forall a b, text = a ++ b -> k b = None) -> star p text k = None.
Proof.
  induction text as [|c text IH]; intros Hk; simpl.
  - by apply (Hk [] []).
  - rewrite IH; [|intros a b ->; by apply (Hk (c :: a) b)].
    rewrite (Hk [] (c :: text) eq_refl). by destruct (p c).
Qed.

Lemma lazy_star_first p body tail k found :
  Forall (fun c => p c = true) body ->
  (forall a b, body = a ++ b -> b <> [] -> k (b ++ tail) = None) ->
  k tail = Some found ->
  lazy_star p (body ++ tail) k = Some found.
Proof.
  intros Hbody. induction Hbody as [|c body Hc Hbody IH]; intros Hnone Hk.
  - simpl. destruct tail; simpl; by rewrite Hk.
  - pose proof (Hnone [] (c :: body) eq_refl ltac:(done)) as Hhere.
    cbn [app lazy_star] in *. rewrite Hhere, Hc.
    apply IH; [|done]. intros a b -> Hb. by apply (Hnone (c :: a) b).
Qed.

Lemma String_match_here r text cap :
  match_here r text = Some cap -> String_match r text = Some cap.
Proof. intros H. destruct text; simpl; by rewrite H. Qed.

Lemma String_match_skip r before text :
  (forall a b, before = a ++ b -> b <> [] -> match_here r (b ++ text) = None) ->
  String_match r (before ++ text) = String_match r text.
Proof.
  induction before as [|c before IH]; intros Hnone; [done|].
  pose proof (Hnone [] (c :: before) eq_refl ltac:(done)) as Hhere.
  cbn [app String_match] in *. rewrite Hhere.
  apply IH. intros a b -> Hb. by apply (Hnone (c :: a) b).
Qed.

Lemma String_match_none r text :
  (forall a b, text = a ++ b -> match_here r b = None) -> String_match r text = None.
Proof.
  induction text as [|c text IH]; intros Hnone; simpl.
  - by rewrite (Hnone [] [] eq_refl).
  - rewrite (Hnone [] (c :: text) eq_refl).
    apply IH. intros a b ->. by apply (Hnone (c :: a) b).
Qed.

(** A pattern that starts with a literal matches only where the literal
    stands. *)
Lemma match_here_literal l r text :
  strip l text = None -> match_here (PSeq (PLit l) r) text = None.
Proof. unfold match_here. simpl. by intros ->. Qed.

(** No proper end of [l] is a start of it. *)
Definition unbordered (l : jsstring) : Prop :=
  forall b, b <> [] -> (length b < length l)%nat -> take (length l) (b ++ l) <> l.

(** Before its first occurrence, an unbordered literal does not start. *)
Lemma first_occurrence_strip l before a b after :
  l <> [] -> unbordered l -> first_occurrence l before ->
  before = a ++ b -> b <> [] ->
  strip l (b ++ l ++ after) = None.
Proof.
  intros Hl Hborder Hfirst -> Hb.
  destruct (strip l (b ++ l ++ after)) as [rest|] eqn:Hstrip; [|done].
  exfalso. apply strip_Some in Hstrip.
  apply (f_equal (take (length l))) in Hstrip.
  rewrite take_app_length in Hstrip.
  destruct (decide (length l <= length b)%nat) as [Hle|Hlt].
  - rewrite take_app_le in Hstrip by done.
    assert (Hpre : (a ++ b) ++ l = a ++ l ++ drop (length l) b ++ l).
    { rewrite <- (take_drop (length l) b) at 1. rewrite Hstrip.
      by rewrite <- !app_assoc. }
    apply Hfirst in Hpre. apply app_eq_nil in Hpre as [_ ->]. done.
  - apply (Hborder b Hb ltac:(lia)).
    rewrite app_assoc in Hstrip. rewrite take_app_le in Hstrip; [done|].
    rewrite length_app. lia.
Qed.

Lemma unbordered_comment_start : unbordered (units "/**").
Proof.
  intros [|x [|y [|z b]]] Hb Hlen; simpl in *; try done; try lia; congruence.
Qed.

Lemma unbordered_comment_end : unbordered (units "*/").
Proof.
  intros [|x [|y b]] Hb Hlen; simpl in *; try done; try lia; congruence.
Qed.

Lemma unbordered_inject : unbordered (units "inject").
Proof.
  intros [|x1 [|x2 [|x3 [|x4 [|x5 [|x6 b]]]]]] Hb Hlen; simpl in *;
    try done; try lia; congruence.
Qed.


(** Nothing of [before ++ l] that starts inside [before] starts with [l]. *)
Definition starts_nowhere_before (l before : jsstring) : bool :=
  forallb (fun i => match strip l (drop i (before ++ l)) with
                    | Some _ => false
                    | None => true
                    end)
    (seq 0 (length before)).

Lemma first_occurrence_by_search l before :
  starts_nowhere_before l before = true -> first_occurrence l before.
Proof.
  unfold starts_nowhere_before. rewrite forallb_forall. intros Hall a b Heq.
  destruct b as [|c b]; [done|]. exfalso.
  assert (Hlen : (length a < length before)%nat).
  { apply (f_equal length) in Heq. rewrite !length_app in Heq. simpl in Heq. lia. }
  specialize (Hall (length a)). rewrite Heq, drop_app_length, strip_app in Hall.
  discriminate Hall. apply in_seq. lia.
Qed.

Lemma no_comment_block text :
  ~ occurs (units "/**") text -> String_match comment_block_pattern text = None.
Proof.
  intros Hnone. apply String_match_none. intros a b ->.
  apply match_here_literal.
  destruct (strip (units "/**") b) as [rest|] eqn:Hstrip; [|done].
  exfalso. apply Hnone. exists a, rest. by rewrite (strip_Some _ _ _ Hstrip).
Qed.

(** X19: the comment block of an entry point is the body of its first
    documentation comment: what stands between the first slash and two
    stars of the text and the first star and slash behind them. A text
    without a slash and two stars has no comment block. *)
Theorem comment_block_is_body_of_first_doc_comment :
  forall before body after,
    first_occurrence (units "/**") before ->
    first_occurrence (units "*/") body ->
    String_match comment_block_pattern
      (before ++ units "/**" ++ body ++ units "*/" ++ after)
    = Some (Some body)
    /\ forall text,
         ~ occurs (units "/**") text ->
         String_match comment_block_pattern text = None.
Proof.
  intros before body after Hstart Hend. split.
  - rewrite String_match_skip.
    2:{ intros a b -> Hb. apply match_here_literal.
        by apply (first_occurrence_strip (units "/**") (a ++ b) a b _
                    ltac:(done) unbordered_comment_start). }
    apply String_match_here. unfold match_here, comment_block_pattern.
    cbn [run]. rewrite strip_app.
    apply lazy_star_first.
    + by apply Forall_true.
    + intros a b -> Hb.
      by rewrite (first_occurrence_strip (units "*/") (a ++ b) a b after
                    ltac:(done) unbordered_comment_end).
    + rewrite strip_app. by rewrite take_matched.
  - apply no_comment_block.
Qed.

(** [/** inject: ./a.js */] in front of the code. *)
Definition sample_entry : jsstring :=
  units "// v1" ++ [newline] ++ units "/**" ++ [newline]
  ++ units " * inject: ./a.js" ++ [newline] ++ units " */" ++ [newline]
  ++ units "go(); /* */".

Lemma comment_block_is_body_of_first_doc_comment_witness :
  String_match comment_block_pattern sample_entry
  = Some (Some ([newline] ++ units " * inject: ./a.js" ++ [newline] ++ units " ")).
Proof.
  apply (comment_block_is_body_of_first_doc_comment
           (units "// v1" ++ [newline])
           ([newline] ++ units " * inject: ./a.js" ++ [newline] ++ units " ")
           ([newline] ++ units "go(); /* */")).
  - apply first_occurrence_by_search. vm_compute. reflexivity.
  - apply first_occurrence_by_search. vm_compute. reflexivity.
Defined.

(** ** The injected value of a line *)

Lemma run_opt_present c text cap k found :
  k text cap = Some found -> run (POpt c) (c :: text) cap k = Some found.
Proof. intros Hk. simpl. by rewrite N.eqb_refl, Hk. Qed.

Lemma run_opt_absent c text cap k :
  head text <> Some c -> run (POpt c) text cap k = k text cap.
Proof.
  intros Hhead. destruct text as [|c' text]; simpl; [done|].
  destruct (N.eqb_spec c' c) as [->|]; [|done]. by destruct Hhead.
Qed.

Lemma run_opt_refused c text cap k :
  k text cap = None -> run (POpt c) (c :: text) cap k = k (c :: text) cap.
Proof. intros Hk. simpl. by rewrite N.eqb_refl, Hk. Qed.

(** What has to follow [inject] and the colon: blanks, then the value. *)
Definition blanks_then_value : pattern :=
  PSeq (PStar is_space) (PGroup (PPlus not_space)).

Definition found_capture (rest : jsstring) (cap : capture) : option capture := Some cap.

Lemma value_captured value rest cap :
  value <> [] ->
  Forall (fun c => is_space c = false) value ->
  (forall c rest', rest = c :: rest' -> is_space c = true) ->
  run (PGroup (PPlus not_space)) (value ++ rest) cap found_capture = Some (Some value).
Proof.
  intros Hvalue Hall Hstop. destruct value as [|v value]; [done|].
  apply Forall_cons in Hall as [Hv Hall].
  cbn [run app]. unfold not_space at 1. rewrite Hv. cbn [negb].
  apply star_exact.
  - eapply Forall_impl; [exact Hall|]. intros c Hc. unfold not_space. by rewrite Hc.
  - intros c rest' Hrest. unfold not_space. by rewrite (Hstop c rest' Hrest).
  - unfold found_capture. do 2 f_equal.
    apply (take_matched (v :: value) rest).
Qed.

Lemma blanks_then_value_captured blanks value rest cap :
  Forall (fun c => is_space c = true) blanks ->
  value <> [] ->
  Forall (fun c => is_space c = false) value ->
  (forall c rest', rest = c :: rest' -> is_space c = true) ->
  run blanks_then_value (blanks ++ value ++ rest) cap found_capture = Some (Some value).
Proof.
  intros Hblanks Hvalue Hall Hstop. unfold blanks_then_value. cbn [run].
  apply star_exact; [done| |by apply (value_captured value rest cap)].
  intros c rest' Hrest. destruct value as [|v value]; [done|].
  injection Hrest as <- _. by apply Forall_cons in Hall as [Hv _].
Qed.

Lemma no_value_in_blanks blanks cap :
  Forall (fun c => is_space c = true) blanks ->
  run blanks_then_value blanks cap found_capture = None.
Proof.
  intros Hblanks. unfold blanks_then_value. cbn [run].
  apply star_none. intros a b ->.
  apply Forall_app in Hblanks as [_ Hb].
  destruct b as [|c b]; [done|].
  apply Forall_cons in Hb as [Hc _]. simpl. unfold not_space. by rewrite Hc.
Qed.

Lemma colon_captured blanks cap :
  Forall (fun c => is_space c = true) blanks ->
  run blanks_then_value (58%N :: blanks) cap found_capture = Some (Some [58%N]).
Proof.
  intros Hblanks.
  apply (blanks_then_value_captured [] [58%N] blanks cap); try done.
  - by repeat constructor.
  - intros c rest' ->. by apply Forall_cons in Hblanks as [Hc _].
Qed.

Lemma inject_starts_nowhere_else blanks a b :
  Forall (fun c => is_space c = true) blanks ->
  units "inject" ++ blanks = a ++ b -> a <> [] ->
  strip (units "inject") b = None.
Proof.
  intros Hblanks Heq Ha.
  assert (Hhead : forall c b', b = c :: b' -> c <> 105%N).
  { intros c b' -> ->.
    destruct a as [|a1 [|a2 [|a3 [|a4 [|a5 [|a6 a]]]]]]; simpl in Heq;
      try done; try congruence.
    injection Heq as _ _ _ _ _ _ Heq. rewrite Heq in Hblanks.
    apply Forall_app in Hblanks as [_ Hb].
    apply Forall_cons in Hb as [Hc _]. vm_compute in Hc. discriminate Hc. }
  destruct b as [|c b]; [reflexivity|].
  change (units "inject") with (105%N :: units "nject"). cbn [strip].
  destruct (N.eqb_spec c 105) as [->|]; [|done]. by destruct (Hhead 105%N b).
Qed.

(** X20: the injected value of a line is what follows the first [inject]
    of the line, an optional colon and any blanks, up to the next blank or
    the end of the line. A line that ends after [inject:] and blanks gives
    the colon itself as the value, and a line in which only blanks follow
    its one [inject] gives none ([null]). *)
Theorem injected_value_follows_first_inject :
  forall before blanks,
    first_occurrence (units "inject") before ->
    Forall (fun c => is_space c = true) blanks ->
    (forall (colon : bool) value rest,
       value <> [] ->
       Forall (fun c => is_space c = false) value ->
       (forall c rest', rest = c :: rest' -> is_space c = true) ->
       (colon = false -> blanks = [] -> head value <> Some 58%N) ->
       String_match inject_pattern
         (before ++ units "inject" ++ (if colon then units ":" else [])
          ++ blanks ++ value ++ rest)
       = Some (Some value))
    /\ String_match inject_pattern (before ++ units "inject:" ++ blanks)
       = Some (Some (units ":"))
    /\ String_match inject_pattern (before ++ units "inject" ++ blanks) = None.
Proof.
  intros before blanks Hfirst Hblanks.
  assert (Hskip : forall after,
             String_match inject_pattern (before ++ units "inject" ++ after)
             = String_match inject_pattern (units "inject" ++ after)).
  { intros after. apply String_match_skip. intros a b -> Hb.
    apply match_here_literal.
    by apply (first_occurrence_strip (units "inject") (a ++ b) a b after
                ltac:(done) unbordered_inject). }
  assert (Hhere : forall after,
             match_here inject_pattern (units "inject" ++ after)
             = run (POpt 58) after None
                 (fun rest cap => run blanks_then_value rest cap found_capture)).
  { intros after. unfold match_here, inject_pattern. cbn [run].
    by rewrite strip_app. }
  split; [|split].
  - intros colon value rest Hvalue Hall Hstop Hcolon.
    rewrite Hskip. apply String_match_here. rewrite Hhere.
    destruct colon.
    + apply run_opt_present. by apply blanks_then_value_captured.
    + cbn [app]. rewrite run_opt_absent; [by apply blanks_then_value_captured|].
      destruct blanks as [|c blanks].
      * simpl. destruct value as [|v value]; [done|]. simpl.
        by apply Hcolon.
      * simpl. intros [= ->]. apply Forall_cons in Hblanks as [Hc _].
        vm_compute in Hc. discriminate Hc.
  - change (units "inject:" ++ blanks) with (units "inject" ++ 58%N :: blanks).
    rewrite Hskip. apply String_match_here. rewrite Hhere.
    rewrite run_opt_refused; [|by apply no_value_in_blanks].
    by apply colon_captured.
  - rewrite Hskip. apply String_match_none. intros a b Heq.
    destruct a as [|a0 a].
    + rewrite app_nil_l in Heq. subst b. rewrite Hhere.
      rewrite run_opt_absent; [by apply no_value_in_blanks|].
      destruct blanks as [|c blanks]; [done|].
      simpl. intros [= ->]. apply Forall_cons in Hblanks as [Hc _].
      vm_compute in Hc. discriminate Hc.
    + apply match_here_literal.
      by apply (inject_starts_nowhere_else blanks (a0 :: a) b).
Qed.

Lemma injected_value_follows_first_inject_witness :
  String_match inject_pattern (units " * inject: ./a.js") = Some (Some (units "./a.js"))
  /\ String_match inject_pattern (units " * inject: ") = Some (Some (units ":")).
Proof.
  destruct (injected_value_follows_first_inject (units " * ") (units " "))
    as (Hvalue & Hcolon & _).
  - apply first_occurrence_by_search. vm_compute. reflexivity.
  - repeat constructor.
  - split; [|exact Hcolon].
    apply (Hvalue true (units "./a.js") []); try done.
    repeat constructor.
Defined.

(** ** The configuration of an entry point *)




(** A file system with the sample entry point at every path and the one
    file [./a.js]. *)
Definition sample_fs : Fs :=
  {| readFileSync := fun _ => sample_entry;
     existsSync := fun path => bool_decide (path = units "./a.js") |}.

(** A file system whose entry points read [/** inject: */]. *)
Definition colon_fs : Fs :=
  {| readFileSync := fun _ => units "/** inject: */";
     existsSync := fun path => bool_decide (path = units "./a.js") |}.

Example config_sample_entry :
  config sample_fs (units "src/a.ts")
  = inl {| entryPoint := units "src/a.ts";
           injectedValues := Some [Some (units "./a.js")] |}
  /\ config colon_fs (units "src/a.ts") = inr (file_missing (units ":")).
Proof. split; vm_compute; reflexivity. Qed.


End Configs_properties.
